(** * retrain.py: EfficientNet features fed to an LSTM, trained with a
      best-validation checkpoint

    A shallow embedding of [src/rnn+efficientNet/retrain.py].  The script is
    Python on top of PyTorch, so the development has three layers:

    - [Py]: Python's [float] (IEEE binary64, from the Standard Library's
      [SpecFloat]) and the two divisions the script uses;
    - [Torch]: the part of PyTorch the script leans on: strided tensors with
      [permute] and [view], parameters with a [grad] slot, the
      [requires_grad] bookkeeping of autograd, [load_state_dict];
    - the script itself: [CombinedModel_forward], [train], [validate] and the
      top-level statements, written in a state-and-error monad over the
      objects the script mutates. *)

From Stdlib Require Import ZArith Lia Bool SpecFloat.
From stdpp Require Import base option list gmap strings fin_maps.

Local Open Scope string_scope.
Local Open Scope nat_scope.
Local Open Scope list_scope.

(* ===================================================================== *)
(** ** Python numbers *)
(* ===================================================================== *)

Module Py.

(** A Python [float] is an IEEE 754 binary64 number. *)
Definition float := spec_float.
Definition prec : Z := 53.
Definition emax : Z := 1024.

Definition inf : float := S754_infinity false.       (* float('inf') *)
Definition nan : float := S754_nan.
Definition zero : float := S754_zero false.          (* 0.0 *)
Definition one : float := S754_finite false 4503599627370496 (-52).

Definition is_nan (x : float) : bool :=
  match x with S754_nan => true | _ => false end.

(** [x < y]: false as soon as one side is NaN. *)
Definition lt (x y : float) : bool := SFltb x y.
Definition le (x y : float) : bool := SFleb x y.

Definition add (x y : float) : float := SFadd prec emax x y.
Definition mul (x y : float) : float := SFmul prec emax x y.

Inductive exn :=
| ZeroDivisionError
| OverflowError
| IndexError
| RuntimeError (msg : string).

Definition result (A : Type) : Type := exn + A.

(** [float(n)] for an [int]: the nearest double, [OverflowError] when it
    does not fit. *)
Definition float_of_int (n : Z) : result float :=
  match binary_normalize prec emax n 0 false with
  | S754_infinity _ => inl OverflowError
  | x => inr x
  end.

(** [x * n] and [x / n] with [x] a float and [n] an int: [n] is converted
    first; dividing by zero raises. *)
Definition mul_int (x : float) (n : Z) : result float :=
  match float_of_int n with
  | inl e => inl e
  | inr y => inr (mul x y)
  end.

Definition div_int (x : float) (n : Z) : result float :=
  match n with
  | Z0 => inl ZeroDivisionError
  | _ => match float_of_int n with
         | inl e => inl e
         | inr y => inr (SFdiv prec emax x y)
         end
  end.

(** [a / b] on two ints (true division): the exact quotient rounded once
    to the nearest double. *)
Definition int_truediv (a b : Z) : result float :=
  match b with
  | Z0 => inl ZeroDivisionError
  | _ =>
    match a with
    | Z0 => inr (S754_zero (Z.ltb b 0))
    | _ =>
      let '(mz, ez, lz) :=
        SFdiv_core_binary prec emax (Z.abs a) 0 (Z.abs b) 0 in
      match binary_round_aux prec emax
              (xorb (Z.ltb a 0) (Z.ltb b 0)) mz ez lz with
      | S754_infinity _ => inl OverflowError
      | x => inr x
      end
    end
  end.

(** The built-in left-to-right sum, starting from [0.0]. *)
Definition fsum (xs : list float) : float := foldl add zero xs.

End Py.

(* ===================================================================== *)
(** ** The PyTorch objects the script uses *)
(* ===================================================================== *)

Module Torch.

Import Py.

(** *** Strided tensors *)

Record tensor := Tensor {
  shape : list nat;
  stride : list nat;
  offset : nat;
  storage : list float
}.

Definition numel (sh : list nat) : nat := foldr Nat.mul 1 sh.

(** Row-major strides of a freshly allocated tensor. *)
Fixpoint contiguous_strides (sh : list nat) : list nat :=
  match sh with
  | [] => []
  | _ :: rest => numel rest :: contiguous_strides rest
  end.

(** The strides [resize_] gives an empty tensor: a size-0 axis counts
    as 1. *)
Fixpoint resize_strides (sh : list nat) : list nat :=
  match sh with
  | [] => []
  | _ :: rest =>
    foldr (fun d acc => Nat.max d 1 * acc) 1 rest :: resize_strides rest
  end.

Definition contiguous (t : tensor) : Prop :=
  stride t = contiguous_strides (shape t) /\
  offset t = 0 /\
  length (storage t) = numel (shape t).

Definition new_tensor (sh : list nat) (data : list float) : tensor :=
  Tensor sh (contiguous_strides sh) 0 data.

(** [torch.zeros(sh)] *)
Definition zeros (sh : list nat) : tensor :=
  new_tensor sh (replicate (numel sh) zero).

Fixpoint in_bounds (idx sh : list nat) : bool :=
  match idx, sh with
  | [], [] => true
  | i :: idx', d :: sh' => (i <? d) && in_bounds idx' sh'
  | _, _ => false
  end.

Fixpoint dot_index (idx st : list nat) : nat :=
  match idx, st with
  | i :: idx', s :: st' => i * s + dot_index idx' st'
  | _, _ => 0
  end.

(** [t[i0, i1, ...]] with as many indices as [t] has axes. *)
Definition get (t : tensor) (idx : list nat) : option float :=
  if in_bounds idx (shape t)
  then storage t !! (offset t + dot_index idx (stride t))
  else None.

(** [t.size(d)] *)
Definition size (t : tensor) (d : nat) : result nat :=
  match shape t !! d with
  | Some n => inr n
  | None => inl IndexError
  end.

(** [t.permute(dims)]: same storage, axes reordered. *)
Definition is_permutation (dims : list nat) (n : nat) : bool :=
  bool_decide (length dims = n) &&
  forallb (fun d => bool_decide (d ∈ dims)) (seq 0 n).

Definition permute (t : tensor) (dims : list nat) : result tensor :=
  if is_permutation dims (length (shape t)) then
    inr (Tensor (map (fun d => default 0 (shape t !! d)) dims)
                (map (fun d => default 0 (stride t !! d)) dims)
                (offset t) (storage t))
  else inl (RuntimeError "permute: dims do not match the tensor's axes").

(** [t.view(sizes)], where an entry [None] stands for [-1].

    [infer_size] fills in the [-1]; [compute_stride] finds strides
    that address the same storage under the new sizes, or fails when
    an old axis cannot be merged with its neighbour. *)
Definition infer_size (sizes : list (option nat)) (n : nat)
  : option (list nat) :=
  let known := foldr Nat.mul 1 (omap id sizes) in
  match length (filter (fun o => o = None) sizes) with
  | 0 => if known =? n then Some (omap id sizes) else None
  | 1 => if (0 <? known) && (n mod known =? 0)
         then Some (map (default (n / known)) sizes)
         else None
  | _ => None
  end.

(** Consume view axes (innermost first) while they fit in the current
    chunk of [tn] elements with base stride [cb]. *)
Fixpoint take_view (tn cb vn : nat) (vs acc : list nat)
  : nat * list nat * list nat :=
  match vs with
  | [] => (vn, [], acc)
  | v :: vs' =>
    if (vn <? tn) || (v =? 1)
    then take_view tn cb (vn * v) vs' (vn * cb :: acc)
    else (vn, vs, acc)
  end.

(** Walk the old axes innermost first; [tn] is the number of elements of
    the chunk gathered so far, [cb] its base stride. *)
Fixpoint compute_stride_loop (old : list (nat * nat)) (tn cb : nat)
         (vs acc : list nat) : option (list nat) :=
  match old with
  | [] => None
  | (sz, _) :: rest =>
    let tn := tn * sz in
    let boundary :=
      match rest with
      | [] => true
      | (psz, pst) :: _ => negb (psz =? 1) && negb (pst =? tn * cb)
      end in
    if boundary then
      let '(vn, vs', acc') := take_view tn cb 1 vs acc in
      if vn =? tn then
        match rest with
        | [] => match vs' with [] => Some acc' | _ => None end
        | (_, pst) :: _ => compute_stride_loop rest 1 pst vs' acc'
        end
      else None
    else compute_stride_loop rest tn cb vs acc
  end.

Definition compute_stride (old_shape old_stride new_shape : list nat)
  : option (list nat) :=
  match reverse (zip old_shape old_stride) with
  | [] => Some (map (fun _ => 1) new_shape)
  | (sz, st) :: rest =>
    compute_stride_loop ((sz, st) :: rest) 1 st (reverse new_shape) []
  end.

Definition view (t : tensor) (sizes : list (option nat)) : result tensor :=
  match infer_size sizes (numel (shape t)) with
  | None => inl (RuntimeError "view: shape is invalid for input size")
  | Some sh =>
    if numel sh =? 0
    then inr (Tensor sh (if bool_decide (shape t = sh) then stride t
                         else resize_strides sh)
                     (offset t) (storage t))
    else
      match compute_stride (shape t) (stride t) sh with
      | Some st => inr (Tensor sh st (offset t) (storage t))
      | None =>
        inl (RuntimeError
               "view size is not compatible with input tensor's size and stride")
      end
  end.



(** *** Single-precision arithmetic of tensor elements *)

Definition add32 (x y : float) : float := SFadd 24 128 x y.
Definition mul32 (x y : float) : float := SFmul 24 128 x y.
Definition two32 : float := S754_finite false 8388608 (-22).

(** Element-wise [a + b] of two tensors of the same layout. *)
Definition tensor_add (a b : tensor) : tensor :=
  Tensor (shape a) (stride a) (offset a)
         (zip_with add32 (storage a) (storage b)).

(** Rows of a 2-D tensor, and the sequences of a 3-D one. *)
Definition row2 (t : tensor) (i : nat) : list float :=
  map (fun j => default zero (get t [i; j]))
      (seq 0 (default 0 (shape t !! 1))).

Definition rows2 (t : tensor) : list (list float) :=
  map (row2 t) (seq 0 (default 0 (shape t !! 0))).

Definition step3 (t : tensor) (b s : nat) : list float :=
  map (fun c => default zero (get t [b; s; c]))
      (seq 0 (default 0 (shape t !! 2))).

Definition sequence3 (t : tensor) (b : nat) : list (list float) :=
  map (step3 t b) (seq 0 (default 0 (shape t !! 1))).

(** [t[:, -1, :]] of a 3-D tensor: a view on the last step. *)
Definition select_last (t : tensor) : result tensor :=
  match shape t, stride t with
  | [b; n; c], [sb; sn; sc] =>
    match n with
    | 0 => inl IndexError
    | S n' => inr (Tensor [b; c] [sb; sc] (offset t + n' * sn) (storage t))
    end
  | _, _ => inl IndexError
  end.

(** [torch.max(outputs, 1)[1]] on one row: the first maximum, and a NaN
    counts as the maximum. *)
Fixpoint argmax_from (i idx : nat) (mx : float) (xs : list float) : nat :=
  match xs with
  | [] => idx
  | v :: rest =>
    if negb (le v mx)
    then (if is_nan v then i else argmax_from (S i) i v rest)
    else argmax_from (S i) idx mx rest
  end.

Definition argmax (xs : list float) : nat :=
  match xs with
  | [] => 0
  | x :: _ => argmax_from 0 0 x xs
  end.

(** [(predicted == labels).sum().item()] *)
Definition count_equal (predicted labels : list nat) : Z :=
  Z.of_nat (length (filter (fun pl => pl.1 = pl.2) (zip predicted labels))).

(** *** Parameters, state dicts and autograd leaves *)

Record parameter := Param { data : tensor; grad : option tensor }.

(** The two parameter-holding children of the combined model. *)
Inductive owner := Extractor | Recurrent.

#[export] Instance owner_eq_dec : EqDecision owner.
Proof. solve_decision. Defined.

#[export] Instance owner_countable : Countable owner :=
  inj_countable' (fun o => match o with Extractor => true | Recurrent => false end)
                 (fun b => if b then Extractor else Recurrent)
                 (fun o => match o with Extractor => eq_refl | Recurrent => eq_refl end).

Definition pname : Type := owner * string.

(** A tensor as autograd sees it: its value, and the parameters its
    [grad_fn] graph reaches ([requires_grad] is [leaves ≠ ∅]). *)
Record var := Var { value : tensor; leaves : gset pname }.

Definition detached (t : tensor) : var := Var t ∅.

(** [module.load_state_dict(sd)] with the default [strict=True]: the keys
    must be exactly the module's parameters and buffers and every shape
    must agree; then the values are copied in. *)
Definition expected_shapes (params : gmap string parameter)
           (buffers : gmap string tensor) : gmap string (list nat) :=
  ((fun p => shape (data p)) <$> params) ∪ (shape <$> buffers).

Definition load_state_dict (params : gmap string parameter)
           (buffers : gmap string tensor) (sd : gmap string tensor)
  : result (gmap string parameter * gmap string tensor) :=
  if bool_decide (shape <$> sd = expected_shapes params buffers) then
    inr (map_imap (fun k p => Some (Param (default (data p) (sd !! k)) (grad p)))
                  params,
         map_imap (fun k b => Some (default b (sd !! k))) buffers)
  else inl (RuntimeError "Error(s) in loading state_dict").

(** [module.state_dict()] *)
Definition state_dict (params : gmap string parameter)
           (buffers : gmap string tensor) : gmap string tensor :=
  (data <$> params) ∪ buffers.

(** [F.dropout(x, 0.5, training)]: the identity in evaluation mode; in
    training mode the kept elements are scaled by [1 / (1 - 0.5)]. *)
Definition dropout_mask (mask : list bool) (t : tensor) : tensor :=
  Tensor (shape t) (stride t) (offset t)
         (zip_with (fun x (keep : bool) => if keep then mul32 x two32 else zero)
                   (storage t) mask).

End Torch.

Import Py Torch.

(* ===================================================================== *)
(** ** The script *)
(* ===================================================================== *)

Section Script.

#[local] Set Default Proof Using "Type".

(** What the script takes from its libraries without defining it: the
    random generator, the numerics of the pretrained network and of the
    recurrent cell, the loss, its derivative, and Adam's update rule. *)
Context {Rng Slot : Type}.
Variable randperm : Rng -> nat -> list nat * Rng.
Variable bernoulli : Rng -> nat -> list bool * Rng.
Variable init_values : Rng -> nat -> list float * Rng.
Variable effnet_features :
  gmap string tensor -> gmap string tensor -> bool -> tensor -> tensor.
Variable bn_update :
  gmap string tensor -> gmap string tensor -> tensor -> gmap string tensor.
Variable dot : list float -> list float -> float.
Variable sigmoid tanh : float -> float.
Variable cross_entropy : tensor -> list nat -> float.
Variable gradient :
  pname -> gmap string tensor -> gmap string tensor -> Rng ->
  tensor -> list nat -> tensor.
Variable adam_update : option Slot -> tensor -> tensor -> tensor * Slot.

(** What is on the machine before the script starts: the device, the
    downloaded [efficientnet-b0] weights (parameters and buffers), and
    the three image folders after the transform. *)
Variable cuda_available : bool.
Variable pretrained : gmap string tensor * gmap string tensor.
Variable training_set validation_set testing_set : list (tensor * nat).

(** *** The objects the script mutates *)

Inductive line :=
| DeviceLine (cuda : bool)
| NumLine (n : nat)
| TrainLine (epoch num_epochs : nat) (loss accuracy : float)
| ValLine (loss accuracy : float).

Inductive event :=
| Printed (l : line)
| Saved (file : string) (sd : gmap string tensor).

Record world := World {
  effnet_model : gmap string parameter;  (* backbone and [_fc] head *)
  effnet_buffers : gmap string tensor;   (* running statistics *)
  lstm_model : gmap string parameter;    (* [lstm.*] and [fc.*] *)
  input_size : nat;                      (* [lstm_model.lstm.input_size] *)
  hidden_size : nat;                     (* [lstm_model.hidden_size] *)
  training : bool;                       (* [combined_model.training] *)
  grad_enabled : bool;                   (* [torch.is_grad_enabled()] *)
  adam_state : gmap pname Slot;          (* [optimizer.state] *)
  rng : Rng;
  disk : gmap string (gmap string tensor);
  log : list event                       (* prints and file writes, in order *)
}.

Definition set_effnet (p : gmap string parameter) (b : gmap string tensor)
           (w : world) : world :=
  World p b (lstm_model w) (input_size w) (hidden_size w) (training w)
        (grad_enabled w) (adam_state w) (rng w) (disk w) (log w).

Definition set_lstm (p : gmap string parameter) (i h : nat) (w : world)
  : world :=
  World (effnet_model w) (effnet_buffers w) p i h (training w)
        (grad_enabled w) (adam_state w) (rng w) (disk w) (log w).

Definition set_training (b : bool) (w : world) : world :=
  World (effnet_model w) (effnet_buffers w) (lstm_model w) (input_size w)
        (hidden_size w) b (grad_enabled w) (adam_state w) (rng w) (disk w)
        (log w).

Definition set_grad_enabled (b : bool) (w : world) : world :=
  World (effnet_model w) (effnet_buffers w) (lstm_model w) (input_size w)
        (hidden_size w) (training w) b (adam_state w) (rng w) (disk w)
        (log w).

Definition set_adam_state (s : gmap pname Slot) (w : world) : world :=
  World (effnet_model w) (effnet_buffers w) (lstm_model w) (input_size w)
        (hidden_size w) (training w) (grad_enabled w) s (rng w) (disk w)
        (log w).

Definition set_rng (g : Rng) (w : world) : world :=
  World (effnet_model w) (effnet_buffers w) (lstm_model w) (input_size w)
        (hidden_size w) (training w) (grad_enabled w) (adam_state w) g
        (disk w) (log w).

Definition set_disk_log (d : gmap string (gmap string tensor))
           (l : list event) (w : world) : world :=
  World (effnet_model w) (effnet_buffers w) (lstm_model w) (input_size w)
        (hidden_size w) (training w) (grad_enabled w) (adam_state w)
        (rng w) d l.

(** *** State and exceptions *)

Definition M (A : Type) : Type := world -> result (A * world).

Definition ret {A} (a : A) : M A := fun w => inr (a, w).

Definition bind {A B} (m : M A) (k : A -> M B) : M B :=
  fun w => match m w with
           | inl e => inl e
           | inr (a, w') => k a w'
           end.

Definition lift {A} (r : result A) : M A :=
  fun w => match r with inl e => inl e | inr a => inr (a, w) end.

Definition raise {A} (e : exn) : M A := fun _ => inl e.

Notation "x <- m ;; k" := (bind m (fun x => k))
  (at level 100, m at next level, right associativity).
Notation "m ;;; k" := (bind m (fun _ => k))
  (at level 100, right associativity).

Fixpoint for_each {A S} (body : S -> A -> M S) (s : S) (xs : list A)
  : M S :=
  match xs with
  | [] => ret s
  | x :: rest => s' <- body s x ;; for_each body s' rest
  end.

Definition print (l : line) : M unit :=
  fun w => inr (tt, set_disk_log (disk w) (log w ++ [Printed l]) w).

(** [torch.save(sd, file)] and [torch.load(file)] *)
Definition torch_save (sd : gmap string tensor) (file : string) : M unit :=
  fun w => inr (tt, set_disk_log (<[file := sd]> (disk w))
                                 (log w ++ [Saved file sd]) w).

Definition torch_load (file : string) : M (gmap string tensor) :=
  fun w => match disk w !! file with
           | Some sd => inr (sd, w)
           | None => inl (RuntimeError "No such file or directory")
           end.

(** [with torch.no_grad(): body] *)
Definition no_grad {A} (body : M A) : M A :=
  fun w => match body (set_grad_enabled false w) with
           | inl e => inl e
           | inr (a, w') => inr (a, set_grad_enabled (grad_enabled w) w')
           end.

(** *** The models *)

Definition param_data (w : world) (o : owner) : gmap string tensor :=
  data <$> (match o with
            | Extractor => effnet_model w
            | Recurrent => lstm_model w
            end).

(** What autograd records for the result of an operation: nothing
    while gradient tracking is disabled; otherwise the leaves of its
    input, and the parameters of module [o] whose name passes [used]. *)
Definition keep_leaves (w : world) (inputs : gset pname) : gset pname :=
  if grad_enabled w then inputs else ∅.

Definition op_leaves (w : world) (inputs : gset pname) (o : owner)
           (used : string -> bool) : gset pname :=
  keep_leaves w
    (inputs ∪
     set_map (fun k => (o, k))
             (filter (fun k => used k = true)
                     (dom (match o with
                           | Extractor => effnet_model w
                           | Recurrent => lstm_model w
                           end)))).

(** [self.dropout(x)] of an [nn.Dropout(0.5)] *)
Definition dropout (x : var) : M var :=
  fun w =>
    if training w then
      let '(mask, g) := bernoulli (rng w) (length (storage (value x))) in
      inr (Var (dropout_mask mask (value x)) (keep_leaves w (leaves x)),
           set_rng g w)
    else inr (x, w).

(** [effnet_model.extract_features(x)]: the convolutional layers only,
    never [_fc]; in training mode the running statistics move. *)
Definition extract_features (x : var) : M var :=
  fun w =>
    let feat := effnet_features (param_data w Extractor) (effnet_buffers w)
                                (training w) (value x) in
    let bufs := if training w
                then bn_update (param_data w Extractor) (effnet_buffers w)
                               (value x)
                else effnet_buffers w in
    inr (Var feat (op_leaves w (leaves x) Extractor
                             (fun k => negb (String.prefix "_fc." k))),
         set_effnet (effnet_model w) bufs w).

(** One step of the recurrent cell. *)
Definition lstm_cell (wts : gmap string tensor) (hs : nat)
           (hc : list float * list float) (x : list float)
  : list float * list float :=
  let '(h, c) := hc in
  let w_ih := default (zeros []) (wts !! "lstm.weight_ih_l0") in
  let w_hh := default (zeros []) (wts !! "lstm.weight_hh_l0") in
  let b_ih := default (zeros []) (wts !! "lstm.bias_ih_l0") in
  let b_hh := default (zeros []) (wts !! "lstm.bias_hh_l0") in
  let gate j :=
    add32 (add32 (dot (row2 w_ih j) x) (default zero (get b_ih [j])))
          (add32 (dot (row2 w_hh j) h) (default zero (get b_hh [j]))) in
  let i := map (fun j => sigmoid (gate j)) (seq 0 hs) in
  let f := map (fun j => sigmoid (gate j)) (seq hs hs) in
  let g := map (fun j => tanh (gate j)) (seq (2 * hs) hs) in
  let o := map (fun j => sigmoid (gate j)) (seq (3 * hs) hs) in
  let c' := zip_with add32 (zip_with mul32 f c) (zip_with mul32 i g) in
  (zip_with mul32 o (map tanh c'), c').

Fixpoint lstm_scan (wts : gmap string tensor) (hs : nat)
         (hc : list float * list float) (xs : list (list float))
  : list (list float) :=
  match xs with
  | [] => []
  | x :: rest =>
    let hc' := lstm_cell wts hs hc x in
    hc'.1 :: lstm_scan wts hs hc' rest
  end.

(** [self.lstm(x, (h0, c0))] of an [nn.LSTM(input_size, hidden_size, 1,
    batch_first=True)]; only the output sequence is used. *)
Definition nn_LSTM (x : var) (h0 c0 : tensor) : M var :=
  fun w =>
    match shape (value x) with
    | [b; n; f] =>
      if bool_decide (f = input_size w) then
        let hs := hidden_size w in
        let out :=
          map (fun i => lstm_scan (param_data w Recurrent) hs
                                  (step3 h0 0 i, step3 c0 0 i)
                                  (sequence3 (value x) i))
              (seq 0 b) in
        inr (Var (new_tensor [b; n; hs] (concat (concat out)))
                 (op_leaves w (leaves x) Recurrent (String.prefix "lstm.")),
             w)
      else inl (RuntimeError "input.size(-1) must be equal to input_size")
    | _ => inl (RuntimeError "input must have 3 dimensions")
    end.

(** [self.fc(x)] of the [nn.Linear(hidden_size, num_classes)] *)
Definition fc (x : var) : M var :=
  fun w =>
    let wt := default (zeros []) (param_data w Recurrent !! "fc.weight") in
    let bs := default (zeros []) (param_data w Recurrent !! "fc.bias") in
    match shape (value x), shape wt with
    | [b; n], [out; n'] =>
      if bool_decide (n = n') then
        let rows :=
          map (fun r => map (fun j => add32 (dot (row2 wt j) r)
                                            (default zero (get bs [j])))
                            (seq 0 out))
              (rows2 (value x)) in
        inr (Var (new_tensor [b; out] (concat rows))
                 (op_leaves w (leaves x) Recurrent (String.prefix "fc.")),
             w)
      else inl (RuntimeError "mat1 and mat2 shapes cannot be multiplied")
    | _, _ => inl (RuntimeError "mat1 and mat2 shapes cannot be multiplied")
    end.

Definition select_last_var (x : var) : M var :=
  fun w => match select_last (value x) with
           | inl e => inl e
           | inr t => inr (Var t (keep_leaves w (leaves x)), w)
           end.

(** [LSTMModel.forward] *)
Definition LSTMModel_forward (x : var) : M var :=
  b <- lift (size (value x) 0) ;;
  hs <- (fun w => inr (hidden_size w, w)) ;;
  let h0 := zeros [1; b; hs] in
  let c0 := zeros [1; b; hs] in
  out <- nn_LSTM x h0 c0 ;;
  out <- select_last_var out ;;
  out <- dropout out ;;
  fc out.

Definition permute_var (x : var) (dims : list nat) : M var :=
  fun w => match permute (value x) dims with
           | inl e => inl e
           | inr t => inr (Var t (keep_leaves w (leaves x)), w)
           end.

Definition view_var (x : var) (sizes : list (option nat)) : M var :=
  fun w => match view (value x) sizes with
           | inl e => inl e
           | inr t => inr (Var t (keep_leaves w (leaves x)), w)
           end.

(** [CombinedModel.forward] *)
Definition CombinedModel_forward (x : var) : M var :=
  x <- no_grad (extract_features x) ;;
  x <- permute_var x [0; 2; 3; 1] ;;
  n0 <- lift (size (value x) 0) ;;
  n1 <- lift (size (value x) 1) ;;
  n2 <- lift (size (value x) 2) ;;
  x <- view_var x [Some n0; Some (n1 * n2); None] ;;
  x <- dropout x ;;
  LSTMModel_forward x.

(** *** Data loading *)

(** A dataset item: the transformed image and its class index. *)
Definition sample : Type := tensor * nat.
Definition batch : Type := tensor * list nat.

Definition batch_size : nat := 32.

Fixpoint chunks_fuel {A} (fuel n : nat) (l : list A) : list (list A) :=
  match fuel with
  | 0 => []
  | S fuel' =>
    match l with
    | [] => []
    | _ => take n l :: chunks_fuel fuel' n (drop n l)
    end
  end.

Definition chunks {A} (n : nat) (l : list A) : list (list A) :=
  chunks_fuel (length l) n l.

(** The default collate function: images stacked along a new first
    axis, labels gathered. *)
Definition collate (ss : list sample) : batch :=
  (new_tensor (length ss :: match ss with
                            | [] => []
                            | s :: _ => shape s.1
                            end)
              (concat (map (fun s => storage s.1) ss)),
   map snd ss).

(** One pass over [DataLoader(dataset, batch_size, shuffle)]: with
    [shuffle] the order is a fresh [torch.randperm]; the last batch may
    be smaller ([drop_last] keeps its default). *)
Definition DataLoader (dataset : list sample) (shuffle : bool)
  : M (list batch) :=
  fun w =>
    let '(order, g) := if shuffle
                       then randperm (rng w) (length dataset)
                       else (seq 0 (length dataset), rng w) in
    match mapM (fun i => dataset !! i) order with
    | Some ss => inr (map collate (chunks batch_size ss), set_rng g w)
    | None => inl IndexError
    end.

(** *** Loss, backward pass and optimizer *)

(** [criterion(outputs, labels)] with [nn.CrossEntropyLoss()]: the mean
    loss of the batch as a Python float ([loss.item()]) and the leaves
    the loss tensor reaches. *)
Definition criterion (outputs : var) (labels : list nat)
  : M (float * gset pname) :=
  fun w =>
    match shape (value outputs) with
    | [b; c] =>
      if bool_decide (b = length labels) then
        if forallb (fun l => l <? c) labels
        then inr ((cross_entropy (value outputs) labels,
                   keep_leaves w (leaves outputs)), w)
        else inl IndexError
      else inl (RuntimeError "Expected input batch_size to match target batch_size")
    | _ => inl (RuntimeError "Expected a 2-D input")
    end.

Definition accumulate (g : tensor) (p : parameter) : parameter :=
  Param (data p)
        (Some (match grad p with
               | None => g
               | Some old => tensor_add old g
               end)).

(** [loss.backward()]: every leaf of the loss receives its gradient. *)
Definition backward (lv : gset pname) (g : pname -> tensor) : M unit :=
  fun w =>
    if bool_decide (lv = ∅) then
      inl (RuntimeError "element 0 of tensors does not require grad")
    else
      let upd o :=
        map_imap (fun k p => Some (if bool_decide ((o, k) ∈ lv)
                                   then accumulate (g (o, k)) p
                                   else p)) in
      inr (tt, set_lstm (upd Recurrent (lstm_model w))
                        (input_size w) (hidden_size w)
                        (set_effnet (upd Extractor (effnet_model w))
                                    (effnet_buffers w) w)).

(** [optimizer.zero_grad()] *)
Definition zero_grad : M unit :=
  fun w =>
    let clear := fmap (fun p => Param (data p) None) in
    inr (tt, set_lstm (clear (lstm_model w)) (input_size w) (hidden_size w)
                      (set_effnet (clear (effnet_model w))
                                  (effnet_buffers w) w)).

(** [optimizer.step()] of [optim.Adam(combined_model.parameters())]:
    every registered parameter is visited, and one whose [grad] is
    [None] is skipped. *)
Definition adam_params (o : owner) (st : gmap pname Slot)
           (ps : gmap string parameter) : gmap string parameter :=
  map_imap (fun k p =>
              Some (match grad p with
                    | None => p
                    | Some g =>
                      Param (adam_update (st !! (o, k)) (data p) g).1 (grad p)
                    end)) ps.

Definition adam_slots (o : owner) (st : gmap pname Slot)
           (ps : gmap string parameter) : gmap pname Slot :=
  kmap (fun k => (o, k))
       (map_imap (fun k p =>
                    match grad p with
                    | None => None
                    | Some g => Some (adam_update (st !! (o, k)) (data p) g).2
                    end) ps).

Definition optimizer_step : M unit :=
  fun w =>
    let st := adam_state w in
    inr (tt,
         set_adam_state
           (adam_slots Extractor st (effnet_model w) ∪
            adam_slots Recurrent st (lstm_model w) ∪ st)
           (set_lstm (adam_params Recurrent st (lstm_model w))
                     (input_size w) (hidden_size w)
                     (set_effnet (adam_params Extractor st (effnet_model w))
                                 (effnet_buffers w) w))).

(** [combined_model.state_dict()]: the children's entries under their
    attribute names. *)
Definition combined_state_dict (w : world) : gmap string tensor :=
  kmap (String.append "effnet_model.")
       (state_dict (effnet_model w) (effnet_buffers w)) ∪
  kmap (String.append "lstm_model.") (state_dict (lstm_model w) ∅).

(** *** [train] and [validate] *)

Record stats := Stats {
  running_loss : float;
  correct_predictions : Z;
  total_samples : Z
}.

(** [_, predicted = torch.max(outputs, 1)] *)
Definition predictions (outputs : tensor) : list nat :=
  map argmax (rows2 outputs).

(** The "update statistics" lines shared by both loops. *)
Definition update_stats (st : stats) (loss : float) (inputs outputs : tensor)
           (labels : list nat) : M stats :=
  n <- lift (size inputs 0) ;;
  weighted <- lift (mul_int loss (Z.of_nat n)) ;;
  ret (Stats (add (running_loss st) weighted)
             (correct_predictions st
              + count_equal (predictions outputs) labels)
             (total_samples st + Z.of_nat (length labels))).

Definition get_world : M world := fun w => inr (w, w).

(** The body of [for inputs, labels in train_loader]. *)
Definition train_step (st : stats) (b : batch) : M stats :=
  let '(inputs, labels) := b in
  zero_grad ;;;
  w0 <- get_world ;;
  outputs <- CombinedModel_forward (detached inputs) ;;
  loss <- criterion outputs labels ;;
  backward loss.2
           (fun pn => gradient pn (param_data w0 Extractor)
                               (param_data w0 Recurrent) (rng w0)
                               inputs labels) ;;;
  optimizer_step ;;;
  update_stats st loss.1 inputs (value outputs) labels.

(** The body of [for inputs, labels in val_loader]. *)
Definition validate_step (st : stats) (b : batch) : M stats :=
  let '(inputs, labels) := b in
  outputs <- CombinedModel_forward (detached inputs) ;;
  loss <- criterion outputs labels ;;
  update_stats st loss.1 inputs (value outputs) labels.

Definition model_mode (train_mode : bool) : M unit :=
  fun w => inr (tt, set_training train_mode w).

(** The [with torch.no_grad()] block of [validate]. *)
Definition validate_loop (val_dataset : list sample) : M stats :=
  no_grad (batches <- DataLoader val_dataset false ;;
           for_each validate_step (Stats zero 0 0) batches).

(** [validate(model, val_loader, criterion, device)] *)
Definition validate (val_dataset : list sample) : M (float * float) :=
  model_mode false ;;;
  st <- validate_loop val_dataset ;;
  avg_val_loss <- lift (div_int (running_loss st)
                                (Z.of_nat (length val_dataset))) ;;
  val_accuracy <- lift (int_truediv (correct_predictions st)
                                    (total_samples st)) ;;
  ret (avg_val_loss, val_accuracy).

(** "Save the model if validation loss has decreased": lines 153 to
    156, returning the new [best_val_loss]. *)
Definition save_if_best (val_loss best_val_loss : float) : M float :=
  if lt val_loss best_val_loss then
    w <- get_world ;;
    torch_save (combined_state_dict w) "model_best.pth" ;;;
    ret val_loss
  else ret best_val_loss.

(** The body of [for epoch in range(num_epochs)]; [best_val_loss] goes in
    and comes out. *)
Definition train_epoch (train_dataset val_dataset : list sample)
           (num_epochs : nat) (best_val_loss : float) (epoch : nat)
  : M float :=
  model_mode true ;;;
  batches <- DataLoader train_dataset true ;;
  st <- for_each train_step (Stats zero 0 0) batches ;;
  epoch_loss <- lift (div_int (running_loss st)
                              (Z.of_nat (length train_dataset))) ;;
  epoch_accuracy <- lift (int_truediv (correct_predictions st)
                                      (total_samples st)) ;;
  print (TrainLine (epoch + 1) num_epochs epoch_loss epoch_accuracy) ;;;
  r <- validate val_dataset ;;
  print (ValLine r.1 r.2) ;;;
  save_if_best r.1 best_val_loss.

(** [train(model, train_loader, val_loader, criterion, optimizer,
    num_epochs)] *)
Definition train (train_dataset val_dataset : list sample)
           (num_epochs : nat) : M unit :=
  for_each (train_epoch train_dataset val_dataset num_epochs) inf
           (seq 0 num_epochs) ;;;
  ret tt.

(** *** The top-level statements *)

(** [datasets.ImageFolder(dir, transform)] refuses a folder without
    images. *)
Definition ImageFolder (folder : list sample) : M (list sample) :=
  match folder with
  | [] => raise (RuntimeError "Found 0 files in subfolders")
  | _ => ret folder
  end.

(** [EfficientNet.from_pretrained('efficientnet-b0')] *)
Definition from_pretrained : M unit :=
  fun w => inr (tt, set_effnet ((fun t => Param t None) <$> pretrained.1)
                               pretrained.2 w).

(** [effnet_model._fc.in_features] *)
Definition fc_in_features : M nat :=
  fun w => match shape <$> (param_data w Extractor !! "_fc.weight") with
           | Some [_; n] => inr (n, w)
           | _ => inl (RuntimeError "no attribute _fc")
           end.

(** A freshly initialised parameter of the given shape. *)
Definition fresh (sh : list nat) : M parameter :=
  fun w => let '(vs, g) := init_values (rng w) (numel sh) in
           inr (Param (new_tensor sh vs) None, set_rng g w).

(** [effnet_model._fc = CustomClassifier(num_ftrs, 2)] *)
Definition replace_fc (num_ftrs num_classes : nat) : M unit :=
  w1 <- fresh [512; num_ftrs] ;;
  b1 <- fresh [512] ;;
  w2 <- fresh [num_classes; 512] ;;
  b2 <- fresh [num_classes] ;;
  fun w =>
    inr (tt, set_effnet
               (<["_fc.fc1.weight" := w1]>
                  (<["_fc.fc1.bias" := b1]>
                     (<["_fc.fc2.weight" := w2]>
                        (<["_fc.fc2.bias" := b2]>
                           (filter (fun kv => String.prefix "_fc." kv.1 = false)
                                   (effnet_model w))))))
               (effnet_buffers w) w).

(** [effnet_model.load_state_dict(sd)] *)
Definition effnet_load_state_dict (sd : gmap string tensor) : M unit :=
  fun w => match load_state_dict (effnet_model w) (effnet_buffers w) sd with
           | inl e => inl e
           | inr (ps, bs) => inr (tt, set_effnet ps bs w)
           end.

(** [LSTMModel(input_size, hidden_size, 1, num_classes)] *)
Definition new_LSTMModel (input hidden num_classes : nat) : M unit :=
  w_ih <- fresh [4 * hidden; input] ;;
  w_hh <- fresh [4 * hidden; hidden] ;;
  b_ih <- fresh [4 * hidden] ;;
  b_hh <- fresh [4 * hidden] ;;
  fw <- fresh [num_classes; hidden] ;;
  fb <- fresh [num_classes] ;;
  fun w =>
    inr (tt, set_lstm (<["lstm.weight_ih_l0" := w_ih]>
                         (<["lstm.weight_hh_l0" := w_hh]>
                            (<["lstm.bias_ih_l0" := b_ih]>
                               (<["lstm.bias_hh_l0" := b_hh]>
                                  (<["fc.weight" := fw]>
                                     (<["fc.bias" := fb]> ∅))))))
                      input hidden w).

(** [combined_model.load_state_dict(sd)] *)
Definition combined_load_state_dict (sd : gmap string tensor) : M unit :=
  fun w =>
    if bool_decide (shape <$> sd = shape <$> combined_state_dict w) then
      let pick prefix k (old : tensor) :=
        default old (sd !! String.append prefix k) in
      inr (tt,
           set_lstm
             (map_imap (fun k p => Some (Param (pick "lstm_model." k (data p))
                                               (grad p)))
                       (lstm_model w))
             (input_size w) (hidden_size w)
             (set_effnet
                (map_imap (fun k p =>
                             Some (Param (pick "effnet_model." k (data p))
                                         (grad p)))
                          (effnet_model w))
                (map_imap (fun k b => Some (pick "effnet_model." k b))
                          (effnet_buffers w))
                w))
    else inl (RuntimeError "Error(s) in loading state_dict").

(** The machine when the interpreter starts. *)
Definition boot (g : Rng) (files : gmap string (gmap string tensor))
  : world :=
  World ∅ ∅ ∅ 0 0 true true ∅ g files [].

(** Everything after the model is built: lines 183 to 187. *)
Definition train_and_save (train_dataset val_dataset : list sample)
  : M unit :=
  train train_dataset val_dataset 5 ;;;
  w <- get_world ;;
  torch_save (state_dict (effnet_model w) (effnet_buffers w)) "model.pth".

(** Lines 44 to 62: the pretrained network with its classifier replaced;
    returns [num_ftrs]. *)
Definition build_extractor : M nat :=
  from_pretrained ;;;
  num_ftrs <- fc_in_features ;;
  print (NumLine num_ftrs) ;;;
  replace_fc num_ftrs 2 ;;;
  ret num_ftrs.

(** Line 63: [effnet_model.load_state_dict(torch.load(...))]. *)
Definition load_extractor : M unit :=
  sd <- torch_load "efficientnet_model.pth" ;;
  effnet_load_state_dict sd.

(** Lines 104 to 117: the recurrent classifier, the combined model and its
    checkpoint. *)
Definition build_combined (num_ftrs : nat) : M unit :=
  new_LSTMModel num_ftrs 128 2 ;;;
  sd <- torch_load "combined_model_best.pth" ;;
  combined_load_state_dict sd.

(** Lines 9 to 62: the device message, the three image folders and the
    extractor; returns the training set, the validation set and
    [num_ftrs]. *)
Definition startup : M (list sample * list sample * nat) :=
  print (DeviceLine cuda_available) ;;;
  train_dataset <- ImageFolder training_set ;;
  val_dataset <- ImageFolder validation_set ;;
  _ <- ImageFolder testing_set ;;
  num_ftrs <- build_extractor ;;
  ret (train_dataset, val_dataset, num_ftrs).

(** The whole script, top to bottom. *)
Definition script : M unit :=
  s <- startup ;;
  load_extractor ;;;
  build_combined s.2 ;;;
  train_and_save s.1.1 s.1.2.

(** *** Vocabulary of the statements *)

(** What one epoch leaves in the log. *)
Record epoch_report := Report {
  train_loss : float;
  train_accuracy : float;
  val_loss : float;
  val_accuracy : float;
  checkpoint : option (gmap string tensor)
}.

Definition epoch_log (num_epochs epoch : nat) (r : epoch_report)
  : list event :=
  [Printed (TrainLine (epoch + 1) num_epochs (train_loss r) (train_accuracy r));
   Printed (ValLine (val_loss r) (val_accuracy r))] ++
  match checkpoint r with
  | Some sd => [Saved "model_best.pth" sd]
  | None => []
  end.

(** [best_val_loss] after epochs with the given validation losses: lines
    154 and 155, folded over the run. *)
Definition keep_best (best v : float) : float :=
  if lt v best then v else best.

Definition best_after (vals : list float) : float :=
  foldl keep_best inf vals.

(** A non-NaN float is placed on a line of integer triples; [lt] is the
    lexicographic order there. *)
Definition key (x : float) : Z * Z * Z :=
  match x with
  | S754_nan => (0, 0, 0)%Z
  | S754_zero _ => (0, 0, 0)%Z
  | S754_infinity s => ((if s then -2 else 2)%Z, 0%Z, 0%Z)
  | S754_finite true m e => ((-1)%Z, (- e)%Z, (- Z.pos m)%Z)
  | S754_finite false m e => (1%Z, e, Zpos m)
  end.

Definition lex_lt (a b : Z * Z * Z) : Prop :=
  (a.1.1 < b.1.1 \/
   (a.1.1 = b.1.1 /\ (a.1.2 < b.1.2 \/ (a.1.2 = b.1.2 /\ a.2 < b.2))))%Z.


(** What one pass of a loop body contributes to the statistics: for the
    batch [b], the model's [outputs] and the term added to the running
    loss, which is the batch's mean loss times [inputs.size(0)]. *)
Definition accounted (b : batch) (o : tensor * float) : Prop :=
  exists n c,
    size b.1 0 = inr n /\
    shape o.1 = [length b.2; c] /\
    mul_int (cross_entropy o.1 b.2) (Z.of_nat n) = inr o.2.

(** Samples of a batch whose predicted class is their label, summed over
    the batches; and the samples seen. *)
Definition matches (bs : list batch) (os : list (tensor * float)) : Z :=
  foldr Z.add 0%Z
        (zip_with (fun b o => count_equal (predictions o.1) b.2) bs os).

Definition samples_seen (bs : list batch) : nat :=
  foldr Nat.add 0 (map (fun b => length b.2) bs).

(** The statistics after a loop over [bs], started from [st]: the terms
    added left to right to the running loss, the matches and the samples
    counted. *)
Definition tallied (st : stats) (bs : list batch)
           (os : list (tensor * float)) (st' : stats) : Prop :=
  Forall2 accounted bs os /\
  running_loss st' = foldl add (running_loss st) (snd <$> os) /\
  correct_predictions st' = (correct_predictions st + matches bs os)%Z /\
  total_samples st' = (total_samples st + Z.of_nat (samples_seen bs))%Z.

(** The claim's "batch-size-weighted average": [loss] is the sum, batch
    after batch, of mean loss times batch size, divided by
    [dataset_size]; the batches hold [seen] samples, none is empty or
    larger than 32, and only the last can be short. *)
Definition weighted_loss (seen dataset_size : nat) (loss : float) : Prop :=
  exists batches os,
    Forall2 accounted batches os /\
    samples_seen batches = seen /\
    Forall (fun b => size b.1 0 = inr (length b.2) /\
                     0 < length b.2 <= batch_size) batches /\
    (forall i b, batches !! i = Some b -> S i < length batches ->
                 length b.2 = batch_size) /\
    div_int (fsum (snd <$> os)) (Z.of_nat dataset_size) = inr loss.

(** A loop body that does the bookkeeping of lines 136 to 139. *)
Definition accounts (body : stats -> batch -> M stats) : Prop :=
  forall st b w st' w',
    body st b w = inr (st', w') ->
    exists o,
      accounted b o /\
      st' = Stats (add (running_loss st) o.2)
                  (correct_predictions st
                   + count_equal (predictions o.1) b.2)
                  (total_samples st + Z.of_nat (length b.2)).

(** The feature map a forward pass extracts from the batch [x], and the
    world it leaves: the running statistics move in training mode. *)
Definition feature_map (x : tensor) (w : world) : tensor :=
  effnet_features (param_data w Extractor) (effnet_buffers w) (training w) x.

Definition after_features (x : tensor) (w : world) : world :=
  set_effnet (effnet_model w)
             (if training w
              then bn_update (param_data w Extractor) (effnet_buffers w) x
              else effnet_buffers w)
             w.

(** C1 as the spec words it: in a run of [n] epochs from [w] to [w'],
    an epoch saves exactly when its validation loss is strictly below the
    validation loss of every earlier epoch. *)
Definition saves_iff_below_all_prior (n : nat) (w w' : world) : Prop :=
  exists rs,
    length rs = n /\
    log w' = log w ++ concat (zip_with (epoch_log n) (seq 0 n) rs) /\
    forall i r, rs !! i = Some r ->
      (is_Some (checkpoint r) <->
       forall j r', j < i -> rs !! j = Some r' ->
                    lt (val_loss r) (val_loss r') = true).

(** C8 as the spec words it: a file that holds a snapshot of the head's
    parameters, of the shapes the code constructs, is loaded. *)
Definition head_snapshot (w : world) (sd : gmap string tensor) : Prop :=
  shape <$> sd
  = (fun p => shape (data p))
      <$> filter (fun kv => String.prefix "_fc." kv.1 = true) (effnet_model w).

Definition loads_head_snapshot (w : world) : Prop :=
  forall sd,
    disk w !! "efficientnet_model.pth" = Some sd ->
    head_snapshot w sd ->
    exists w', load_extractor w = inr (tt, w').

(** A computation that relates the world before to the world after. *)
Definition keeps {A} (R : world -> world -> Prop) (m : M A) : Prop :=
  forall w a w', m w = inr (a, w') -> R w w'.

(** No parameter, gradient slot or optimizer slot moved; and from
    evaluation mode, the mode and the running statistics stay. *)
Definition steady (w w' : world) : Prop :=
  effnet_model w' = effnet_model w /\
  lstm_model w' = lstm_model w /\
  adam_state w' = adam_state w /\
  (training w = false ->
   training w' = false /\ effnet_buffers w' = effnet_buffers w).

(** Gradient tracking, once off, is still off. *)
Definition blind (w w' : world) : Prop :=
  grad_enabled w = false -> grad_enabled w' = false.

(** No extractor parameter holds a gradient. *)
Definition no_extractor_grad (w : world) : Prop :=
  forall k p, effnet_model w !! k = Some p -> grad p = None.

(** From a world where no extractor parameter holds a gradient, the
    extractor's parameters come out as they went in. *)
Definition frozen (w w' : world) : Prop :=
  no_extractor_grad w -> effnet_model w' = effnet_model w.

(** Leaves that all belong to the recurrent classifier. *)
Definition recurrent_only (lv : gset pname) : Prop :=
  forall pn, pn ∈ lv -> pn.1 = Recurrent.

(** Nothing printed, nothing written. *)
Definition quiet (w w' : world) : Prop :=
  log w' = log w /\ disk w' = disk w.

(** *** The classifier head the script puts on the extractor *)

(** [nn.ReLU] on one element. *)
Variable relu : float -> float.

(** The index tuples of a shape, in row-major order. *)
Fixpoint indices (sh : list nat) : list (list nat) :=
  match sh with
  | [] => [[]]
  | d :: rest => concat (map (fun i => map (cons i) (indices rest)) (seq 0 d))
  end.

(** The vectors along the last axis of a tensor whose leading axes are
    [lead] and whose last axis has [n] entries. *)
Definition last_axis_rows (t : tensor) (lead : list nat) (n : nat)
  : list (list float) :=
  map (fun idx => map (fun j => default zero (get t (idx ++ [j]))) (seq 0 n))
      (indices lead).

(** An [nn.Linear] held by module [o] under the attribute path [name]:
    [x @ weight.T + bias] along the last axis of [x]. *)
Definition linear (o : owner) (name : string) (x : var) : M var :=
  fun w =>
    let wt := default (zeros [])
                      (param_data w o !! String.append name ".weight") in
    let bs := default (zeros [])
                      (param_data w o !! String.append name ".bias") in
    match reverse (shape (value x)), shape wt with
    | n :: lead_rev, [out; n'] =>
      if bool_decide (n = n') then
        let lead := reverse lead_rev in
        let rows :=
          map (fun r => map (fun j => add32 (dot (row2 wt j) r)
                                            (default zero (get bs [j])))
                            (seq 0 out))
              (last_axis_rows (value x) lead n) in
        inr (Var (new_tensor (lead ++ [out]) (concat rows))
                 (op_leaves w (leaves x) o
                            (String.prefix (String.append name "."))),
             w)
      else inl (RuntimeError "mat1 and mat2 shapes cannot be multiplied")
    | _, _ => inl (RuntimeError "mat1 and mat2 shapes cannot be multiplied")
    end.

(** [self.relu(x)]: element by element, same layout. *)
Definition relu_var (x : var) : M var :=
  fun w =>
    inr (Var (Tensor (shape (value x)) (stride (value x)) (offset (value x))
                     (map relu (storage (value x))))
             (keep_leaves w (leaves x)),
         w).

(** [CustomClassifier.forward], for the instance stored as
    [effnet_model._fc]. *)
Definition CustomClassifier_forward (x : var) : M var :=
  x <- linear Extractor "_fc.fc1" x ;;
  x <- relu_var x ;;
  x <- dropout x ;;
  x <- linear Extractor "_fc.fc2" x ;;
  dropout x.

(** *** More vocabulary *)

(** A computation whose exceptions all satisfy [P]. *)
Definition raises_only {A} (P : exn -> Prop) (m : M A) : Prop :=
  forall w e, m w = inl e -> P e.

(** An exception that is not a division by zero. *)
Definition no_division (e : exn) : Prop := e <> ZeroDivisionError.

(** The parameters the logits of a forward pass depend on: the
    recurrent classifier's [lstm.*] and [fc.*]. *)
Definition classifier_leaves (w : world) : gset pname :=
  set_map (fun k => (Recurrent, k))
          (filter (fun k => String.prefix "lstm." k = true) (dom (lstm_model w)))
  ∪ set_map (fun k => (Recurrent, k))
            (filter (fun k => String.prefix "fc." k = true)
                    (dom (lstm_model w))).

(** The gradient a training iteration on batch [b], started in world
    [w], computes for parameter [pn]. *)
Definition batch_gradient (w : world) (b : batch) (pn : pname) : tensor :=
  gradient pn (param_data w Extractor) (param_data w Recurrent) (rng w)
           b.1 b.2.

(** The disk after the epochs reported in [rs]: every checkpoint
    overwrites [model_best.pth]. *)
Definition save_report (d : gmap string (gmap string tensor))
           (r : epoch_report) : gmap string (gmap string tensor) :=
  match checkpoint r with
  | Some sd => <["model_best.pth" := sd]> d
  | None => d
  end.

(** The last epoch that wrote a checkpoint, if any did. *)
Definition last_saved (rs : list epoch_report) : option epoch_report :=
  foldl (fun acc r => match checkpoint r with
                      | Some _ => Some r
                      | None => acc
                      end) None rs.

(** Two worlds in evaluation mode whose models hold the same tensors;
    the gradient slots, the optimizer, the random generator and the disk
    may differ. *)
Definition same_weights (w1 w2 : world) : Prop :=
  training w1 = false /\ training w2 = false /\
  param_data w1 Extractor = param_data w2 Extractor /\
  effnet_buffers w1 = effnet_buffers w2 /\
  param_data w1 Recurrent = param_data w2 Recurrent /\
  input_size w1 = input_size w2 /\ hidden_size w1 = hidden_size w2.

(** Two runs that raise the same exception, or return results related
    by [R] in worlds that still hold the same tensors. *)
Definition twin {A} (R : A -> A -> Prop) (r1 r2 : result (A * world))
  : Prop :=
  match r1, r2 with
  | inr (a1, w1), inr (a2, w2) => R a1 a2 /\ same_weights w1 w2
  | inl e1, inl e2 => e1 = e2
  | _, _ => False
  end.

(** Two tensors with their graphs that are the same tensor. *)
Definition same_value (v1 v2 : var) : Prop := value v1 = value v2.

(** Gradient tracking is as it was. *)
Definition same_grad_mode (w w' : world) : Prop :=
  grad_enabled w' = grad_enabled w.

(* =================================================================== *)
(** ** Running the monad *)
(* =================================================================== *)

Lemma bind_inr {A B} (m : M A) (k : A -> M B) w b w' :
  bind m k w = inr (b, w') ->
  exists a w1, m w = inr (a, w1) /\ k a w1 = inr (b, w').
Proof.
  unfold bind. destruct (m w) as [e | [a w1]]; [discriminate | eauto].
Qed.

Lemma lift_inr {A} (r : result A) w a w' :
  lift r w = inr (a, w') -> r = inr a /\ w' = w.
Proof. unfold lift. destruct r; intros H; simplify_eq. done. Qed.

Lemma ret_inr {A} (x : A) w a w' : ret x w = inr (a, w') -> a = x /\ w' = w.
Proof. unfold ret. intros H. simplify_eq. done. Qed.

Section Keeps.
Context (R : world -> world -> Prop)
        {R_refl : Reflexive R} {R_trans : Transitive R}.

#[local] Set Default Proof Using "Type R_refl R_trans".

Lemma keeps_ret {A} (x : A) : keeps R (ret x).
Proof. intros w a w' [_ ->]%ret_inr. reflexivity. Qed.

Lemma keeps_lift {A} (r : result A) : keeps R (lift r).
Proof. intros w a w' [_ ->]%lift_inr. reflexivity. Qed.

Lemma keeps_raise {A} e : keeps R (@raise A e).
Proof. intros w a w' H. discriminate. Qed.

Lemma keeps_get_world : keeps R get_world.
Proof. intros w a w' H. unfold get_world in H. simplify_eq. reflexivity. Qed.

Lemma keeps_bind {A B} (m : M A) (k : A -> M B) :
  keeps R m -> (forall a, keeps R (k a)) -> keeps R (bind m k).
Proof.
  intros Hm Hk w b w' (a & w1 & H1 & H2)%bind_inr.
  transitivity w1; [eapply Hm | eapply Hk]; eassumption.
Qed.

Lemma keeps_for_each {A S} (body : S -> A -> M S) xs :
  (forall s x, keeps R (body s x)) -> forall s, keeps R (for_each body s xs).
Proof.
  intros Hb. induction xs as [| x xs IH]; intros s; simpl.
  - apply keeps_ret.
  - apply keeps_bind; [apply Hb | intros s'; apply IH].
Qed.

Lemma keeps_no_grad {A} (m : M A) :
  (forall b w, R w (set_grad_enabled b w)) -> keeps R m -> keeps R (no_grad m).
Proof.
  intros Hg Hm w a w' H. unfold no_grad in H.
  destruct (m (set_grad_enabled false w)) as [e | [a1 w1]] eqn:E;
    simplify_eq.
  transitivity (set_grad_enabled false w); [apply Hg |].
  transitivity w1; [eapply Hm; eassumption | apply Hg].
Qed.
End Keeps.


(* =================================================================== *)
(** ** What stays quiet *)
(* =================================================================== *)

#[local] Instance quiet_refl : Reflexive quiet.
Proof. intros w. split; reflexivity. Qed.

#[local] Instance quiet_trans : Transitive quiet.
Proof. intros a b c [? ?] [? ?]. split; congruence. Qed.

(** A primitive is a [fun w => ...]: unfold it, split its cases, and the
    fields in question are untouched. *)
Ltac prim_keeps :=
  let w := fresh "w" in let a := fresh "a" in let w' := fresh "w'" in
  let H := fresh "H" in
  intros w a w' H; repeat case_match; simplify_eq; simpl; try done.

Lemma quiet_model_mode b : keeps quiet (model_mode b).
Proof. unfold keeps, quiet, model_mode. prim_keeps. Qed.

Lemma quiet_DataLoader ds sh : keeps quiet (DataLoader ds sh).
Proof. unfold keeps, quiet, DataLoader. prim_keeps. Qed.

Lemma quiet_dropout x : keeps quiet (dropout x).
Proof. unfold keeps, quiet, dropout. prim_keeps. Qed.

Lemma quiet_extract_features x : keeps quiet (extract_features x).
Proof. unfold keeps, quiet, extract_features. prim_keeps. Qed.

Lemma quiet_nn_LSTM x h0 c0 : keeps quiet (nn_LSTM x h0 c0).
Proof. unfold keeps, quiet, nn_LSTM. prim_keeps. Qed.

Lemma quiet_fc x : keeps quiet (fc x).
Proof. unfold keeps, quiet, fc. prim_keeps. Qed.

Lemma quiet_select_last_var x : keeps quiet (select_last_var x).
Proof. unfold keeps, quiet, select_last_var. prim_keeps. Qed.

Lemma quiet_permute_var x d : keeps quiet (permute_var x d).
Proof. unfold keeps, quiet, permute_var. prim_keeps. Qed.

Lemma quiet_view_var x s : keeps quiet (view_var x s).
Proof. unfold keeps, quiet, view_var. prim_keeps. Qed.

Lemma quiet_criterion o l : keeps quiet (criterion o l).
Proof. unfold keeps, quiet, criterion. prim_keeps. Qed.

Lemma quiet_backward lv g : keeps quiet (backward lv g).
Proof. unfold keeps, quiet, backward. prim_keeps. Qed.

Lemma quiet_zero_grad : keeps quiet zero_grad.
Proof. unfold keeps, quiet, zero_grad. prim_keeps. Qed.

Lemma quiet_optimizer_step : keeps quiet optimizer_step.
Proof. unfold keeps, quiet, optimizer_step. prim_keeps. Qed.

Lemma quiet_hidden : keeps quiet (fun w => inr (hidden_size w, w)).
Proof. unfold keeps, quiet. prim_keeps. Qed.

Lemma quiet_set_grad b w : quiet w (set_grad_enabled b w).
Proof. split; reflexivity. Qed.

Create HintDb quiet_db.
#[local] Hint Resolve quiet_model_mode quiet_DataLoader quiet_dropout
  quiet_extract_features quiet_nn_LSTM quiet_fc quiet_select_last_var
  quiet_permute_var quiet_view_var quiet_criterion quiet_backward
  quiet_zero_grad quiet_optimizer_step quiet_hidden quiet_set_grad
  : quiet_db.

(** Composite computations: walk the binds. *)
Ltac walk db :=
  repeat first
    [ solve [eauto with db]
    | apply keeps_ret; [typeclasses eauto ..]
    | apply keeps_lift; [typeclasses eauto ..]
    | apply keeps_get_world; [typeclasses eauto ..]
    | apply keeps_raise
    | apply keeps_no_grad; [typeclasses eauto .. | solve [eauto with db] | ]
    | apply keeps_for_each; [typeclasses eauto .. | intros ? ? ]
    | apply keeps_bind; [typeclasses eauto .. | | intros ? ] ].

Lemma quiet_LSTMModel_forward x : keeps quiet (LSTMModel_forward x).
Proof. unfold LSTMModel_forward. walk quiet_db. Qed.

Lemma quiet_CombinedModel_forward x : keeps quiet (CombinedModel_forward x).
Proof.
  unfold CombinedModel_forward. walk quiet_db.
Qed.

Lemma quiet_update_stats st l i o ls : keeps quiet (update_stats st l i o ls).
Proof. unfold update_stats. walk quiet_db. Qed.

Lemma quiet_train_step st b : keeps quiet (train_step st b).
Proof.
  destruct b as [inputs labels]. unfold train_step. walk quiet_db.
Qed.

Lemma quiet_validate_step st b : keeps quiet (validate_step st b).
Proof.
  destruct b as [inputs labels]. unfold validate_step. walk quiet_db.
Qed.

#[local] Hint Resolve quiet_CombinedModel_forward quiet_update_stats
  quiet_train_step quiet_validate_step : quiet_db.

Lemma quiet_validate ds : keeps quiet (validate ds).
Proof.
  unfold validate. walk quiet_db.
Qed.


(* =================================================================== *)
(** ** The order on floats *)
(* =================================================================== *)

Lemma lt_key x y :
  lt x y = true <->
  is_nan x = false /\ is_nan y = false /\ lex_lt (key x) (key y).
Proof.
  unfold lt, SFltb, lex_lt.
  destruct x as [sx | sx | | sx mx ex], y as [sy | sy | | sy my ey];
    try destruct sx; try destruct sy; cbn [SFcompare key is_nan fst snd];
    try (split; [discriminate | intros (? & ? & ?); (discriminate || lia)]);
    try (split; [intros _; repeat split; lia | done]).
  all: change (Pos.compare_cont Eq mx my) with (mx ?= my)%positive.
  all: destruct (Z.compare_spec ex ey); destruct (Pos.compare_spec mx my);
    cbn [CompOpp];
    (split; [ try discriminate; intros _; repeat split; lia
            | intros (_ & _ & ?); try reflexivity; exfalso; lia ]).
Qed.

Lemma lt_nan_l y : lt nan y = false.
Proof. reflexivity. Qed.

Lemma lt_nan_r x : lt x nan = false.
Proof. destruct x as [| | |[] ? ?]; reflexivity. Qed.

Lemma lt_is_nan x y : is_nan x = true -> lt x y = false.
Proof. destruct x; try discriminate. reflexivity. Qed.

Lemma lt_not_nan x y : lt x y = true -> is_nan x = false /\ is_nan y = false.
Proof. intros H. apply lt_key in H. destruct H as (? & ? & _). by split. Qed.

Lemma lt_trans x y z : lt x y = true -> lt y z = true -> lt x z = true.
Proof.
  rewrite !lt_key. unfold lex_lt.
  intros (? & ? & ?) (? & ? & ?). repeat split; try done. lia.
Qed.

(** Among non-NaN floats the order is total: [y] not below [b] puts
    everything below [b] below [y]. *)
Lemma lt_le_trans x b y :
  lt x b = true -> lt y b = false -> is_nan y = false -> lt x y = true.
Proof.
  intros H1 H2 Hy.
  assert (~ lt y b = true) as H2' by (rewrite H2; discriminate).
  rewrite lt_key in H1, H2'. rewrite lt_key. unfold lex_lt in *.
  destruct H1 as (? & ? & ?). repeat split; try done.
  destruct (decide (lex_lt (key x) (key y))) as [|Hn]; [done |].
  exfalso. apply H2'. repeat split; try done. unfold lex_lt in *. lia.
Qed.

(** *** The running minimum *)

Lemma below_keep_best v best u :
  is_nan best = false ->
  lt v (keep_best best u) = true <->
  lt v best = true /\ (is_nan u = false -> lt v u = true).
Proof.
  intros Hb. unfold keep_best. destruct (lt u best) eqn:E.
  - split.
    + intros H. split; [eapply lt_trans; eassumption | done].
    + intros [_ H]. apply H. by apply lt_not_nan in E as [? _].
  - split.
    + intros H. split; [done | intros Hu]. eapply lt_le_trans; eassumption.
    + by intros [H _].
Qed.

Lemma keep_best_not_nan best u :
  is_nan best = false -> is_nan (keep_best best u) = false.
Proof.
  intros Hb. unfold keep_best. destruct (lt u best) eqn:E; [| done].
  by apply lt_not_nan in E as [? _].
Qed.

Lemma below_foldl_keep_best v vals : forall best,
  is_nan best = false ->
  lt v (foldl keep_best best vals) = true <->
  lt v best = true /\
  forall u, u ∈ vals -> is_nan u = false -> lt v u = true.
Proof.
  induction vals as [| u vals IH]; intros best Hb; simpl.
  - split; [intros H; split; [done | intros u Hu; inversion Hu] |].
    by intros [H _].
  - rewrite IH by (by apply keep_best_not_nan).
    rewrite below_keep_best by done. split.
    + intros [[H1 H2] H3]. split; [done |].
      intros u' [-> | Hin]%elem_of_cons; auto.
    + intros [H1 H2]. repeat split; [done | |].
      * apply H2. left.
      * intros u' Hin. apply H2. by right.
Qed.

Lemma below_best_after v vals :
  lt v (best_after vals) = true <->
  lt v inf = true /\
  forall u, u ∈ vals -> is_nan u = false -> lt v u = true.
Proof. by apply (below_foldl_keep_best v vals inf). Qed.


(* =================================================================== *)
(** ** Batches and bookkeeping *)
(* =================================================================== *)

Lemma chunks_fuel_concat {A} n : 0 < n -> forall fuel (l : list A),
  length l <= fuel -> concat (chunks_fuel fuel n l) = l.
Proof.
  intros Hn. induction fuel as [| fuel IH]; intros l Hl.
  - destruct l; [done | simpl in Hl; lia].
  - destruct l as [| x l]; [done |].
    change (take n (x :: l) ++ concat (chunks_fuel fuel n (drop n (x :: l)))
            = x :: l).
    rewrite IH; [apply take_drop |].
    rewrite length_drop. simpl in *. lia.
Qed.

Lemma chunks_fuel_sizes {A} n : 0 < n -> forall fuel (l : list A),
  length l <= fuel ->
  Forall (fun c => 0 < length c <= n) (chunks_fuel fuel n l).
Proof.
  intros Hn. induction fuel as [| fuel IH]; intros l Hl.
  - constructor.
  - destruct l as [| x l]; [constructor |].
    change (Forall (fun c => 0 < length c <= n)
              (take n (x :: l) :: chunks_fuel fuel n (drop n (x :: l)))).
    constructor.
    + rewrite length_take. simpl. lia.
    + apply IH. rewrite length_drop. simpl in *. lia.
Qed.

(** Only the last batch can be short. *)
Lemma chunks_fuel_full {A} n : 0 < n -> forall fuel (l : list A) i c,
  length l <= fuel ->
  chunks_fuel fuel n l !! i = Some c ->
  S i < length (chunks_fuel fuel n l) -> length c = n.
Proof.
  intros Hn. induction fuel as [| fuel IH]; intros l i c Hl Hc Hi.
  - done.
  - destruct l as [| x l]; [done |].
    change (chunks_fuel (S fuel) n (x :: l)) with
      (take n (x :: l) :: chunks_fuel fuel n (drop n (x :: l))) in *.
    destruct i as [| i]; simpl in Hc, Hi.
    + injection Hc as <-. rewrite length_take.
      destruct (decide (n <= length (x :: l))) as [| Hshort]; [lia |].
      rewrite drop_ge in Hi by lia.
      destruct fuel; simpl in Hi; lia.
    + eapply IH; [| exact Hc | lia].
      rewrite length_drop. simpl in *. lia.
Qed.

Lemma collate_size ss : size (collate ss).1 0 = inr (length (collate ss).2).
Proof. unfold collate, size, new_tensor. simpl. by rewrite length_map. Qed.

Lemma samples_seen_collate (cs : list (list sample)) :
  samples_seen (map collate cs) = length (concat cs).
Proof.
  unfold samples_seen. induction cs as [| c cs IH]; [done |].
  simpl. rewrite length_app, length_map. simpl in IH. by rewrite IH.
Qed.

Lemma mapM_lookup_seq {A} (l : list A) :
  mapM (fun i => l !! i) (seq 0 (length l)) = Some l.
Proof.
  apply mapM_Some. apply Forall2_same_length_lookup_2.
  - by rewrite length_seq.
  - intros i j x Hj Hx. apply lookup_seq in Hj as [-> _]. done.
Qed.

(** What [DataLoader] hands out: the samples in the sampler's order, cut
    into batches of at most 32, every one full except maybe the last. *)
Lemma DataLoader_batches ds sh w batches w' :
  DataLoader ds sh w = inr (batches, w') ->
  exists order ss,
    order = (if sh then (randperm (rng w) (length ds)).1
             else seq 0 (length ds)) /\
    length ss = length order /\
    (sh = false -> ss = ds) /\
    samples_seen batches = length ss /\
    Forall (fun b => size b.1 0 = inr (length b.2) /\
                     0 < length b.2 <= batch_size) batches /\
    forall i b, batches !! i = Some b -> S i < length batches ->
                length b.2 = batch_size.
Proof.
  unfold DataLoader. intros H.
  destruct (if sh then randperm (rng w) (length ds)
            else (seq 0 (length ds), rng w)) as [order g] eqn:E.
  destruct (mapM (fun i => ds !! i) order) as [ss |] eqn:Hss; [| done].
  injection H as <- <-.
  assert (0 < batch_size) as Hpos by (unfold batch_size; lia).
  exists order, ss. split; [by destruct sh; [rewrite E | injection E as <- _] |].
  split; [by apply length_mapM in Hss |].
  split.
  { intros ->. injection E as <- _.
    rewrite mapM_lookup_seq in Hss. by injection Hss. }
  split.
  { rewrite samples_seen_collate. unfold chunks.
    by rewrite chunks_fuel_concat. }
  split.
  - apply Forall_fmap.
    eapply Forall_impl; [apply (chunks_fuel_sizes batch_size Hpos); done |].
    intros c Hc. split; [apply collate_size |].
    unfold collate; simpl. by rewrite length_map.
  - intros i b Hb Hi. rewrite list_lookup_fmap in Hb.
    destruct (chunks batch_size ss !! i) as [c |] eqn:Hc; [| done].
    injection Hb as <-. rewrite length_map in Hi.
    unfold collate; simpl. rewrite length_map.
    eapply (chunks_fuel_full batch_size Hpos); [| exact Hc | exact Hi]. done.
Qed.

Lemma update_stats_inr st l inputs outputs labels w st' w' :
  update_stats st l inputs outputs labels w = inr (st', w') ->
  w' = w /\
  exists n t,
    size inputs 0 = inr n /\ mul_int l (Z.of_nat n) = inr t /\
    st' = Stats (add (running_loss st) t)
                (correct_predictions st
                 + count_equal (predictions outputs) labels)
                (total_samples st + Z.of_nat (length labels)).
Proof.
  unfold update_stats. intros H.
  apply bind_inr in H as (n & w1 & H1 & H).
  apply lift_inr in H1 as [H1 ->].
  apply bind_inr in H as (t & w2 & H2 & H).
  apply lift_inr in H2 as [H2 ->].
  apply ret_inr in H as [-> ->].
  split; [done |]. exists n, t. by repeat split.
Qed.

Lemma criterion_inr outputs labels w l lv w' :
  criterion outputs labels w = inr ((l, lv), w') ->
  w' = w /\ l = cross_entropy (value outputs) labels /\
  lv = keep_leaves w (leaves outputs) /\
  exists c, shape (value outputs) = [length labels; c].
Proof.
  unfold criterion. intros H.
  destruct (shape (value outputs)) as [| b [| c [| ? ?]]]; try done.
  case_bool_decide; [| done]. subst b.
  destruct (forallb _ labels); [| done].
  injection H as <- <- <-.
  split; [done |]. split; [done |]. split; [done |]. by exists c.
Qed.


Lemma validate_step_accounts : accounts validate_step.
Proof.
  intros st [inputs labels] w st' w' H. unfold validate_step in H.
  apply bind_inr in H as (outputs & w1 & _ & H).
  apply bind_inr in H as ([l lv] & w2 & Hc & H).
  apply criterion_inr in Hc as (-> & -> & _ & c & Hshape).
  apply update_stats_inr in H as (_ & n & t & Hn & Ht & ->).
  exists (value outputs, t). split; [| done].
  exists n, c. done.
Qed.

Lemma train_step_accounts : accounts train_step.
Proof.
  intros st [inputs labels] w st' w' H. unfold train_step in H.
  apply bind_inr in H as (? & w0 & _ & H).
  apply bind_inr in H as (? & w0' & _ & H).
  apply bind_inr in H as (outputs & w1 & _ & H).
  apply bind_inr in H as ([l lv] & w2 & Hc & H).
  apply criterion_inr in Hc as (-> & -> & _ & c & Hshape).
  apply bind_inr in H as (? & w3 & _ & H).
  apply bind_inr in H as (? & w4 & _ & H).
  apply update_stats_inr in H as (_ & n & t & Hn & Ht & ->).
  exists (value outputs, t). split; [| done].
  exists n, c. done.
Qed.

Lemma for_each_tallied body bs :
  accounts body -> forall st w st' w',
  for_each body st bs w = inr (st', w') -> exists os, tallied st bs os st'.
Proof.
  intros Hb. induction bs as [| b bs IH]; intros st w st' w' H; simpl in H.
  - apply ret_inr in H as [-> ->]. exists []. unfold tallied, matches,
      samples_seen. simpl. repeat split; [constructor | lia | lia].
  - apply bind_inr in H as (st1 & w1 & H1 & H).
    apply Hb in H1 as (o & Ho & ->).
    apply IH in H as (os & HF & Hl & Hc & Ht). simpl in *.
    exists (o :: os). unfold tallied, matches, samples_seen in *. simpl.
    repeat split; [by constructor | done | lia | lia].
Qed.


(* =================================================================== *)
(** ** Rounding a ratio of two counts *)
(* =================================================================== *)

Section Rounding.
Local Open Scope Z_scope.

Lemma digits2_pos_bounds p :
  2 ^ (Z.pos (digits2_pos p) - 1) <= Z.pos p < 2 ^ Z.pos (digits2_pos p).
Proof.
  induction p as [p IH | p IH |]; simpl digits2_pos.
  - rewrite Pos2Z.inj_succ.
    replace (Z.succ (Z.pos (digits2_pos p)) - 1) with (Z.succ (Z.pos (digits2_pos p) - 1)) by lia.
    rewrite !Z.pow_succ_r by lia. lia.
  - rewrite Pos2Z.inj_succ.
    replace (Z.succ (Z.pos (digits2_pos p)) - 1) with (Z.succ (Z.pos (digits2_pos p) - 1)) by lia.
    rewrite !Z.pow_succ_r by lia. lia.
  - simpl. lia.
Qed.

Lemma Zdigits2_nonneg m : 0 <= Zdigits2 m.
Proof. destruct m; simpl; lia. Qed.

(** Fewer than [2 ^ j] means at most [j] binary digits. *)
Lemma Zdigits2_lt_pow m j : 0 <= m -> 0 <= j -> m < 2 ^ j -> Zdigits2 m <= j.
Proof.
  intros Hm Hj H. destruct m as [| p | p]; simpl; [lia | | lia].
  pose proof (digits2_pos_bounds p) as [Hlo _].
  destruct (Z_lt_le_dec j (Z.pos (digits2_pos p))) as [Hlt |]; [| lia].
  exfalso. assert (2 ^ j <= 2 ^ (Z.pos (digits2_pos p) - 1)).
  { apply Z.pow_le_mono_r; lia. }
  lia.
Qed.

Lemma Zdigits2_le_pow m j : 0 <= m -> 0 <= j -> m <= 2 ^ j -> Zdigits2 m <= j + 1.
Proof.
  intros Hm Hj H. apply Zdigits2_lt_pow; [lia | lia |].
  rewrite Z.pow_add_r by lia. simpl. lia.
Qed.

Lemma shr_1_m mrs : 0 <= shr_m mrs -> shr_m (shr_1 mrs) = shr_m mrs / 2.
Proof.
  destruct mrs as [m r s]. simpl. intros Hm.
  destruct m as [| [p | p |] | p]; simpl; try lia; try reflexivity.
  - apply (Z.div_unique _ _ _ 1); lia.
  - apply (Z.div_unique _ _ _ 0); lia.
Qed.

Lemma iter_shr_1_m p : forall mrs,
  0 <= shr_m mrs ->
  shr_m (@SpecFloat.iter_pos shr_record shr_1 p mrs) = shr_m mrs / 2 ^ Z.pos p.
Proof.
  induction p as [p IH | p IH |]; intros mrs Hm; simpl SpecFloat.iter_pos.
  - assert (0 <= shr_m (shr_1 mrs)) as H1.
    { rewrite shr_1_m by done. apply Z.div_pos; lia. }
    assert (0 <= shr_m (@SpecFloat.iter_pos shr_record shr_1 p (shr_1 mrs))) as H2.
    { rewrite IH by done. apply Z.div_pos; lia. }
    rewrite IH, IH, shr_1_m by done.
    rewrite !Z.div_div by lia. f_equal.
    replace (Z.pos p~1) with (1 + (Z.pos p + Z.pos p)) by lia.
    rewrite !Z.pow_add_r by lia. change (2 ^ 1) with 2. ring.
  - assert (0 <= shr_m (@SpecFloat.iter_pos shr_record shr_1 p mrs)) as H2.
    { rewrite IH by done. apply Z.div_pos; lia. }
    rewrite IH, IH by done.
    rewrite !Z.div_div by lia. f_equal.
    replace (Z.pos p~0) with (Z.pos p + Z.pos p) by lia.
    rewrite !Z.pow_add_r by lia. ring.
  - rewrite shr_1_m by done. done.
Qed.

(** Shifting a power of two by no more than its exponent loses nothing. *)
Lemma shr_1_pow2 k :
  1 <= k ->
  shr_1 (Build_shr_record (2 ^ k) false false) =
  Build_shr_record (2 ^ (k - 1)) false false.
Proof.
  intros Hk. replace k with (Z.succ (k - 1)) at 1 by lia.
  rewrite Z.pow_succ_r by lia.
  assert (0 < 2 ^ (k - 1)) as Hp by (apply Z.pow_pos_nonneg; lia).
  destruct (2 ^ (k - 1)) as [| q | q]; [lia | | lia]. reflexivity.
Qed.

Lemma iter_shr_1_pow2 p : forall k,
  Z.pos p <= k ->
  @SpecFloat.iter_pos shr_record shr_1 p (Build_shr_record (2 ^ k) false false) =
  Build_shr_record (2 ^ (k - Z.pos p)) false false.
Proof.
  induction p as [p IH | p IH |]; intros k Hk; cbn [SpecFloat.iter_pos].
  - rewrite shr_1_pow2 by lia. rewrite IH by lia. rewrite IH by lia.
    do 2 f_equal. lia.
  - rewrite IH by lia. rewrite IH by lia. do 2 f_equal. lia.
  - rewrite shr_1_pow2 by lia. done.
Qed.

Lemma Zdigits2_pow2 k : 0 <= k -> Zdigits2 (2 ^ k) = k + 1.
Proof.
  intros Hk. assert (0 < 2 ^ k) as Hp by (apply Z.pow_pos_nonneg; lia).
  destruct (2 ^ k) as [| p | p] eqn:E; [lia | | lia]. simpl.
  pose proof (digits2_pos_bounds p) as [Hlo Hhi]. rewrite <- E in Hlo, Hhi.
  apply Z.pow_le_mono_r_iff in Hlo; [| lia | lia].
  apply Z.pow_lt_mono_r_iff in Hhi; [| lia | lia]. lia.
Qed.

Lemma fexp_le_of_digits d k :
  -1022 <= k -> d <= k + 1 -> fexp prec emax d <= k - 52.
Proof. unfold fexp, emin, prec, emax. lia. Qed.

Lemma shr_fexp_m m e l :
  0 <= m ->
  exists mrs,
    shr_fexp prec emax m e l =
    (mrs, Z.max e (fexp prec emax (Zdigits2 m + e))) /\
    shr_m mrs = m / 2 ^ (Z.max e (fexp prec emax (Zdigits2 m + e)) - e).
Proof.
  intros Hm. unfold shr_fexp, shr.
  set (f := fexp prec emax (Zdigits2 m + e)).
  assert (shr_m (shr_record_of_loc m l) = m) as Hrec
      by (destruct l as [| []]; reflexivity).
  destruct (f - e) as [| p | p] eqn:E.
  - eexists. split; [f_equal; lia |].
    rewrite Hrec. replace (Z.max e f - e) with 0 by lia.
    by rewrite Z.pow_0_r, Z.div_1_r.
  - eexists. split; [f_equal; lia |].
    rewrite iter_shr_1_m by lia. rewrite Hrec. do 2 f_equal. lia.
  - eexists. split; [f_equal; lia |].
    rewrite Hrec. replace (Z.max e f - e) with 0 by lia.
    by rewrite Z.pow_0_r, Z.div_1_r.
Qed.

Lemma round_nearest_even_bounds m l :
  m <= round_nearest_even m l <= m + 1.
Proof.
  unfold round_nearest_even. destruct l as [| []]; try lia.
  destruct (Z.even m); lia.
Qed.

(** A power of two with nothing behind it goes through the first shift
    unharmed. *)
Lemma shr_fexp_pow2 j e :
  52 <= j -> -1022 <= j + e ->
  shr_fexp prec emax (2 ^ j) e loc_Exact =
  (Build_shr_record (2 ^ 52) false false, j + e - 52).
Proof.
  intros Hj Hk. unfold shr_fexp, shr. rewrite Zdigits2_pow2 by lia.
  replace (fexp prec emax (j + 1 + e) - e) with (j - 52)
    by (unfold fexp, emin, prec, emax; lia).
  simpl shr_record_of_loc.
  destruct (j - 52) as [| p | p] eqn:E; [| | lia].
  - replace j with 52 by lia. f_equal. lia.
  - rewrite iter_shr_1_pow2 by lia. f_equal; [| lia].
    do 2 f_equal. lia.
Qed.

Lemma div_pow2_le m a b :
  0 <= a -> 0 <= b -> m <= 2 ^ (a + b) -> m / 2 ^ a <= 2 ^ b.
Proof.
  intros Ha Hb H. assert (0 < 2 ^ a) by (apply Z.pow_pos_nonneg; lia).
  apply Z.div_le_upper_bound; [lia |]. by rewrite <- Z.pow_add_r by lia.
Qed.

Lemma div_pow2_lt m a b :
  0 <= a -> 0 <= b -> m < 2 ^ (a + b) -> m / 2 ^ a < 2 ^ b.
Proof.
  intros Ha Hb H. assert (0 < 2 ^ a) by (apply Z.pow_pos_nonneg; lia).
  apply Z.div_lt_upper_bound; [lia |]. by rewrite <- Z.pow_add_r by lia.
Qed.

(** Rounding a non-negative value that does not exceed [2 ^ k] gives zero
    or a positive double that does not exceed [2 ^ k]. *)
Lemma binary_round_aux_le m e l k :
  0 <= m -> -1022 <= k <= 1023 -> e <= k - 52 ->
  (m < 2 ^ (k - e) \/ (m = 2 ^ (k - e) /\ l = loc_Exact)) ->
  binary_round_aux prec emax false m e l = S754_zero false \/
  exists m' e',
    binary_round_aux prec emax false m e l = S754_finite false m' e' /\
    e' <= k - 52 /\ Z.pos m' <= 2 ^ (k - e').
Proof.
  intros Hm Hk He Hcase. unfold binary_round_aux.
  assert (exists mrs1 e1,
             shr_fexp prec emax m e l = (mrs1, e1) /\ e1 <= k - 52 /\
             0 <= round_nearest_even (shr_m mrs1) (loc_of_shr_record mrs1)
               <= 2 ^ (k - e1)) as (mrs1 & e1 & -> & He1 & Hm2).
  { destruct Hcase as [Hlt | [-> ->]].
    - destruct (shr_fexp_m m e l Hm) as (mrs1 & E1 & M1).
      eexists _, _. split; [exact E1 |].
      set (e1 := Z.max e (fexp prec emax (Zdigits2 m + e))) in *.
      assert (Zdigits2 m <= k - e) by (apply Zdigits2_lt_pow; lia).
      assert (fexp prec emax (Zdigits2 m + e) <= k - 52)
        by (apply fexp_le_of_digits; lia).
      assert (e1 <= k - 52) by (unfold e1; lia).
      split; [done |].
      assert (0 <= shr_m mrs1 < 2 ^ (k - e1)) as [? ?].
      { rewrite M1. split; [apply Z.div_pos; lia |].
        apply div_pow2_lt; [unfold e1; lia | lia |].
        replace (e1 - e + (k - e1)) with (k - e) by lia. done. }
      pose proof (round_nearest_even_bounds (shr_m mrs1)
                    (loc_of_shr_record mrs1)). lia.
    - rewrite shr_fexp_pow2 by lia.
      eexists _, _. split; [reflexivity |]. simpl.
      replace (k - (k - e + e - 52)) with 52 by lia. lia. }
  set (m2 := round_nearest_even (shr_m mrs1) (loc_of_shr_record mrs1)) in *.
  destruct (shr_fexp_m m2 e1 loc_Exact) as (mrs2 & -> & M2); [lia |].
  set (e3 := Z.max e1 (fexp prec emax (Zdigits2 m2 + e1))) in *.
  assert (Zdigits2 m2 <= k - e1 + 1) by (apply Zdigits2_le_pow; lia).
  assert (fexp prec emax (Zdigits2 m2 + e1) <= k - 52)
    by (apply fexp_le_of_digits; lia).
  assert (e3 <= k - 52) as He3 by (unfold e3; lia).
  assert (0 <= shr_m mrs2 <= 2 ^ (k - e3)) as [Hlo Hhi].
  { rewrite M2. split; [apply Z.div_pos; lia |].
    apply div_pow2_le; [unfold e3; lia | lia |].
    replace (e3 - e1 + (k - e3)) with (k - e1) by lia. lia. }
  destruct (shr_m mrs2) as [| m3 | m3]; [by left | | lia].
  right. exists m3, e3.
  replace (e3 <=? emax - prec) with true
    by (symmetry; apply Z.leb_le; unfold emax, prec; lia).
  done.
Qed.

Lemma new_location_0 n : new_location n 0 = loc_Exact.
Proof.
  unfold new_location, new_location_even, new_location_odd.
  by destruct (Z.even n).
Qed.

(** The quotient the division hands to the rounding: a mantissa and an
    exponent that stand for at most 1. *)
Lemma SFdiv_core_unit c t :
  0 < c <= t ->
  exists m e l,
    SFdiv_core_binary prec emax c 0 t 0 = (m, e, l) /\
    0 <= m /\ e <= 0 - 52 /\
    (m < 2 ^ (0 - e) \/ (m = 2 ^ (0 - e) /\ l = loc_Exact)).
Proof.
  intros [Hc Hct]. unfold SFdiv_core_binary.
  assert (Zdigits2 c <= Zdigits2 t) as Hd.
  { destruct c as [| pc | pc], t as [| pt | pt]; try lia. simpl.
    pose proof (digits2_pos_bounds pc) as [Hlo _].
    pose proof (digits2_pos_bounds pt) as [_ Hhi].
    destruct (Z_lt_le_dec (Z.pos (digits2_pos pt)) (Z.pos (digits2_pos pc)))
      as [Hlt |]; [| done].
    exfalso.
    assert (2 ^ Z.pos (digits2_pos pt) <= 2 ^ (Z.pos (digits2_pos pc) - 1))
      by (apply Z.pow_le_mono_r; lia).
    lia. }
  set (e' := Z.min (fexp prec emax (Zdigits2 c + 0 - (Zdigits2 t + 0))) (0 - 0)).
  assert (-1074 <= e' <= -53) as He'
      by (unfold e', fexp, emin, prec, emax; lia).
  destruct (0 - 0 - e') as [| s | s] eqn:Es; [lia | | lia].
  rewrite Z.shiftl_mul_pow2 by lia.
  assert (0 < 2 ^ Z.pos s) as Hpow by (apply Z.pow_pos_nonneg; lia).
  pose proof (Z_div_mod (c * 2 ^ Z.pos s) t ltac:(lia)) as Hdm.
  destruct (Z.div_eucl (c * 2 ^ Z.pos s) t) as [q r].
  destruct Hdm as [Heq Hr].
  eexists _, _, _. split; [reflexivity |].
  replace (0 - e') with (Z.pos s) by lia.
  split; [nia |]. split; [lia |].
  destruct (Z.eq_dec c t) as [-> | Hne].
  - right. assert (q = 2 ^ Z.pos s) as -> by nia.
    split; [done |]. replace r with 0 by nia. apply new_location_0.
  - left. nia.
Qed.

(** [c / t] for counts [0 <= c <= t], [t] positive: a float between 0.0 and
    1.0. *)
Lemma int_truediv_unit c t :
  0 <= c <= t -> 0 < t ->
  exists x, int_truediv c t = inr x /\ le zero x = true /\ le x one = true.
Proof.
  intros [Hc Hct] Ht. unfold int_truediv.
  destruct t as [| pt | pt]; [lia | | lia].
  destruct c as [| pc | pc]; [by eexists | | lia].
  destruct (SFdiv_core_unit (Z.pos pc) (Z.pos pt)) as (m & e & l & E & Hm & He & Hcase);
    [lia |].
  change (Z.abs (Z.pos pc)) with (Z.pos pc).
  change (Z.abs (Z.pos pt)) with (Z.pos pt). rewrite E.
  change (xorb (Z.pos pc <? 0) (Z.pos pt <? 0)) with false.
  destruct (binary_round_aux_le m e l 0 Hm ltac:(lia) He Hcase)
    as [-> | (m' & e' & -> & He' & Hm')].
  - by eexists.
  - eexists. split; [reflexivity |]. split; [done |].
    assert (e' < -52 \/ (e' = -52 /\ Z.pos m' <= Z.pos 4503599627370496))
      as Hle.
    { destruct (Z_lt_le_dec e' (-52)) as [| Hge]; [by left | right].
      assert (e' = -52) as -> by lia. done. }
    clear He' Hm'.
    unfold le, SFleb, one. generalize dependent 4503599627370496%positive.
    intros h Hle. cbn [SFcompare].
    destruct Hle as [Hlt | [-> Hm']].
    + apply Z.compare_lt_iff in Hlt. by rewrite Hlt.
    + rewrite Z.compare_refl.
      change (Pos.compare_cont Eq m' h) with (m' ?= h)%positive.
      destruct (Pos.compare_spec m' h); [done | done | lia].
Qed.

Lemma iter_xO m d : Z.pos (Pos.iter xO m d) = Z.pos m * 2 ^ Z.pos d.
Proof.
  revert m. induction d as [| d IH] using Pos.peano_ind; intros m.
  - simpl. lia.
  - rewrite Pos.iter_succ, Pos2Z.inj_xO, IH, Pos2Z.inj_succ.
    rewrite Z.pow_succ_r by lia. ring.
Qed.

(** Converting a count to a float never overflows. *)
Lemma float_of_int_small n :
  0 <= n < 2 ^ 1023 -> exists y, float_of_int n = inr y.
Proof.
  intros [Hn Hlt]. unfold float_of_int, binary_normalize.
  destruct n as [| p | p]; [by eexists | | lia].
  unfold binary_round, shl_align.
  set (f := fexp prec emax (Z.pos (digits2_pos p) + 0)).
  assert (exists mz ez,
             (match f - 0 with
              | Z.neg d => (Pos.iter xO p d, f)
              | _ => (p, 0)
              end) = (mz, ez) /\
             ez <= 1023 - 52 /\ Z.pos mz < 2 ^ (1023 - ez))
    as (mz & ez & -> & He & Hm).
  { assert (Zdigits2 (Z.pos p) <= 1023) as Hd
        by (apply Zdigits2_lt_pow; lia). simpl in Hd.
    assert (f <= 1023 - 52)
      by (unfold f; apply fexp_le_of_digits; lia).
    destruct (f - 0) as [| d | d] eqn:E.
    - eexists _, _. split; [reflexivity |]. split; [lia | done].
    - eexists _, _. split; [reflexivity |]. split; [lia | done].
    - eexists _, _. split; [reflexivity |]. split; [lia |].
      rewrite iter_xO. replace (1023 - f) with (1023 + Z.pos d) by lia.
      rewrite Z.pow_add_r by lia.
      assert (0 < 2 ^ Z.pos d) by (apply Z.pow_pos_nonneg; lia). nia. }
  destruct (binary_round_aux_le (Z.pos mz) ez loc_Exact 1023)
    as [-> | (m' & e' & -> & _)]; [lia | lia | done | by left | |];
    by eexists.
Qed.

End Rounding.

(* =================================================================== *)
(** ** One epoch, then all of them *)
(* =================================================================== *)

Lemma combined_state_dict_log w d l :
  combined_state_dict (set_disk_log d l w) = combined_state_dict w.
Proof. reflexivity. Qed.

Lemma fsum_tallied bs os st :
  tallied (Stats zero 0 0) bs os st ->
  running_loss st = fsum (snd <$> os) /\
  correct_predictions st = matches bs os /\
  total_samples st = Z.of_nat (samples_seen bs).
Proof. intros (_ & Hl & Hc & Ht). simpl in *. repeat split; (done || lia). Qed.

Lemma train_epoch_report tr va n best e w b' w' :
  train_epoch tr va n best e w = inr (b', w') ->
  exists r,
    log w' = log w ++ epoch_log n e r /\
    b' = keep_best best (val_loss r) /\
    checkpoint r = (if lt (val_loss r) best
                    then Some (combined_state_dict w') else None) /\
    exists g, weighted_loss (length (randperm g (length tr)).1) (length tr)
                            (train_loss r).
Proof.
  unfold train_epoch. intros H.
  apply bind_inr in H as (? & w1 & H1 & H).
  apply bind_inr in H as (batches & w2 & H2 & H).
  apply bind_inr in H as (st & w3 & H3 & H).
  apply bind_inr in H as (el & w4 & H4 & H).
  apply bind_inr in H as (ea & w5 & H5 & H).
  apply bind_inr in H as (? & w6 & H6 & H).
  apply bind_inr in H as ([vl vacc] & w7 & H7 & H).
  apply bind_inr in H as (? & w8 & H8 & H).
  assert (exists g, weighted_loss (length (randperm g (length tr)).1)
                                  (length tr) el) as Hw.
  { exists (rng w1).
    destruct (DataLoader_batches _ _ _ _ _ H2)
      as (order & ss & -> & Hlen & _ & Hseen & Hsizes & Hfull).
    destruct (for_each_tallied _ _ train_step_accounts _ _ _ _ H3)
      as (os & Ht).
    pose proof Ht as (Hacc & _).
    apply fsum_tallied in Ht as (Hl & _ & _).
    apply lift_inr in H4 as [H4 _]. rewrite Hl in H4.
    exists batches, os. by rewrite Hseen, Hlen. }
  apply quiet_model_mode in H1 as [L1 _].
  apply quiet_DataLoader in H2 as [L2 _].
  apply (keeps_for_each quiet) in H3 as [L3 _];
    [| apply quiet_train_step].
  apply lift_inr in H4 as [_ ->]. apply lift_inr in H5 as [_ ->].
  unfold print in H6. injection H6 as _ <-.
  apply quiet_validate in H7 as [L7 _].
  unfold print in H8. injection H8 as _ <-.
  unfold save_if_best in H. simpl in *. destruct (lt vl best) eqn:E.
  - apply bind_inr in H as (wx & w9 & H9 & H).
    unfold get_world in H9. injection H9 as <- <-.
    apply bind_inr in H as (? & w10 & H10 & H).
    unfold torch_save in H10. injection H10 as _ <-.
    apply ret_inr in H as [-> ->].
    exists (Report el ea vl vacc (Some (combined_state_dict w7))).
    unfold epoch_log, keep_best. simpl. rewrite E.
    split; [| by repeat split].
    rewrite L7. simpl. rewrite L3, L2, L1. by rewrite <- !app_assoc.
  - apply ret_inr in H as [-> ->].
    exists (Report el ea vl vacc None).
    unfold epoch_log, keep_best. simpl. rewrite E.
    split; [| by repeat split].
    rewrite L7. simpl. rewrite L3, L2, L1. by rewrite <- !app_assoc.
Qed.

Lemma train_epochs_report tr va n es : forall best w b' w',
  for_each (train_epoch tr va n) best es w = inr (b', w') ->
  exists rs,
    length rs = length es /\
    log w' = log w ++ concat (zip_with (epoch_log n) es rs) /\
    b' = foldl keep_best best (val_loss <$> rs) /\
    (forall i r, rs !! i = Some r ->
      (is_Some (checkpoint r) <->
       lt (val_loss r)
          (foldl keep_best best (take i (val_loss <$> rs))) = true)) /\
    Forall (fun r => exists g,
                weighted_loss (length (randperm g (length tr)).1)
                              (length tr) (train_loss r)) rs.
Proof.
  induction es as [| e es IH]; intros best w b' w' H; simpl in H.
  - apply ret_inr in H as [-> ->]. exists []. simpl.
    split; [done | split; [by rewrite app_nil_r | split; [done |]]].
    split; [| constructor]. intros i r Hr. done.
  - apply bind_inr in H as (b1 & w1 & H1 & H).
    apply train_epoch_report in H1 as (r & L1 & -> & C1 & Hw).
    apply IH in H as (rs & Hlen & L & -> & Hrs & Hws).
    exists (r :: rs). simpl. split; [| split; [| split; [| split]]].
    + by rewrite Hlen.
    + rewrite L, L1. by rewrite <- !app_assoc.
    + done.
    + intros [| i] r' Hr'; simpl in *.
      * injection Hr' as <-. rewrite C1.
        destruct (lt (val_loss r) best); split; eauto; by inversion 1.
      * by apply Hrs.
    + by constructor.
Qed.


Lemma best_after_snoc vals v :
  best_after (vals ++ [v]) = keep_best (best_after vals) v.
Proof. unfold best_after. by rewrite foldl_app. Qed.

(* =================================================================== *)
(** ** The checkpoint policy *)
(* =================================================================== *)

(** C1 (as the code has it).  In a run of [train], the log is the
    epochs' reports in order, and epoch [i] writes [model_best.pth]
    exactly when its validation loss is strictly below +infinity and
    strictly below the validation loss of every earlier epoch whose loss
    was not NaN.  A tie fails the strict comparison, so it never saves. *)
Theorem train_saves_iff_new_best tr va n w u w' :
  train tr va n w = inr (u, w') ->
  exists rs,
    length rs = n /\
    log w' = log w ++ concat (zip_with (epoch_log n) (seq 0 n) rs) /\
    forall i r, rs !! i = Some r ->
      (is_Some (checkpoint r) <->
       lt (val_loss r) inf = true /\
       forall j r', j < i -> rs !! j = Some r' ->
                    is_nan (val_loss r') = false ->
                    lt (val_loss r) (val_loss r') = true).
Proof.
  unfold train. intros H.
  apply bind_inr in H as (b & w1 & H & Hret).
  apply ret_inr in Hret as [_ ->].
  apply train_epochs_report in H as (rs & Hlen & L & _ & Hrs & _).
  rewrite length_seq in Hlen.
  exists rs. split; [done | split; [done |]].
  intros i r Hr. rewrite (Hrs i r Hr).
  fold (best_after (take i (val_loss <$> rs))).
  rewrite below_best_after. split; intros [Hinf Hall]; (split; [done |]).
  - intros j r' Hj Hr' Hnan. apply Hall; [| done].
    apply list_elem_of_lookup. exists j.
    rewrite lookup_take_lt by done. by rewrite list_lookup_fmap, Hr'.
  - intros v [j Hv]%list_elem_of_lookup Hnan.
    apply lookup_take_Some in Hv as [Hv Hj].
    rewrite list_lookup_fmap in Hv.
    destruct (rs !! j) as [r' |] eqn:Hr'; [| done].
    injection Hv as <-. by eapply Hall.
Qed.

(** C3.  A NaN validation loss fails the comparison: the line is printed,
    nothing is saved, [best_val_loss] keeps its value and no exception is
    raised.  In a run of [train], an epoch with a NaN validation loss
    writes no checkpoint and leaves the best loss as it was, and any later
    epoch that does save has a non-NaN loss strictly below that best. *)
Theorem nan_validation_loss_never_saves tr va n w u w' :
  train tr va n w = inr (u, w') ->
  (forall v acc best w0,
      is_nan v = true ->
      (print (ValLine v acc) ;;; save_if_best v best) w0 =
      inr (best, set_disk_log (disk w0) (log w0 ++ [Printed (ValLine v acc)])
                              w0)) /\
  exists rs,
    length rs = n /\
    log w' = log w ++ concat (zip_with (epoch_log n) (seq 0 n) rs) /\
    forall i r, rs !! i = Some r -> is_nan (val_loss r) = true ->
      checkpoint r = None /\
      best_after (take (S i) (val_loss <$> rs)) =
      best_after (take i (val_loss <$> rs)) /\
      forall k r', i < k -> rs !! k = Some r' -> is_Some (checkpoint r') ->
        is_nan (val_loss r') = false /\
        lt (val_loss r') (best_after (take i (val_loss <$> rs))) = true.
Proof.
  intros H. split.
  { intros v acc best w0 Hnan. unfold bind, print, save_if_best.
    by rewrite (lt_is_nan v best Hnan). }
  unfold train in H.
  apply bind_inr in H as (b & w1 & H & Hret).
  apply ret_inr in Hret as [_ ->].
  apply train_epochs_report in H as (rs & Hlen & L & _ & Hrs & _).
  rewrite length_seq in Hlen.
  exists rs. split; [done | split; [done |]].
  intros i r Hr Hnan. split; [| split].
  - destruct (checkpoint r) as [sd |] eqn:C; [| done].
    assert (is_Some (checkpoint r)) as Hs by (rewrite C; eauto).
    apply (Hrs i r Hr) in Hs. by rewrite (lt_is_nan _ _ Hnan) in Hs.
  - rewrite (take_S_r _ _ (val_loss r))
      by (by rewrite list_lookup_fmap, Hr).
    rewrite best_after_snoc. unfold keep_best.
    by rewrite (lt_is_nan _ _ Hnan).
  - intros k r' Hk Hr' Hs. apply (Hrs k r' Hr') in Hs.
    fold (best_after (take k (val_loss <$> rs))) in Hs.
    split; [by apply lt_not_nan in Hs as [? _] |].
    apply below_best_after in Hs as [Hinf Hall].
    apply below_best_after. split; [done |].
    intros v [j Hv]%list_elem_of_lookup Hv'.
    apply lookup_take_Some in Hv as [Hv Hj].
    apply Hall; [| done]. apply list_elem_of_lookup. exists j.
    rewrite lookup_take_lt by lia. done.
Qed.



(* =================================================================== *)
(** ** Losses and accuracies *)
(* =================================================================== *)

Lemma count_equal_bounds predicted labels :
  (0 <= count_equal predicted labels <= Z.of_nat (length labels))%Z.
Proof.
  unfold count_equal. split; [lia |]. apply inj_le.
  etrans; [apply length_filter |]. rewrite length_zip_with. lia.
Qed.

Lemma matches_bounds bs : forall os,
  (0 <= matches bs os <= Z.of_nat (samples_seen bs))%Z.
Proof.
  unfold matches, samples_seen.
  induction bs as [| b bs IH]; intros [| o os];
    cbn [zip_with foldr map]; try lia.
  specialize (IH os).
  pose proof (count_equal_bounds (predictions o.1) b.2). lia.
Qed.




(* =================================================================== *)
(** ** From feature map to feature sequence *)
(* =================================================================== *)

Lemma infer_size_flatten B HW C n :
  0 < B -> 0 < HW -> 0 < C -> n = C * (B * HW) ->
  infer_size [Some B; Some HW; None] n = Some [B; HW; C].
Proof.
  intros HB HHW HC ->. unfold infer_size. simpl.
  rewrite Nat.mul_1_r.
  assert (0 < B * HW) as Hpos by nia.
  replace (0 <? B * HW) with true by (symmetry; apply Nat.ltb_lt; lia).
  rewrite Nat.Div0.mod_mul, Nat.div_mul by lia. done.
Qed.

Ltac split_tests :=
  repeat match goal with
         | |- context [?a =? ?b] =>
           destruct (Nat.eqb_spec a b); try (exfalso; nia); cbn [negb andb orb]
         | |- context [?a <? ?b] =>
           destruct (Nat.ltb_spec a b); try (exfalso; nia); cbn [negb andb orb]
         end.

Lemma compute_stride_channels_last B C H W :
  0 < B -> 0 < C -> 0 < H -> 0 < W ->
  exists st,
    compute_stride [B; H; W; C] [C * (H * W); W; 1; H * W] [B; H * W; C]
    = Some st /\
    forall b t c, b < B -> t < H * W -> c < C ->
      dot_index [b; t; c] st = b * (C * (H * W)) + c * (H * W) + t.
Proof.
  intros HB HC HH HW. unfold compute_stride.
  cbn [zip zip_with reverse rev_append compute_stride_loop take_view].
  rewrite !Nat.mul_1_l.
  destruct (Nat.eqb_spec W 1) as [-> | HW1];
    destruct (Nat.eqb_spec H 1) as [-> | HH1];
    destruct (Nat.eqb_spec B 1) as [-> | HB1];
    destruct (Nat.eqb_spec C 1) as [-> | HC1];
    repeat (progress (cbn [compute_stride_loop take_view negb andb orb];
                      rewrite ?Nat.mul_1_l, ?Nat.mul_1_r; split_tests)).
  all: eexists; (split; [reflexivity |]).
  all: intros b t c Hb Ht Hc; cbn [dot_index]; nia.
Qed.

(** [permute(0, 2, 3, 1)] of a contiguous [(B, C, H, W)] tensor: channel
    last, same storage. *)
Lemma permute_channels_last f B C H W :
  stride f = contiguous_strides (shape f) -> shape f = [B; C; H; W] ->
  permute f [0; 2; 3; 1] =
  inr (Tensor [B; H; W; C] [C * (H * W); W; 1; H * W] (offset f) (storage f)).
Proof.
  intros Hst Hsh. unfold permute. rewrite Hst, Hsh. simpl.
  by rewrite !Nat.mul_1_r.
Qed.

Lemma get_permuted f B C H W b h w c :
  stride f = contiguous_strides (shape f) -> shape f = [B; C; H; W] ->
  get (Tensor [B; H; W; C] [C * (H * W); W; 1; H * W] (offset f) (storage f))
      [b; h; w; c]
  = get f [b; c; h; w].
Proof.
  intros Hst Hsh. unfold get. rewrite Hst, Hsh. simpl.
  rewrite !Nat.mul_1_r.
  replace (b * (C * (H * W)) + (h * W + (w + (c * (H * W) + 0))))
    with (b * (C * (H * W)) + (c * (H * W) + (h * W + (w + 0)))) by lia.
  by destruct (b <? B), (h <? H), (w <? W), (c <? C).
Qed.

(** [view(B, H * W, -1)] of the channel-last tensor succeeds, and step [t]
    of the sequence is the spatial position [(t / W, t mod W)]. *)
Lemma view_channels_last B C H W off data :
  0 < B -> 0 < C -> 0 < H -> 0 < W ->
  exists st,
    let p := Tensor [B; H; W; C] [C * (H * W); W; 1; H * W] off data in
    view p [Some B; Some (H * W); None]
    = inr (Tensor [B; H * W; C] st off data) /\
    forall b t c, b < B -> t < H * W -> c < C ->
      get (Tensor [B; H * W; C] st off data) [b; t; c]
      = get p [b; t / W; t mod W; c].
Proof.
  intros HB HC HH HW.
  destruct (compute_stride_channels_last B C H W HB HC HH HW)
    as (st & Hcs & Hidx).
  exists st. cbn zeta. split.
  - unfold view. cbn [shape stride offset storage].
    rewrite (infer_size_flatten B (H * W) C) by (simpl; nia).
    replace (numel [B; H * W; C] =? 0) with false
      by (symmetry; apply Nat.eqb_neq; simpl; nia).
    by rewrite Hcs.
  - intros b t c Hb Ht Hc. unfold get. cbn [shape stride offset storage].
    assert (t / W < H) by (apply Nat.Div0.div_lt_upper_bound; lia).
    assert (t mod W < W) by (apply Nat.mod_upper_bound; lia).
    pose proof (Nat.div_mod_eq t W).
    cbn [in_bounds].
    repeat match goal with
           | |- context [?a <? ?b] =>
             replace (a <? b) with true by (symmetry; apply Nat.ltb_lt; lia)
           end.
    cbn [andb]. f_equal. rewrite Hidx by done. cbn [dot_index]. nia.
Qed.


Lemma keep_leaves_empty w : keep_leaves w ∅ = ∅.
Proof. unfold keep_leaves. by destruct (grad_enabled w). Qed.

Lemma no_grad_extract_features x w :
  no_grad (extract_features x) w
  = inr (Var (feature_map (value x) w) ∅, after_features (value x) w).
Proof. reflexivity. Qed.

(** C2.  On a batch whose feature map is a contiguous [(B, C, H, W)]
    tensor, the forward pass is, in this order: the feature extraction
    with gradient tracking off, so that its result reaches no parameter;
    the permutation to [(B, H, W, C)]; the view as [(B, H * W, C)], where
    step [t] is the position [(t / W, t mod W)]; then dropout and the
    sequence classifier, whose logits are what the pass returns. *)
Theorem forward_steps x w B C H W :
  let f := feature_map (value x) w in
  contiguous f -> shape f = [B; C; H; W] ->
  0 < B -> 0 < C -> 0 < H -> 0 < W ->
  exists p s,
    no_grad (extract_features x) w
    = inr (Var f ∅, after_features (value x) w) /\
    permute f [0; 2; 3; 1] = inr p /\
    shape p = [B; H; W; C] /\
    (forall b h v c, get p [b; h; v; c] = get f [b; c; h; v]) /\
    view p [Some B; Some (H * W); None] = inr s /\
    shape s = [B; H * W; C] /\
    (forall b t c, b < B -> t < H * W -> c < C ->
                   get s [b; t; c] = get p [b; t / W; t mod W; c]) /\
    CombinedModel_forward x w
    = (d <- dropout (Var s ∅) ;; LSTMModel_forward d)
        (after_features (value x) w).
Proof.
  intros f (Hst & Hoff & Hlen) Hsh HB HC HH HW.
  destruct (view_channels_last B C H W (offset f) (storage f) HB HC HH HW)
    as (st & Hview & Hget).
  cbn zeta in Hview, Hget.
  eexists _, _.
  split; [reflexivity |].
  split; [by apply permute_channels_last |].
  split; [reflexivity |].
  split; [intros; by apply get_permuted |].
  split; [exact Hview |].
  split; [reflexivity |].
  split; [exact Hget |].
  unfold CombinedModel_forward.
  unfold bind at 1. rewrite no_grad_extract_features. fold f.
  unfold bind at 1. unfold permute_var. cbn [value leaves].
  rewrite (permute_channels_last f B C H W Hst Hsh), keep_leaves_empty.
  unfold bind at 1, lift, size. cbn [value shape lookup list_lookup].
  unfold bind at 1, lift, size. cbn [value shape lookup list_lookup].
  unfold bind at 1, lift, size. cbn [value shape lookup list_lookup].
  unfold bind at 1. unfold view_var. cbn [value leaves].
  rewrite Hview, keep_leaves_empty. reflexivity.
Qed.


(* =================================================================== *)
(** ** The shape of the logits *)
(* =================================================================== *)

(** Dropout never fails, keeps the layout of its input and touches only
    the random generator. *)
Lemma dropout_layout x w :
  exists d w',
    dropout x w = inr (d, w') /\
    shape (value d) = shape (value x) /\
    stride (value d) = stride (value x) /\
    offset (value d) = offset (value x) /\
    lstm_model w' = lstm_model w /\
    input_size w' = input_size w /\
    hidden_size w' = hidden_size w.
Proof.
  unfold dropout. destruct (training w).
  - destruct (bernoulli (rng w) (length (storage (value x)))) as [mask g].
    eexists _, _. split; [reflexivity |]. by repeat split.
  - eexists _, _. split; [reflexivity |]. by repeat split.
Qed.

Lemma get_select_last B T hs data b j :
  0 < T ->
  get (Tensor [B; hs] [T * (hs * 1); 1] (0 + (T - 1) * (hs * 1)) data) [b; j]
  = get (new_tensor [B; T; hs] data) [b; T - 1; j].
Proof.
  intros HT. unfold get, new_tensor. cbn [shape stride offset storage
    in_bounds dot_index contiguous_strides numel foldr].
  replace (T - 1 <? T) with true by (symmetry; apply Nat.ltb_lt; lia).
  cbn [andb]. destruct (b <? B), (j <? hs); cbn [andb]; try done.
  f_equal. lia.
Qed.

Lemma LSTMModel_forward_shape x w B T F wt :
  shape (value x) = [B; T; F] -> 0 < T -> F = input_size w ->
  lstm_model w !! "fc.weight" = Some wt ->
  shape (data wt) = [2; hidden_size w] ->
  exists out w' hidden sel,
    LSTMModel_forward x w = inr (out, w') /\
    shape (value out) = [B; 2] /\
    nn_LSTM x (zeros [1; B; hidden_size w]) (zeros [1; B; hidden_size w]) w
    = inr (hidden, w) /\
    shape (value hidden) = [B; T; hidden_size w] /\
    select_last_var hidden w = inr (sel, w) /\
    shape (value sel) = [B; hidden_size w] /\
    (forall b j, get (value sel) [b; j] = get (value hidden) [b; T - 1; j]) /\
    LSTMModel_forward x w = (d <- dropout sel ;; fc d) w.
Proof.
  intros Hsh HT -> Hwt Hwsh.
  set (hs := hidden_size w).
  assert (exists hidden,
             nn_LSTM x (zeros [1; B; hs]) (zeros [1; B; hs]) w
             = inr (hidden, w) /\
             exists data, value hidden = new_tensor [B; T; hs] data)
    as (hidden & Hl & data & Hh).
  { unfold nn_LSTM. rewrite Hsh. rewrite bool_decide_true by done.
    eexists. split; [reflexivity |]. eexists. reflexivity. }
  assert (exists sel,
             select_last_var hidden w = inr (sel, w) /\
             value sel = Tensor [B; hs] [T * (hs * 1); 1]
                                (0 + (T - 1) * (hs * 1)) data)
    as (sel & Hs & Hsel).
  { unfold select_last_var, select_last. rewrite Hh.
    cbn [new_tensor shape stride offset storage contiguous_strides numel foldr].
    destruct T as [| T']; [lia |].
    eexists. split; [reflexivity |]. cbn [value]. do 2 f_equal. lia. }
  destruct (dropout_layout sel w) as (d & w2 & Hd & Hdsh & _ & _ & Hm & _ & Hhs).
  assert (exists out, fc d w2 = inr (out, w2) /\ shape (value out) = [B; 2])
    as (out & Hfc & Hout).
  { unfold fc, param_data. rewrite Hm, lookup_fmap, Hwt.
    cbn [fmap option_fmap option_map from_option id].
    rewrite Hdsh, Hsel, Hwsh. cbn [shape].
    rewrite bool_decide_true by done.
    eexists. split; reflexivity. }
  assert (LSTMModel_forward x w = (d <- dropout sel ;; fc d) w) as Heq.
  { unfold LSTMModel_forward. unfold bind at 1, lift, size.
    rewrite Hsh. cbn [lookup list_lookup]. unfold bind at 1.
    fold hs. unfold bind at 1. rewrite Hl. unfold bind at 1. by rewrite Hs. }
  exists out, w2, hidden, sel.
  split; [rewrite Heq; unfold bind; by rewrite Hd |].
  split; [done |]. split; [done |].
  split; [by rewrite Hh |]. split; [done |].
  split; [by rewrite Hsel |].
  split; [| done].
  intros b j. rewrite Hsel, Hh. by apply get_select_last.
Qed.

(** C5.  When the feature map is a contiguous [(B, C, H, W)] tensor whose
    channel depth is the recurrent network's input width, the forward pass
    returns logits of shape [(B, 2)] whatever [H] and [W] are; the
    recurrent network reads a sequence of [H * W] steps, and the logits are
    computed from the hidden state of the final step alone. *)
Theorem forward_output_shape x w B C H W wt :
  let f := feature_map (value x) w in
  contiguous f -> shape f = [B; C; H; W] ->
  0 < B -> 0 < C -> 0 < H -> 0 < W ->
  C = input_size w ->
  lstm_model w !! "fc.weight" = Some wt ->
  shape (data wt) = [2; hidden_size w] ->
  exists out w' sequence hidden sel w2,
    CombinedModel_forward x w = inr (out, w') /\
    shape (value out) = [B; 2] /\
    shape (value sequence) = [B; H * W; C] /\
    nn_LSTM sequence (zeros [1; B; hidden_size w])
            (zeros [1; B; hidden_size w]) w2 = inr (hidden, w2) /\
    shape (value hidden) = [B; H * W; hidden_size w] /\
    select_last_var hidden w2 = inr (sel, w2) /\
    shape (value sel) = [B; hidden_size w] /\
    (forall b j,
        get (value sel) [b; j] = get (value hidden) [b; H * W - 1; j]) /\
    CombinedModel_forward x w = (d <- dropout sel ;; fc d) w2.
Proof.
  intros f Hc Hsh HB HC HH HW HCin Hwt Hwsh.
  destruct (forward_steps x w B C H W Hc Hsh HB HC HH HW)
    as (p & s & _ & _ & _ & _ & _ & Hs & _ & Hfw).
  destruct (dropout_layout (Var s ∅) (after_features (value x) w))
    as (d & w2 & Hd & Hdsh & _ & _ & Hm & Hin & Hhs).
  cbn [value] in Hdsh. rewrite Hs in Hdsh.
  destruct (LSTMModel_forward_shape d w2 B (H * W) C wt)
    as (out & w' & hidden & sel & Hrun & Hout & Hl & Hhsh & Hsel & Hselsh
        & Hget & Heq);
    [done | nia | by rewrite Hin | by rewrite Hm | by rewrite Hhs |].
  rewrite Hhs in *.
  assert (CombinedModel_forward x w = LSTMModel_forward d w2) as Hfw'.
  { rewrite Hfw. unfold bind at 1. by rewrite Hd. }
  exists out, w', d, hidden, sel, w2.
  rewrite Hfw'. by repeat split.
Qed.


(* =================================================================== *)
(** ** What validation leaves alone *)
(* =================================================================== *)

#[local] Instance steady_refl : Reflexive steady.
Proof. intros w. by repeat split. Qed.

#[local] Instance steady_trans : Transitive steady.
Proof.
  intros a b c (E1 & L1 & A1 & T1) (E2 & L2 & A2 & T2).
  split; [congruence | split; [congruence | split; [congruence |]]].
  intros Ha. destruct (T1 Ha) as [Hb B1]. destruct (T2 Hb) as [Hc B2].
  split; congruence.
Qed.

#[local] Instance blind_refl : Reflexive blind.
Proof. intros w Hw. exact Hw. Qed.

#[local] Instance blind_trans : Transitive blind.
Proof. intros a b c H1 H2 Ha. apply H2, H1, Ha. Qed.

Lemma keeps_no_grad_blind {A} (m : M A) : keeps blind m -> keeps blind (no_grad m).
Proof.
  intros Hm w a w' H Hw. unfold no_grad in H.
  destruct (m (set_grad_enabled false w)) as [e | [a1 w1]]; simplify_eq.
  done.
Qed.

Ltac prim_steady :=
  let w := fresh "w" in let a := fresh "a" in let w' := fresh "w'" in
  let H := fresh "H" in
  intros w a w' H; repeat case_match; simplify_eq; simpl;
  repeat split; try done; try congruence.

Lemma steady_DataLoader ds sh : keeps steady (DataLoader ds sh).
Proof. unfold keeps, steady, DataLoader. prim_steady. Qed.

Lemma steady_dropout x : keeps steady (dropout x).
Proof. unfold keeps, steady, dropout. prim_steady. Qed.

Lemma steady_extract_features x : keeps steady (extract_features x).
Proof.
  unfold keeps, steady, extract_features. intros w a w' H.
  simplify_eq. simpl. split; [done | split; [done | split; [done |]]].
  intros Ht. by rewrite Ht.
Qed.

Lemma steady_nn_LSTM x h0 c0 : keeps steady (nn_LSTM x h0 c0).
Proof. unfold keeps, steady, nn_LSTM. prim_steady. Qed.

Lemma steady_fc x : keeps steady (fc x).
Proof. unfold keeps, steady, fc. prim_steady. Qed.

Lemma steady_select_last_var x : keeps steady (select_last_var x).
Proof. unfold keeps, steady, select_last_var. prim_steady. Qed.

Lemma steady_permute_var x d : keeps steady (permute_var x d).
Proof. unfold keeps, steady, permute_var. prim_steady. Qed.

Lemma steady_view_var x s : keeps steady (view_var x s).
Proof. unfold keeps, steady, view_var. prim_steady. Qed.

Lemma steady_criterion o l : keeps steady (criterion o l).
Proof. unfold keeps, steady, criterion. prim_steady. Qed.

Lemma steady_hidden : keeps steady (fun w => inr (hidden_size w, w)).
Proof. unfold keeps, steady. prim_steady. Qed.

Lemma steady_set_grad b w : steady w (set_grad_enabled b w).
Proof. by repeat split. Qed.

Create HintDb steady_db.
#[local] Hint Resolve steady_DataLoader steady_dropout
  steady_extract_features steady_nn_LSTM steady_fc steady_select_last_var
  steady_permute_var steady_view_var steady_criterion steady_hidden
  steady_set_grad : steady_db.

Lemma steady_update_stats st l i o ls : keeps steady (update_stats st l i o ls).
Proof. unfold update_stats. walk steady_db. Qed.

#[local] Hint Resolve steady_update_stats : steady_db.

Lemma steady_validate_step st b : keeps steady (validate_step st b).
Proof.
  destruct b as [inputs labels]. unfold validate_step, CombinedModel_forward.
  walk steady_db.
Qed.

#[local] Hint Resolve steady_validate_step : steady_db.

Lemma steady_validate_loop va : keeps steady (validate_loop va).
Proof. unfold validate_loop. walk steady_db. Qed.

Lemma blind_DataLoader ds sh : keeps blind (DataLoader ds sh).
Proof. unfold keeps, blind, DataLoader. prim_steady. Qed.

Lemma blind_dropout x : keeps blind (dropout x).
Proof. unfold keeps, blind, dropout. prim_steady. Qed.

Lemma blind_extract_features x : keeps blind (extract_features x).
Proof. unfold keeps, blind, extract_features. prim_steady. Qed.

Lemma blind_nn_LSTM x h0 c0 : keeps blind (nn_LSTM x h0 c0).
Proof. unfold keeps, blind, nn_LSTM. prim_steady. Qed.

Lemma blind_fc x : keeps blind (fc x).
Proof. unfold keeps, blind, fc. prim_steady. Qed.

Lemma blind_select_last_var x : keeps blind (select_last_var x).
Proof. unfold keeps, blind, select_last_var. prim_steady. Qed.

Lemma blind_permute_var x d : keeps blind (permute_var x d).
Proof. unfold keeps, blind, permute_var. prim_steady. Qed.

Lemma blind_view_var x s : keeps blind (view_var x s).
Proof. unfold keeps, blind, view_var. prim_steady. Qed.

Lemma blind_criterion o l : keeps blind (criterion o l).
Proof. unfold keeps, blind, criterion. prim_steady. Qed.

Lemma blind_hidden : keeps blind (fun w => inr (hidden_size w, w)).
Proof. unfold keeps, blind. prim_steady. Qed.

Lemma blind_no_grad_extract x : keeps blind (no_grad (extract_features x)).
Proof. apply keeps_no_grad_blind, blind_extract_features. Qed.

Create HintDb blind_db.
#[local] Hint Resolve blind_DataLoader blind_dropout blind_no_grad_extract
  blind_nn_LSTM blind_fc blind_select_last_var blind_permute_var
  blind_view_var blind_criterion blind_hidden : blind_db.

Lemma blind_validate_step st b : keeps blind (validate_step st b).
Proof.
  destruct b as [inputs labels].
  unfold validate_step, CombinedModel_forward, update_stats.
  repeat first
    [ apply keeps_ret; [typeclasses eauto ..]
    | apply keeps_lift; [typeclasses eauto ..]
    | solve [eauto with blind_db]
    | apply keeps_bind; [typeclasses eauto .. | | intros ? ] ].
Qed.


Lemma steady_model_mode_eval : keeps steady (model_mode false).
Proof. intros w a w' H. injection H as _ <-. by repeat split. Qed.

#[local] Hint Resolve steady_model_mode_eval steady_validate_loop : steady_db.

Lemma steady_validate va : keeps steady (validate va).
Proof. unfold validate. walk steady_db. Qed.

(** C9.  A call of [validate] that returns has changed no parameter of
    the model: the extractor's and the classifier's parameters, their
    gradient slots, the running statistics and the optimizer's state are
    what they were.  The model is left in evaluation mode, the loop over
    the batches runs with gradient tracking off from its first step to its
    last and the previous setting is restored afterwards, and the loop
    body does the same bookkeeping as the training loop's. *)
Theorem validate_changes_no_parameter va w r w' :
  validate va w = inr (r, w') ->
  effnet_model w' = effnet_model w /\
  lstm_model w' = lstm_model w /\
  effnet_buffers w' = effnet_buffers w /\
  adam_state w' = adam_state w /\
  training w' = false /\
  grad_enabled w' = grad_enabled w /\
  (exists st w_in,
      (batches <- DataLoader va false ;;
       for_each validate_step (Stats zero 0 0) batches)
        (set_grad_enabled false (set_training false w)) = inr (st, w_in) /\
      grad_enabled w_in = false) /\
  (forall st b, keeps blind (validate_step st b)) /\
  accounts validate_step /\ accounts train_step.
Proof.
  unfold validate. intros H.
  apply bind_inr in H as (? & w0 & H0 & H).
  unfold model_mode in H0. injection H0 as _ <-.
  apply bind_inr in H as (st & w1 & H1 & H).
  apply bind_inr in H as (? & w2 & H2 & H).
  apply lift_inr in H2 as [_ ->].
  apply bind_inr in H as (? & w3 & H3 & H).
  apply lift_inr in H3 as [_ ->].
  apply ret_inr in H as [_ ->].
  pose proof (steady_validate_loop va _ _ _ H1) as (E & L & A & T).
  destruct (T eq_refl) as [Ht Hb].
  unfold validate_loop, no_grad in H1.
  destruct (bind _ _ (set_grad_enabled false (set_training false w)))
    as [? | [st0 w_in]] eqn:Hin; [done |].
  injection H1 as -> <-.
  assert (grad_enabled w_in = false) as Hoff.
  { apply bind_inr in Hin as (batches & wd & HD & HF).
    apply blind_DataLoader in HD.
    apply (keeps_for_each blind) in HF; [| apply blind_validate_step].
    by apply HF, HD. }
  repeat split; try done.
  - by exists st, w_in.
  - apply blind_validate_step.
  - apply validate_step_accounts.
  - apply train_step_accounts.
Qed.


(* =================================================================== *)
(** ** What the optimizer never moves *)
(* =================================================================== *)

Lemma recurrent_only_empty : recurrent_only ∅.
Proof. intros pn Hpn. set_solver. Qed.

Lemma recurrent_only_keep w lv :
  recurrent_only lv -> recurrent_only (keep_leaves w lv).
Proof.
  unfold keep_leaves. destruct (grad_enabled w); [done |].
  intros _. apply recurrent_only_empty.
Qed.

Lemma recurrent_only_op w lv used :
  recurrent_only lv -> recurrent_only (op_leaves w lv Recurrent used).
Proof.
  intros Hlv. unfold op_leaves. apply recurrent_only_keep.
  intros pn [Hpn | Hpn]%elem_of_union; [by apply Hlv |].
  apply elem_of_map in Hpn as (k & -> & _). done.
Qed.

(** The logits of a forward pass reach no extractor parameter: the
    features were computed with tracking off, and [_fc] is never called. *)
Lemma forward_leaves x w v w' :
  CombinedModel_forward x w = inr (v, w') -> recurrent_only (leaves v).
Proof.
  unfold CombinedModel_forward. intros H.
  apply bind_inr in H as (x1 & w1 & H1 & H).
  rewrite no_grad_extract_features in H1. injection H1 as <- <-.
  apply bind_inr in H as (x2 & w2 & H2 & H).
  assert (recurrent_only (leaves x2)) as R2.
  { unfold permute_var in H2. case_match; simplify_eq. simpl.
    rewrite keep_leaves_empty. apply recurrent_only_empty. }
  apply bind_inr in H as (n0 & w3 & _ & H).
  apply bind_inr in H as (n1 & w4 & _ & H).
  apply bind_inr in H as (n2 & w5 & _ & H).
  apply bind_inr in H as (x3 & w6 & H3 & H).
  assert (recurrent_only (leaves x3)) as R3.
  { unfold view_var in H3. case_match; simplify_eq. simpl.
    by apply recurrent_only_keep. }
  apply bind_inr in H as (x4 & w7 & H4 & H).
  assert (recurrent_only (leaves x4)) as R4.
  { unfold dropout in H4. repeat case_match; simplify_eq; simpl; [| done].
    by apply recurrent_only_keep. }
  unfold LSTMModel_forward in H.
  apply bind_inr in H as (b & w8 & _ & H).
  apply bind_inr in H as (hs & w9 & _ & H).
  apply bind_inr in H as (x5 & w10 & H5 & H).
  assert (recurrent_only (leaves x5)) as R5.
  { unfold nn_LSTM in H5. repeat case_match; simplify_eq; simpl.
    by apply recurrent_only_op. }
  apply bind_inr in H as (x6 & w11 & H6 & H).
  assert (recurrent_only (leaves x6)) as R6.
  { unfold select_last_var in H6. case_match; simplify_eq. simpl.
    by apply recurrent_only_keep. }
  apply bind_inr in H as (x7 & w12 & H7 & H).
  assert (recurrent_only (leaves x7)) as R7.
  { unfold dropout in H7. repeat case_match; simplify_eq; simpl; [| done].
    by apply recurrent_only_keep. }
  unfold fc in H. repeat case_match; simplify_eq; simpl.
  by apply recurrent_only_op.
Qed.

#[local] Instance frozen_refl : Reflexive frozen.
Proof. intros w Hw. done. Qed.

#[local] Instance frozen_trans : Transitive frozen.
Proof.
  intros a b c H1 H2 Ha. rewrite <- (H1 Ha). apply H2.
  intros k p. rewrite (H1 Ha). apply Ha.
Qed.

Lemma steady_frozen w w' : steady w w' -> frozen w w'.
Proof. intros (E & _) _. exact E. Qed.

Lemma keeps_steady_frozen {A} (m : M A) : keeps steady m -> keeps frozen m.
Proof. intros Hm w a w' H. eapply steady_frozen, Hm, H. Qed.

Lemma same_effnet_frozen {A} (m : M A) :
  (forall w a w', m w = inr (a, w') -> effnet_model w' = effnet_model w) ->
  keeps frozen m.
Proof. intros Hm w a w' H _. eapply Hm, H. Qed.

Lemma clear_no_grad (ps : gmap string parameter) :
  (forall k p, ps !! k = Some p -> grad p = None) ->
  (fun p => Param (data p) None) <$> ps = ps.
Proof.
  intros Hps. apply map_eq. intros k. rewrite lookup_fmap.
  destruct (ps !! k) as [[d g] |] eqn:E; [| done].
  apply Hps in E. simpl in *. by subst g.
Qed.

Lemma frozen_zero_grad : keeps frozen zero_grad.
Proof.
  intros w a w' H Hw. unfold zero_grad in H. simplify_eq. simpl.
  by apply clear_no_grad.
Qed.

Lemma adam_params_no_grad o st (ps : gmap string parameter) :
  (forall k p, ps !! k = Some p -> grad p = None) -> adam_params o st ps = ps.
Proof.
  intros Hps. apply map_eq. intros k. unfold adam_params.
  rewrite map_lookup_imap.
  destruct (ps !! k) as [p |] eqn:E; [| done]. simpl.
  by rewrite (Hps k p E).
Qed.

Lemma frozen_optimizer_step : keeps frozen optimizer_step.
Proof.
  intros w a w' H Hw. unfold optimizer_step in H. simplify_eq. simpl.
  by apply adam_params_no_grad.
Qed.

(** Gradients land on the leaves of the loss and nowhere else. *)
Lemma backward_recurrent_only lv g w a w' :
  recurrent_only lv -> backward lv g w = inr (a, w') ->
  effnet_model w' = effnet_model w.
Proof.
  intros Hlv H. unfold backward in H. case_bool_decide; simplify_eq. simpl.
  apply map_eq. intros k. rewrite map_lookup_imap.
  destruct (effnet_model w !! k) as [p |] eqn:E; [| done]. simpl.
  rewrite bool_decide_false; [done |].
  intros Hin. by apply Hlv in Hin.
Qed.


Lemma steady_CombinedModel_forward x : keeps steady (CombinedModel_forward x).
Proof. unfold CombinedModel_forward. walk steady_db. Qed.

Lemma frozen_train_step st b : keeps frozen (train_step st b).
Proof.
  destruct b as [inputs labels]. intros w st' w' H Hw. unfold train_step in H.
  apply bind_inr in H as (? & w1 & H1 & H).
  pose proof (frozen_zero_grad _ _ _ H1 Hw) as E1.
  apply bind_inr in H as (w0 & w1' & H0 & H).
  unfold get_world in H0. injection H0 as <- <-.
  apply bind_inr in H as (outputs & w2 & H2 & H).
  pose proof (forward_leaves _ _ _ _ H2) as Hlv.
  apply steady_CombinedModel_forward in H2 as (E2 & _).
  apply bind_inr in H as ([l lv] & w3 & H3 & H).
  apply criterion_inr in H3 as (-> & _ & -> & _).
  apply bind_inr in H as (? & w4 & H4 & H).
  apply backward_recurrent_only in H4 as E4;
    [| by apply recurrent_only_keep].
  apply bind_inr in H as (? & w5 & H5 & H).
  apply frozen_optimizer_step in H5 as E5.
  assert (no_extractor_grad w4) as Hw4
      by (intros k p; rewrite E4, E2, E1; apply Hw).
  specialize (E5 Hw4).
  apply update_stats_inr in H as [-> _]. congruence.
Qed.

Lemma frozen_model_mode b : keeps frozen (model_mode b).
Proof. apply same_effnet_frozen. intros w a w' H. by injection H as _ <-. Qed.

Lemma frozen_print l : keeps frozen (print l).
Proof. apply same_effnet_frozen. intros w a w' H. by injection H as _ <-. Qed.

Lemma frozen_torch_save sd f : keeps frozen (torch_save sd f).
Proof. apply same_effnet_frozen. intros w a w' H. by injection H as _ <-. Qed.

Lemma frozen_DataLoader ds sh : keeps frozen (DataLoader ds sh).
Proof. apply keeps_steady_frozen, steady_DataLoader. Qed.

Lemma frozen_validate va : keeps frozen (validate va).
Proof. apply keeps_steady_frozen, steady_validate. Qed.

Create HintDb frozen_db.
#[local] Hint Resolve frozen_train_step frozen_model_mode frozen_print
  frozen_torch_save frozen_DataLoader frozen_validate : frozen_db.

Lemma frozen_save_if_best v best : keeps frozen (save_if_best v best).
Proof. unfold save_if_best. destruct (lt v best); walk frozen_db. Qed.

#[local] Hint Resolve frozen_save_if_best : frozen_db.

Lemma frozen_train_epoch tr va n best e :
  keeps frozen (train_epoch tr va n best e).
Proof. unfold train_epoch. walk frozen_db. Qed.

#[local] Hint Resolve frozen_train_epoch : frozen_db.

(** A whole run of [train] hands the extractor's parameters back as it
    found them. *)
Lemma frozen_train tr va n : keeps frozen (train tr va n).
Proof. unfold train. walk frozen_db. Qed.

(** C10.  One iteration of the training loop, with its optimizer step,
    leaves every parameter of the extractor (backbone and [_fc] head) as
    it was, gradient slot included, so the same holds for the next
    iteration.  The reason is in the forward pass: its logits reach
    parameters of the recurrent classifier only.  The optimizer does visit
    the extractor's parameters: one that held a gradient would be
    updated. *)
Theorem optimizer_never_moves_extractor st b w st' w' :
  no_extractor_grad w ->
  train_step st b w = inr (st', w') ->
  effnet_model w' = effnet_model w /\
  no_extractor_grad w' /\
  (forall x w0 out w1,
      CombinedModel_forward x w0 = inr (out, w1) ->
      recurrent_only (leaves out)) /\
  (forall w0 k p g,
      effnet_model w0 !! k = Some p -> grad p = Some g ->
      exists w1,
        optimizer_step w0 = inr (tt, w1) /\
        data <$> (effnet_model w1 !! k)
        = Some (adam_update (adam_state w0 !! (Extractor, k)) (data p) g).1).
Proof.
  intros Hw H. pose proof (frozen_train_step _ _ _ _ _ H Hw) as E.
  split; [done |]. split; [intros k p; rewrite E; apply Hw |].
  split; [intros x w0 out w1; apply forward_leaves |].
  intros w0 k p g Hk Hg. eexists. split; [reflexivity |].
  simpl. unfold adam_params. rewrite map_lookup_imap, Hk. simpl.
  by rewrite Hg.
Qed.


(* =================================================================== *)
(** ** What is written, and what is read *)
(* =================================================================== *)

Lemma epoch_log_saved n e r f sd :
  Saved f sd ∈ epoch_log n e r -> f = "model_best.pth".
Proof.
  unfold epoch_log. intros [H | H]%elem_of_app.
  - apply elem_of_cons in H as [H | H]; [done |].
    apply elem_of_cons in H as [H | H]; [done | by inversion H].
  - destruct (checkpoint r); [| by inversion H].
    apply list_elem_of_singleton in H. by injection H.
Qed.

Lemma epochs_log_saved n rs f sd : forall es,
  Saved f sd ∈ concat (zip_with (epoch_log n) es rs) -> f = "model_best.pth".
Proof.
  induction rs as [| r rs IH]; intros [| e es] H;
    cbn [zip_with concat] in H; try by inversion H.
  apply elem_of_app in H as [H | H]; [by eapply epoch_log_saved | by eapply IH].
Qed.

(** C7.  After the five epochs the script writes once more, and only once:
    the extractor's own state dict goes to [model.pth].  Every write made
    before that, inside the loop, went to [model_best.pth]; the combined
    model is not saved again after the loop. *)
Theorem final_save_is_extractor_only tr va w u w' :
  train_and_save tr va w = inr (u, w') ->
  exists w_t rs,
    train tr va 5 w = inr (tt, w_t) /\
    length rs = 5 /\
    log w_t = log w ++ concat (zip_with (epoch_log 5) (seq 0 5) rs) /\
    (forall f sd, Saved f sd ∈ concat (zip_with (epoch_log 5) (seq 0 5) rs) ->
                  f = "model_best.pth") /\
    log w' = log w_t ++
             [Saved "model.pth"
                    (state_dict (effnet_model w_t) (effnet_buffers w_t))] /\
    disk w' = <["model.pth" :=
                  state_dict (effnet_model w_t) (effnet_buffers w_t)]>
              (disk w_t).
Proof.
  unfold train_and_save. intros H.
  apply bind_inr in H as ([] & w_t & Ht & H).
  apply bind_inr in H as (wx & w1 & Hg & H).
  unfold get_world in Hg. injection Hg as <- <-.
  unfold torch_save in H. injection H as _ <-.
  pose proof Ht as Ht'. unfold train in Ht'.
  apply bind_inr in Ht' as (b & w2 & Ht' & Hret).
  apply ret_inr in Hret as [_ <-].
  apply train_epochs_report in Ht' as (rs & Hlen & L & _).
  rewrite length_seq in Hlen.
  exists w_t, rs. split; [done |]. split; [done |]. split; [done |].
  split; [intros f sd; apply epochs_log_saved |]. done.
Qed.


Lemma quiet_fresh sh : keeps quiet (fresh sh).
Proof. unfold keeps, quiet, fresh. prim_keeps. Qed.

Lemma quiet_from_pretrained : keeps quiet from_pretrained.
Proof. unfold keeps, quiet, from_pretrained. prim_keeps. Qed.

Lemma quiet_fc_in_features : keeps quiet fc_in_features.
Proof. unfold keeps, quiet, fc_in_features. prim_keeps. Qed.

Lemma quiet_ImageFolder ds : keeps quiet (ImageFolder ds).
Proof. unfold keeps, quiet, ImageFolder, raise, ret. prim_keeps. Qed.

#[local] Hint Resolve quiet_fresh quiet_from_pretrained quiet_fc_in_features
  quiet_ImageFolder : quiet_db.

Lemma quiet_replace_fc n c : keeps quiet (replace_fc n c).
Proof.
  unfold replace_fc. walk quiet_db.
  unfold keeps, quiet. prim_keeps.
Qed.

(** The extractor is built without touching the disk; it prints
    [num_ftrs]. *)
Lemma build_extractor_log w n w' :
  build_extractor w = inr (n, w') ->
  log w' = log w ++ [Printed (NumLine n)] /\ disk w' = disk w.
Proof.
  unfold build_extractor. intros H.
  apply bind_inr in H as (? & w1 & H1 & H).
  apply quiet_from_pretrained in H1 as [L1 D1].
  apply bind_inr in H as (n' & w2 & H2 & H).
  apply quiet_fc_in_features in H2 as [L2 D2].
  apply bind_inr in H as (? & w3 & H3 & H).
  unfold print in H3. injection H3 as _ <-.
  apply bind_inr in H as (? & w4 & H4 & H).
  apply quiet_replace_fc in H4 as [L4 D4].
  apply ret_inr in H as [-> ->]. simpl in *.
  split; congruence.
Qed.

Lemma load_state_dict_param ps bufs sd ps' bufs' k p :
  load_state_dict ps bufs sd = inr (ps', bufs') ->
  ps !! k = Some p ->
  exists t, sd !! k = Some t /\ shape t = shape (data p) /\
            ps' !! k = Some (Param t (grad p)).
Proof.
  unfold load_state_dict. intros H Hk.
  case_bool_decide as Hsh; [| done]. injection H as <- <-.
  assert ((shape <$> sd) !! k = Some (shape (data p))) as Hs.
  { rewrite Hsh. unfold expected_shapes.
    apply lookup_union_Some_l. by rewrite lookup_fmap, Hk. }
  rewrite lookup_fmap in Hs.
  destruct (sd !! k) as [t |] eqn:Et; [| done]. injection Hs as Hs.
  exists t. split; [done |]. split; [done |].
  by rewrite map_lookup_imap, Hk; simpl; rewrite Et.
Qed.

Lemma load_state_dict_buffer ps bufs sd ps' bufs' k b :
  load_state_dict ps bufs sd = inr (ps', bufs') ->
  bufs !! k = Some b ->
  exists t, sd !! k = Some t /\ bufs' !! k = Some t.
Proof.
  unfold load_state_dict. intros H Hk.
  case_bool_decide as Hsh; [| done]. injection H as <- <-.
  assert (is_Some ((shape <$> sd) !! k)) as Hs.
  { rewrite Hsh. unfold expected_shapes.
    apply lookup_union_is_Some. right. by rewrite lookup_fmap, Hk. }
  rewrite lookup_fmap in Hs.
  destruct (sd !! k) as [t |] eqn:Et; [| by destruct Hs].
  exists t. split; [done |].
  by rewrite map_lookup_imap, Hk; simpl; rewrite Et.
Qed.

Lemma load_state_dict_keys ps bufs sd ps' bufs' :
  load_state_dict ps bufs sd = inr (ps', bufs') ->
  dom sd = dom ps ∪ dom bufs.
Proof.
  unfold load_state_dict. intros H.
  case_bool_decide as Hsh; [| done].
  apply (f_equal dom) in Hsh. unfold expected_shapes in Hsh.
  by rewrite dom_union_L, !dom_fmap_L in Hsh.
Qed.

Lemma load_state_dict_mismatch ps bufs sd k t p :
  sd !! k = Some t -> ps !! k = Some p -> shape t <> shape (data p) ->
  load_state_dict ps bufs sd = inl (RuntimeError "Error(s) in loading state_dict").
Proof.
  intros Ht Hp Hne. unfold load_state_dict.
  rewrite bool_decide_false; [done |].
  intros Hsh. apply (f_equal (fun m => m !! k)) in Hsh.
  unfold expected_shapes in Hsh.
  rewrite lookup_fmap, Ht in Hsh.
  erewrite lookup_union_Some_l in Hsh by (by rewrite lookup_fmap, Hp).
  simpl in Hsh. by injection Hsh.
Qed.


Lemma startup_log w tr va n w' :
  startup w = inr ((tr, va, n), w') ->
  log w' = log w ++ [Printed (DeviceLine cuda_available); Printed (NumLine n)]
  /\ disk w' = disk w.
Proof.
  unfold startup. intros H.
  apply bind_inr in H as (? & wa & Ha & H).
  unfold print in Ha. injection Ha as _ <-.
  apply bind_inr in H as (tr' & wb & Hb & H).
  apply quiet_ImageFolder in Hb as [Lb Db].
  apply bind_inr in H as (va' & wc & Hc & H).
  apply quiet_ImageFolder in Hc as [Lc Dc].
  apply bind_inr in H as (? & wd & Hd & H).
  apply quiet_ImageFolder in Hd as [Ld Dd].
  apply bind_inr in H as (n' & w1 & He & H).
  apply build_extractor_log in He as [Le De].
  apply ret_inr in H as [H ->]. injection H as _ _ ->.
  simpl in *. split; [| congruence].
  rewrite Le, Ld, Lc, Lb. simpl. by rewrite <- app_assoc.
Qed.



(* =================================================================== *)
(** ** The loaders *)
(* =================================================================== *)

Lemma chunks_fuel_length {A} n : 0 < n -> forall fuel (l : list A),
  length l <= fuel ->
  length (chunks_fuel fuel n l) = (length l + (n - 1)) / n.
Proof.
  intros Hn. induction fuel as [| fuel IH]; intros l Hl.
  - destruct l; [| simpl in Hl; lia].
    simpl. symmetry. apply Nat.div_small. lia.
  - destruct l as [| x l].
    { simpl. symmetry. apply Nat.div_small. lia. }
    change (chunks_fuel (S fuel) n (x :: l)) with
      (take n (x :: l) :: chunks_fuel fuel n (drop n (x :: l))).
    cbn [length].
    rewrite IH by (rewrite length_drop; simpl in *; lia).
    rewrite length_drop. set (len := length (x :: l)).
    assert (0 < len) as Hlen by (unfold len; simpl; lia).
    change (S (length l)) with len.
    destruct (decide (len <= n)) as [Hle | Hgt].
    + replace (len - n) with 0 by lia.
      rewrite (Nat.div_small (0 + (n - 1))) by lia.
      apply (Nat.div_unique _ _ _ (len - 1)); lia.
    + replace (len + (n - 1)) with ((len - n + (n - 1)) + 1 * n) by lia.
      rewrite Nat.div_add by lia. lia.
Qed.

Lemma collate_labels (cs : list (list sample)) :
  concat (snd <$> (collate <$> cs)) = snd <$> concat cs.
Proof.
  induction cs as [| c cs IH]; [done |].
  cbn [fmap list_fmap concat]. rewrite fmap_app. f_equal. exact IH.
Qed.

Lemma collate_storage (cs : list (list sample)) :
  concat ((fun b : batch => storage b.1) <$> (collate <$> cs))
  = concat ((fun s : sample => storage s.1) <$> concat cs).
Proof.
  induction cs as [| c cs IH]; [done |].
  cbn [fmap list_fmap concat]. rewrite fmap_app, concat_app. f_equal.
  exact IH.
Qed.

Lemma set_rng_same (w : world) : set_rng (rng w) w = w.
Proof. by destruct w. Qed.



(* =================================================================== *)
(** ** Which exceptions can come out *)
(* =================================================================== *)

Lemma bind_inl {A B} (m : M A) (k : A -> M B) w e :
  bind m k w = inl e ->
  m w = inl e \/ exists a w1, m w = inr (a, w1) /\ k a w1 = inl e.
Proof.
  unfold bind. destruct (m w) as [e' | [a w1]]; intros H.
  - left. by simplify_eq.
  - right. eauto.
Qed.

Section Raises.
Context (P : exn -> Prop).

Lemma raises_only_ret {A} (x : A) : raises_only P (ret x).
Proof. intros w e H. discriminate. Qed.

Lemma raises_only_lift {A} (r : result A) :
  (forall e, r = inl e -> P e) -> raises_only P (lift r).
Proof. intros Hr w e H. unfold lift in H. destruct r; simplify_eq. eauto. Qed.

Lemma raises_only_bind {A B} (m : M A) (k : A -> M B) :
  raises_only P m -> (forall a, raises_only P (k a)) ->
  raises_only P (bind m k).
Proof.
  intros Hm Hk w e [H | (a & w1 & _ & H)]%bind_inl; [eapply Hm | eapply Hk];
    eassumption.
Qed.

Lemma raises_only_for_each {A S} (body : S -> A -> M S) xs :
  (forall s x, raises_only P (body s x)) ->
  forall s, raises_only P (for_each body s xs).
Proof.
  intros Hb. induction xs as [| x xs IH]; intros s; simpl.
  - apply raises_only_ret.
  - apply raises_only_bind; [apply Hb | intros s'; apply IH].
Qed.

Lemma raises_only_no_grad {A} (m : M A) :
  raises_only P m -> raises_only P (no_grad m).
Proof.
  intros Hm w e H. unfold no_grad in H.
  destruct (m (set_grad_enabled false w)) as [e' | [a w1]] eqn:E;
    simplify_eq.
  eapply Hm, E.
Qed.
End Raises.

Ltac prim_raises :=
  let w := fresh "w" in let e := fresh "e" in let H := fresh "H" in
  intros w e H; repeat case_match; simplify_eq; done.

Lemma size_no_division t d e : size t d = inl e -> no_division e.
Proof. unfold size. intros H. case_match; simplify_eq. done. Qed.

Lemma float_of_int_overflow n e : float_of_int n = inl e -> e = OverflowError.
Proof. unfold float_of_int. intros H. case_match; simplify_eq. done. Qed.

Lemma mul_int_no_division x n e : mul_int x n = inl e -> no_division e.
Proof.
  unfold mul_int. intros H.
  destruct (float_of_int n) as [e' |] eqn:E; simplify_eq.
  by apply float_of_int_overflow in E as ->.
Qed.

Lemma no_division_DataLoader ds sh : raises_only no_division (DataLoader ds sh).
Proof. unfold raises_only, no_division, DataLoader. prim_raises. Qed.

Lemma no_division_dropout x : raises_only no_division (dropout x).
Proof. unfold raises_only, no_division, dropout. prim_raises. Qed.

Lemma no_division_extract_features x :
  raises_only no_division (extract_features x).
Proof. unfold raises_only, no_division, extract_features. prim_raises. Qed.

Lemma no_division_nn_LSTM x h0 c0 : raises_only no_division (nn_LSTM x h0 c0).
Proof. unfold raises_only, no_division, nn_LSTM. prim_raises. Qed.

Lemma no_division_fc x : raises_only no_division (fc x).
Proof. unfold raises_only, no_division, fc. prim_raises. Qed.

Lemma no_division_select_last_var x :
  raises_only no_division (select_last_var x).
Proof.
  unfold raises_only, no_division, select_last_var, select_last. prim_raises.
Qed.

Lemma no_division_permute_var x d : raises_only no_division (permute_var x d).
Proof.
  unfold raises_only, no_division, permute_var, permute. prim_raises.
Qed.

Lemma no_division_view_var x s : raises_only no_division (view_var x s).
Proof. unfold raises_only, no_division, view_var, view. prim_raises. Qed.

Lemma no_division_criterion o l : raises_only no_division (criterion o l).
Proof. unfold raises_only, no_division, criterion. prim_raises. Qed.

Lemma no_division_hidden :
  raises_only no_division (fun w => inr (hidden_size w, w)).
Proof. intros w e H. discriminate. Qed.

Lemma no_division_size t d : raises_only no_division (lift (size t d)).
Proof. apply raises_only_lift, size_no_division. Qed.

Lemma no_division_mul_int x n : raises_only no_division (lift (mul_int x n)).
Proof. apply raises_only_lift, mul_int_no_division. Qed.

Create HintDb no_division_db.
#[local] Hint Resolve no_division_DataLoader no_division_dropout
  no_division_extract_features no_division_nn_LSTM no_division_fc
  no_division_select_last_var no_division_permute_var no_division_view_var
  no_division_criterion no_division_hidden no_division_size
  no_division_mul_int : no_division_db.

Ltac walk_raises :=
  repeat first
    [ solve [eauto with no_division_db]
    | apply raises_only_ret
    | apply raises_only_no_grad
    | apply raises_only_for_each; intros ? ?
    | apply raises_only_bind; [ | intros ? ] ].

Lemma no_division_validate_step st b :
  raises_only no_division (validate_step st b).
Proof.
  destruct b as [inputs labels].
  unfold validate_step, CombinedModel_forward, LSTMModel_forward, update_stats.
  walk_raises.
Qed.

Lemma no_division_validate_loop va :
  raises_only no_division (validate_loop va).
Proof.
  unfold validate_loop. apply raises_only_no_grad.
  apply raises_only_bind; [apply no_division_DataLoader |].
  intros bs. apply raises_only_for_each. apply no_division_validate_step.
Qed.

Lemma div_int_zero_division x n :
  div_int x n = inl ZeroDivisionError -> n = 0%Z.
Proof.
  unfold div_int. destruct n; [done | |]; intros H;
    destruct (float_of_int _) as [e |] eqn:E; simplify_eq;
    by apply float_of_int_overflow in E.
Qed.

Lemma int_truediv_zero_division a b :
  int_truediv a b = inl ZeroDivisionError -> b = 0%Z.
Proof.
  unfold int_truediv. destruct b; [done | |]; intros H;
    (destruct a; [done | |]);
    repeat case_match; simplify_eq.
Qed.

(** The samples a validation loop that went through has counted. *)
Lemma validate_loop_total va w st w1 :
  validate_loop va w = inr (st, w1) ->
  total_samples st = Z.of_nat (length va).
Proof.
  intros Hloop. unfold validate_loop, no_grad in Hloop.
  destruct (bind _ _ (set_grad_enabled false w))
    as [? | [st0 w0]] eqn:Hin; [done |].
  injection Hloop as -> <-.
  apply bind_inr in Hin as (batches & w2 & HD & HF).
  destruct (DataLoader_batches _ _ _ _ _ HD)
    as (order & ss & _ & _ & Hss & Hseen & _).
  rewrite (Hss eq_refl) in Hseen.
  destruct (for_each_tallied _ _ validate_step_accounts _ _ _ _ HF)
    as (os & Ht).
  apply fsum_tallied in Ht as (_ & _ & Htot). by rewrite Htot, Hseen.
Qed.

(** X2.  [validate] raises [ZeroDivisionError] on an empty validation
    set, at [val_loss / len(val_loader.dataset)], and on no other. *)
Theorem validate_divides_by_zero_iff_empty va w :
  validate va w = inl ZeroDivisionError <-> va = [].
Proof.
  split; [| intros ->; reflexivity].
  intros H. unfold validate in H.
  apply bind_inl in H as [H | (? & w0 & H0 & H)]; [done |].
  apply bind_inl in H as [H | (st & w1 & H1 & H)].
  { by apply no_division_validate_loop in H. }
  apply validate_loop_total in H1.
  apply bind_inl in H as [H | (l & w2 & H2 & H)].
  { unfold lift in H. case_match eqn:E; simplify_eq.
    apply div_int_zero_division in E. destruct va; [done | simpl in E; lia]. }
  apply bind_inl in H as [H | (a & w3 & H3 & H)]; [| discriminate].
  unfold lift in H. case_match eqn:E; simplify_eq.
  apply int_truediv_zero_division in E. rewrite H1 in E.
  destruct va; [done | simpl in E; lia].
Qed.


(* =================================================================== *)
(** ** A feature map of another channel depth *)
(* =================================================================== *)

(** Up to the sequence: extraction, permutation and view of a contiguous
    [(B, C, H, W)] feature map go through. *)
Lemma forward_to_sequence x w B C H W :
  let f := feature_map (value x) w in
  contiguous f -> shape f = [B; C; H; W] ->
  0 < B -> 0 < C -> 0 < H -> 0 < W ->
  exists s,
    shape s = [B; H * W; C] /\
    CombinedModel_forward x w
    = (d <- dropout (Var s ∅) ;; LSTMModel_forward d)
        (after_features (value x) w).
Proof.
  intros f (Hst & Hoff & Hlen) Hsh HB HC HH HW.
  destruct (view_channels_last B C H W (offset f) (storage f) HB HC HH HW)
    as (st & Hview & _).
  cbn zeta in Hview.
  eexists. split; [| unfold CombinedModel_forward;
    unfold bind at 1; rewrite no_grad_extract_features; fold f;
    unfold bind at 1; unfold permute_var; cbn [value leaves];
    rewrite (permute_channels_last f B C H W Hst Hsh), keep_leaves_empty;
    unfold bind at 1, lift, size; cbn [value shape lookup list_lookup];
    unfold bind at 1, lift, size; cbn [value shape lookup list_lookup];
    unfold bind at 1, lift, size; cbn [value shape lookup list_lookup];
    unfold bind at 1; unfold view_var; cbn [value leaves];
    rewrite Hview, keep_leaves_empty; reflexivity].
  reflexivity.
Qed.

(** X3.  When the channel depth of the feature map is not the input
    width the recurrent network was built with, the forward pass raises at
    the recurrent layer; the permutation and the view before it go
    through. *)
Theorem forward_refuses_other_depth x w B C H W :
  let f := feature_map (value x) w in
  contiguous f -> shape f = [B; C; H; W] ->
  0 < B -> 0 < C -> 0 < H -> 0 < W ->
  C <> input_size w ->
  CombinedModel_forward x w
  = inl (RuntimeError "input.size(-1) must be equal to input_size").
Proof.
  intros f Hc Hsh HB HC HH HW Hne.
  destruct (forward_to_sequence x w B C H W Hc Hsh HB HC HH HW)
    as (s & Hs & ->).
  destruct (dropout_layout (Var s ∅) (after_features (value x) w))
    as (d & w2 & Hd & Hdsh & _ & _ & _ & Hin & _).
  cbn [value] in Hdsh. rewrite Hs in Hdsh.
  unfold bind at 1. rewrite Hd.
  unfold LSTMModel_forward. unfold bind at 1, lift, size.
  rewrite Hdsh. cbn [lookup list_lookup]. unfold bind at 1.
  unfold bind at 1. unfold nn_LSTM. rewrite Hdsh.
  rewrite bool_decide_false; [done |].
  rewrite Hin. exact Hne.
Qed.


(* =================================================================== *)
(** ** What one training iteration does to the classifier *)
(* =================================================================== *)

Lemma keep_leaves_idemp w L : keep_leaves w (keep_leaves w L) = keep_leaves w L.
Proof. unfold keep_leaves. by destruct (grad_enabled w). Qed.

Lemma keep_leaves_same w w' L :
  grad_enabled w' = grad_enabled w -> keep_leaves w' L = keep_leaves w L.
Proof. unfold keep_leaves. by intros ->. Qed.

Lemma dropout_graph x w d w' L :
  leaves x = keep_leaves w L -> dropout x w = inr (d, w') ->
  leaves d = keep_leaves w L /\
  grad_enabled w' = grad_enabled w /\ lstm_model w' = lstm_model w.
Proof.
  intros Hx H. unfold dropout in H. repeat case_match; simplify_eq; simpl.
  - by rewrite Hx, keep_leaves_idemp.
  - done.
Qed.

(** The logits of a forward pass reach exactly the recurrent
    classifier's parameters, when gradient tracking is on. *)
Lemma forward_graph x w v w' :
  CombinedModel_forward x w = inr (v, w') ->
  leaves v = keep_leaves w (classifier_leaves w) /\
  grad_enabled w' = grad_enabled w.
Proof.
  unfold CombinedModel_forward. intros H.
  apply bind_inr in H as (x1 & w1 & H1 & H).
  rewrite no_grad_extract_features in H1. injection H1 as <- <-.
  set (w1 := after_features (value x) w) in *.
  assert (grad_enabled w1 = grad_enabled w) as G1 by reflexivity.
  assert (lstm_model w1 = lstm_model w) as M1 by reflexivity.
  apply bind_inr in H as (x2 & w2 & H2 & H).
  assert (leaves x2 = ∅ /\ w2 = w1) as [L2 ->].
  { unfold permute_var in H2. case_match; simplify_eq. simpl.
    by rewrite keep_leaves_empty. }
  apply bind_inr in H as (n0 & w3 & [_ ->]%lift_inr & H).
  apply bind_inr in H as (n1 & w4 & [_ ->]%lift_inr & H).
  apply bind_inr in H as (n2 & w5 & [_ ->]%lift_inr & H).
  apply bind_inr in H as (x3 & w6 & H3 & H).
  assert (leaves x3 = keep_leaves w1 ∅ /\ w6 = w1) as [L3 ->].
  { unfold view_var in H3. case_match; simplify_eq. simpl. by rewrite L2. }
  apply bind_inr in H as (x4 & w7 & H4 & H).
  apply (dropout_graph _ _ _ _ ∅ L3) in H4 as (L4 & G4 & M4).
  unfold LSTMModel_forward in H.
  apply bind_inr in H as (b & w8 & [_ ->]%lift_inr & H).
  apply bind_inr in H as (hs & w9 & Hh & H). injection Hh as _ <-.
  apply bind_inr in H as (x5 & w10 & H5 & H).
  assert (leaves x5
          = op_leaves w7 (leaves x4) Recurrent (String.prefix "lstm.")
          /\ w10 = w7) as [L5 ->].
  { unfold nn_LSTM in H5. repeat case_match; by simplify_eq. }
  apply bind_inr in H as (x6 & w11 & H6 & H).
  assert (leaves x6 = keep_leaves w7 (leaves x5) /\ w11 = w7) as [L6 ->].
  { unfold select_last_var in H6. case_match; by simplify_eq. }
  rewrite L5 in L6. unfold op_leaves in L6. rewrite keep_leaves_idemp in L6.
  apply bind_inr in H as (x7 & w12 & H7 & H).
  apply (dropout_graph _ _ _ _ _ L6) in H7 as (L7 & G7 & M7).
  assert (leaves v = op_leaves w12 (leaves x7) Recurrent (String.prefix "fc.")
          /\ w' = w12) as [-> ->].
  { unfold fc in H. repeat case_match; by simplify_eq. }
  split; [| congruence].
  unfold op_leaves. rewrite L7, L4, M7, M4, M1.
  unfold keep_leaves, classifier_leaves.
  rewrite G7, G4, G1. destruct (grad_enabled w); [| done].
  by rewrite (left_id_L ∅ (∪)).
Qed.

Lemma elem_of_classifier_leaves w k :
  (Recurrent, k) ∈ classifier_leaves w <->
  is_Some (lstm_model w !! k) /\
  (String.prefix "lstm." k || String.prefix "fc." k) = true.
Proof.
  unfold classifier_leaves.
  rewrite elem_of_union, !elem_of_map.
  setoid_rewrite elem_of_filter. setoid_rewrite elem_of_dom.
  rewrite orb_true_iff. split.
  - intros [(k' & E & ? & ?) | (k' & E & ? & ?)]; simplify_eq; auto.
  - intros [? [? | ?]]; [left | right]; exists k; auto.
Qed.

Lemma param_data_cleared (ps : gmap string parameter) :
  data <$> ((fun p => Param (data p) None) <$> ps) = data <$> ps.
Proof.
  apply map_eq. intros k. rewrite !lookup_fmap.
  by destruct (ps !! k).
Qed.

#[local] Instance owner_key_inj (o : owner) : Inj (=) (=) (fun k : string => (o, k)).
Proof. intros k1 k2 H. by injection H. Qed.

(** X4.  One iteration of the training loop gives every [lstm.*] and
    [fc.*] parameter of the recurrent classifier the gradient of the
    current batch alone, whatever gradient it held before, and Adam's
    update on that gradient; the optimizer's slot of the parameter is
    renewed.  A parameter of that module under another name is handed back
    with no gradient. *)
Theorem train_step_applies_batch_gradient st b w st' w' k p :
  train_step st b w = inr (st', w') ->
  lstm_model w !! k = Some p ->
  let g := batch_gradient w b (Recurrent, k) in
  let slot := adam_state w !! (Recurrent, k) in
  if String.prefix "lstm." k || String.prefix "fc." k then
    lstm_model w' !! k
    = Some (Param (adam_update slot (data p) g).1 (Some g)) /\
    adam_state w' !! (Recurrent, k) = Some (adam_update slot (data p) g).2
  else
    lstm_model w' !! k = Some (Param (data p) None) /\
    adam_state w' !! (Recurrent, k) = slot.
Proof.
  destruct b as [inputs labels]. unfold train_step. intros H Hk.
  apply bind_inr in H as (? & w1 & H1 & H).
  unfold zero_grad in H1. injection H1 as _ <-.
  apply bind_inr in H as (w0 & w1' & H0 & H).
  unfold get_world in H0. injection H0 as <- <-.
  set (w1 := set_lstm _ _ _ _) in *.
  assert (param_data w1 Extractor = param_data w Extractor) as PE
      by apply param_data_cleared.
  assert (param_data w1 Recurrent = param_data w Recurrent) as PR
      by apply param_data_cleared.
  assert (lstm_model w1 !! k = Some (Param (data p) None)) as Hk1
      by (subst w1; simpl; by rewrite lookup_fmap, Hk).
  apply bind_inr in H as (outputs & w2 & H2 & H).
  pose proof (forward_graph _ _ _ _ H2) as [Lv G2].
  apply steady_CombinedModel_forward in H2 as (_ & M2 & A2 & _).
  apply bind_inr in H as ([l lv] & w3 & H3 & H).
  apply criterion_inr in H3 as (-> & _ & -> & _).
  apply bind_inr in H as (? & w4 & H4 & H).
  unfold backward in H4. case_bool_decide as Hlv; [done |].
  injection H4 as _ <-.
  apply bind_inr in H as (? & w5 & H5 & H).
  unfold optimizer_step in H5. injection H5 as _ <-.
  apply update_stats_inr in H as [-> _].
  rewrite Lv, (keep_leaves_same _ _ _ G2), keep_leaves_idemp in Hlv |- *.
  unfold keep_leaves in Hlv |- *.
  destruct (grad_enabled w1); [| done].
  cbn [lstm_model adam_state set_adam_state set_lstm set_effnet fst snd].
  fold w1. rewrite M2, A2. change (adam_state w1) with (adam_state w).
  change (rng w1) with (rng w). rewrite PE, PR.
  unfold adam_params, adam_slots, batch_gradient. cbn zeta. cbn [fst snd].
  rewrite !map_lookup_imap, Hk1. cbn [bind option_bind mbind].
  rewrite !lookup_union.
  rewrite (proj2 (lookup_kmap_None (fun k0 : string => (Extractor, k0)) _
                    (Recurrent, k))) by (intros i Hi; discriminate Hi).
  rewrite (lookup_kmap (fun k0 : string => (Recurrent, k0))).
  rewrite !map_lookup_imap, Hk1. cbn [bind option_bind mbind].
  destruct (String.prefix "lstm." k || String.prefix "fc." k) eqn:E.
  - rewrite bool_decide_true
      by (apply elem_of_classifier_leaves; split; [by eexists | done]).
    cbn [accumulate grad data]. split; [done |].
    by rewrite (left_id_L None (∪)), union_Some_l.
  - rewrite bool_decide_false.
    2:{ intros [_ Hp]%elem_of_classifier_leaves. congruence. }
    cbn [grad data]. split; [done |].
    by rewrite !(left_id_L None (∪)).
Qed.


(* =================================================================== *)
(** ** Checkpoints, written and read back *)
(* =================================================================== *)

(** The state of a module after its tensors were replaced through
    [pick]. *)
Lemma state_dict_picked (pick : string -> tensor -> tensor)
      (ps : gmap string parameter) (bufs : gmap string tensor) k :
  state_dict
    (map_imap (fun k p => Some (Param (pick k (data p)) (grad p))) ps)
    (map_imap (fun k b => Some (pick k b)) bufs) !! k
  = pick k <$> (state_dict ps bufs !! k).
Proof.
  unfold state_dict. rewrite !lookup_union, !lookup_fmap, !map_lookup_imap.
  destruct (ps !! k) as [p |], (bufs !! k) as [b |]; done.
Qed.

Lemma state_dict_picked_params (pick : string -> tensor -> tensor)
      (ps : gmap string parameter) k :
  state_dict
    (map_imap (fun k p => Some (Param (pick k (data p)) (grad p))) ps) ∅ !! k
  = pick k <$> (state_dict ps ∅ !! k).
Proof.
  unfold state_dict.
  rewrite !(right_id_L ∅ (∪)), !lookup_fmap, !map_lookup_imap.
  by destruct (ps !! k) as [p |].
Qed.

Lemma lookup_kmap_picked (prefix : string) (m m' : gmap string tensor)
      (f : string -> tensor -> tensor) K :
  (forall k, m' !! k = f (String.append prefix k) <$> (m !! k)) ->
  kmap (M2:=gmap string) (String.append prefix) m' !! K
  = f K <$> (kmap (M2:=gmap string) (String.append prefix) m !! K).
Proof.
  intros Hm.
  destruct (kmap (M2:=gmap string) (String.append prefix) m !! K)
    as [t |] eqn:E.
  - apply lookup_kmap_Some in E as (k & -> & E); [| apply _].
    by rewrite (lookup_kmap (String.append prefix)), Hm, E.
  - rewrite lookup_kmap_None in E by apply _.
    apply lookup_kmap_None; [apply _ |].
    intros k ->. by rewrite Hm, (E k eq_refl).
Qed.

Lemma combined_state_dict_picked (sd : gmap string tensor) (w : world)
      (K : string) :
  let pick prefix k (old : tensor) :=
    default old (sd !! String.append prefix k) in
  let w' :=
    set_lstm
      (map_imap (fun k p => Some (Param (pick "lstm_model." k (data p))
                                        (grad p)))
                (lstm_model w))
      (input_size w) (hidden_size w)
      (set_effnet
         (map_imap (fun k p => Some (Param (pick "effnet_model." k (data p))
                                           (grad p)))
                   (effnet_model w))
         (map_imap (fun k b => Some (pick "effnet_model." k b))
                   (effnet_buffers w))
         w) in
  combined_state_dict w' !! K
  = (fun old => default old (sd !! K)) <$> (combined_state_dict w !! K).
Proof.
  intros pick w'. unfold combined_state_dict.
  cbn [w' effnet_model effnet_buffers lstm_model set_lstm set_effnet].
  rewrite !lookup_union.
  rewrite (lookup_kmap_picked "effnet_model."
             (state_dict (effnet_model w) (effnet_buffers w)) _
             (fun K old => default old (sd !! K)))
    by (intros k; apply (state_dict_picked (pick "effnet_model."))).
  rewrite (lookup_kmap_picked "lstm_model."
             (state_dict (lstm_model w) ∅) _
             (fun K old => default old (sd !! K)))
    by (intros k; apply (state_dict_picked_params (pick "lstm_model."))).
  by destruct (kmap _ (state_dict (effnet_model w) _) !! K),
              (kmap _ (state_dict (lstm_model w) _) !! K).
Qed.


Lemma lookup_combined_effnet w k :
  combined_state_dict w !! String.append "effnet_model." k
  = state_dict (effnet_model w) (effnet_buffers w) !! k.
Proof.
  unfold combined_state_dict.
  rewrite lookup_union, (lookup_kmap (String.append "effnet_model.")).
  rewrite (proj2 (lookup_kmap_None (String.append "lstm_model.") _ _)).
  - by rewrite (right_id_L None (∪)).
  - intros i Hi. discriminate Hi.
Qed.

Lemma lookup_combined_lstm w k :
  combined_state_dict w !! String.append "lstm_model." k
  = data <$> (lstm_model w !! k).
Proof.
  unfold combined_state_dict.
  rewrite lookup_union, (lookup_kmap (String.append "lstm_model.")).
  rewrite (proj2 (lookup_kmap_None (String.append "effnet_model.") _ _)).
  - rewrite (left_id_L None (∪)). unfold state_dict.
    by rewrite (right_id_L ∅ (∪)), lookup_fmap.
  - intros i Hi. discriminate Hi.
Qed.

Lemma world_eta (w : world) :
  set_lstm (lstm_model w) (input_size w) (hidden_size w)
           (set_effnet (effnet_model w) (effnet_buffers w) w) = w.
Proof. by destruct w. Qed.

(** X6.  A checkpoint written as line 156 writes it can be read back
    into the model it came from: the load is accepted and hands the same
    parameters, gradient slots and buffers back.  Parameter and buffer
    names of a module are distinct. *)
Theorem best_checkpoint_reloads w :
  dom (effnet_model w) ## dom (effnet_buffers w) ->
  (torch_save (combined_state_dict w) "model_best.pth" ;;;
   sd <- torch_load "model_best.pth" ;;
   combined_load_state_dict sd) w
  = inr (tt, set_disk_log
               (<["model_best.pth" := combined_state_dict w]> (disk w))
               (log w ++ [Saved "model_best.pth" (combined_state_dict w)])
               w).
Proof.
  intros Hdisj. unfold bind, torch_save, torch_load.
  cbn [disk set_disk_log]. rewrite lookup_insert_eq.
  set (w1 := set_disk_log _ _ w).
  unfold combined_load_state_dict.
  rewrite bool_decide_true by reflexivity.
  change (combined_state_dict w1) with (combined_state_dict w).
  do 2 f_equal. etrans; [| exact (world_eta w1)].
  change (lstm_model w1) with (lstm_model w).
  change (effnet_model w1) with (effnet_model w).
  change (effnet_buffers w1) with (effnet_buffers w).
  f_equal; [| f_equal].
  - apply map_eq. intros k. rewrite map_lookup_imap.
    destruct (lstm_model w !! k) as [p |] eqn:E; [| done]. cbn.
    rewrite lookup_combined_lstm, E. by destruct p.
  - apply map_eq. intros k. rewrite map_lookup_imap.
    destruct (effnet_model w !! k) as [p |] eqn:E; [| done]. cbn.
    rewrite lookup_combined_effnet. unfold state_dict.
    erewrite lookup_union_Some_l by (by rewrite lookup_fmap, E).
    by destruct p.
  - apply map_eq. intros k. rewrite map_lookup_imap.
    destruct (effnet_buffers w !! k) as [b |] eqn:E; [| done]. cbn.
    rewrite lookup_combined_effnet. unfold state_dict.
    rewrite lookup_union_r, E; [done |].
    rewrite lookup_fmap.
    destruct (effnet_model w !! k) eqn:E'; [| done].
    exfalso. apply (Hdisj k); apply elem_of_dom; eauto.
Qed.


(* =================================================================== *)
(** ** The file the best checkpoint is in *)
(* =================================================================== *)

Lemma le_key x y :
  le x y = true <->
  is_nan x = false /\ is_nan y = false /\
  (lex_lt (key x) (key y) \/ key x = key y).
Proof.
  unfold le, SFleb, lex_lt.
  destruct x as [sx | sx | | sx mx ex], y as [sy | sy | | sy my ey];
    try destruct sx; try destruct sy; cbn [SFcompare key is_nan fst snd];
    try (split; [discriminate
                | intros (? & ? & [? | ?]); (discriminate || lia)]);
    try (split; [intros _; repeat split; (by right) || (left; lia) | done]).
  all: change (Pos.compare_cont Eq mx my) with (mx ?= my)%positive.
  all: destruct (Z.compare_spec ex ey); destruct (Pos.compare_spec mx my);
    cbn [CompOpp];
    (split; [ try discriminate; intros _; repeat split;
              ((right; congruence) || (left; lia))
            | intros (_ & _ & [? | ?]); try reflexivity; exfalso;
              (lia || (simplify_eq; lia)) ]).
Qed.

Lemma lt_irrefl x : lt x x = false.
Proof.
  destruct (lt x x) eqn:E; [| done].
  apply lt_key in E as (_ & _ & E). unfold lex_lt in E. lia.
Qed.

Lemma le_or_lt x y :
  is_nan x = false -> is_nan y = false -> le x y = true \/ lt y x = true.
Proof.
  intros Hx Hy. rewrite le_key, lt_key. unfold lex_lt.
  destruct (key x) as [[a b] c] eqn:Ex, (key y) as [[a' b'] c'] eqn:Ey.
  cbn [fst snd].
  destruct (decide (a = a' /\ b = b' /\ c = c')) as [(-> & -> & ->) | Hne].
  - left. repeat split; try done. by right.
  - destruct (decide ((a < a')%Z \/ (a = a' /\ ((b < b')%Z
                        \/ (b = b' /\ (c < c')%Z))))).
    + left. repeat split; try done. by left.
    + right. repeat split; try done. lia.
Qed.

Lemma le_not_lt x y : le x y = true -> lt y x = false.
Proof.
  intros H. destruct (lt y x) eqn:E; [| done].
  apply le_key in H as (_ & _ & H). apply lt_key in E as (_ & _ & E).
  unfold lex_lt in *.
  destruct (key x) as [[a b] c], (key y) as [[a' b'] c']. cbn [fst snd] in *.
  destruct H as [H | H]; [lia | simplify_eq; lia].
Qed.

Lemma foldl_keep_best_not_nan vals : forall best,
  is_nan best = false -> is_nan (foldl keep_best best vals) = false.
Proof.
  induction vals as [| v vals IH]; intros best Hb; [done |].
  simpl. by apply IH, keep_best_not_nan.
Qed.

(** The running minimum is below every loss that is a number. *)
Lemma foldl_keep_best_least vals best v :
  is_nan best = false -> v ∈ vals -> is_nan v = false ->
  le (foldl keep_best best vals) v = true.
Proof.
  intros Hb Hv Hnan.
  destruct (le_or_lt (foldl keep_best best vals) v) as [H | H];
    [by apply foldl_keep_best_not_nan | done | done |].
  apply below_foldl_keep_best in H as [_ H]; [| done].
  specialize (H v Hv Hnan). by rewrite lt_irrefl in H.
Qed.

Lemma keep_best_lt best v : lt v best = true -> keep_best best v = v.
Proof. unfold keep_best. by intros ->. Qed.

Lemma keep_best_not_lt best v : lt v best = false -> keep_best best v = best.
Proof. unfold keep_best. by intros ->. Qed.

Lemma last_saved_snoc rs r :
  last_saved (rs ++ [r])
  = match checkpoint r with Some _ => Some r | None => last_saved rs end.
Proof. unfold last_saved. by rewrite foldl_app. Qed.

(** When every epoch saves exactly if its loss is below the best so
    far, the best at the end is the loss of the last epoch that saved. *)
Lemma last_saved_best best rs :
  (forall i r, rs !! i = Some r ->
     (is_Some (checkpoint r) <->
      lt (val_loss r)
         (foldl keep_best best (take i (val_loss <$> rs))) = true)) ->
  match last_saved rs with
  | Some r => r ∈ rs /\ is_Some (checkpoint r) /\
              foldl keep_best best (val_loss <$> rs) = val_loss r
  | None => (forall r, r ∈ rs -> checkpoint r = None) /\
            foldl keep_best best (val_loss <$> rs) = best
  end.
Proof.
  induction rs as [| r rs IH] using rev_ind; intros Hrs.
  - split; [intros r Hr; inversion Hr | done].
  - assert (is_Some (checkpoint r) <->
            lt (val_loss r) (foldl keep_best best (val_loss <$> rs)) = true)
      as Hr.
    { specialize (Hrs (length rs) r).
      rewrite lookup_app_r, Nat.sub_diag in Hrs by lia.
      rewrite fmap_app, take_app_length' in Hrs by (by rewrite length_fmap).
      by apply Hrs. }
    assert (forall i r0, rs !! i = Some r0 ->
              (is_Some (checkpoint r0) <->
               lt (val_loss r0)
                  (foldl keep_best best (take i (val_loss <$> rs))) = true))
      as Hrs'.
    { intros i r0 Hi. specialize (Hrs i r0).
      rewrite lookup_app_l in Hrs by (by eapply lookup_lt_Some).
      rewrite fmap_app, take_app_le in Hrs
        by (rewrite length_fmap; apply Nat.lt_le_incl;
            by eapply lookup_lt_Some).
      by apply Hrs. }
    specialize (IH Hrs').
    rewrite last_saved_snoc, fmap_app, foldl_app. cbn [fmap list_fmap foldl].
    destruct (checkpoint r) as [sd |] eqn:C.
    + rewrite keep_best_lt by (apply Hr; eauto).
      split; [apply elem_of_app; right; by left |].
      split; [by rewrite C | done].
    + assert (keep_best (foldl keep_best best (val_loss <$> rs)) (val_loss r)
              = foldl keep_best best (val_loss <$> rs)) as ->.
      { apply keep_best_not_lt.
        destruct (lt (val_loss r) _) eqn:E; [| done].
        destruct (proj2 Hr eq_refl) as [? ?]. done. }
      destruct (last_saved rs) as [r0 |].
      * destruct IH as (? & ? & ?).
        split; [apply elem_of_app; by left | done].
      * destruct IH as [Hnone ?]. split; [| done].
        intros r' [? | ->%list_elem_of_singleton]%elem_of_app; auto.
Qed.

Lemma save_report_other d rs f :
  f <> "model_best.pth" -> foldl save_report d rs !! f = d !! f.
Proof.
  intros Hf. revert d. induction rs as [| r rs IH]; intros d; [done |].
  simpl. rewrite IH. unfold save_report.
  destruct (checkpoint r); [by rewrite lookup_insert_ne | done].
Qed.

Lemma save_report_best d rs :
  foldl save_report d rs !! "model_best.pth"
  = match last_saved rs with
    | Some r => checkpoint r
    | None => d !! "model_best.pth"
    end.
Proof.
  induction rs as [| r rs IH] using rev_ind; [done |].
  rewrite foldl_app, last_saved_snoc. cbn [foldl]. unfold save_report at 1.
  destruct (checkpoint r) as [sd |] eqn:C.
  - by rewrite lookup_insert_eq, C.
  - exact IH.
Qed.

(** One epoch: what it prints, what it keeps as the best loss, and what
    it leaves on the disk. *)
Lemma train_epoch_effect tr va n best e w b' w' :
  train_epoch tr va n best e w = inr (b', w') ->
  exists r,
    log w' = log w ++ epoch_log n e r /\
    b' = keep_best best (val_loss r) /\
    (is_Some (checkpoint r) <-> lt (val_loss r) best = true) /\
    disk w' = save_report (disk w) r.
Proof.
  unfold train_epoch. intros H.
  apply bind_inr in H as (? & w1 & H1 & H).
  apply bind_inr in H as (batches & w2 & H2 & H).
  apply bind_inr in H as (st & w3 & H3 & H).
  apply bind_inr in H as (el & w4 & H4 & H).
  apply bind_inr in H as (ea & w5 & H5 & H).
  apply bind_inr in H as (? & w6 & H6 & H).
  apply bind_inr in H as ([vl vacc] & w7 & H7 & H).
  apply bind_inr in H as (? & w8 & H8 & H).
  apply quiet_model_mode in H1 as [L1 D1].
  apply quiet_DataLoader in H2 as [L2 D2].
  apply (keeps_for_each quiet) in H3 as [L3 D3];
    [| apply quiet_train_step].
  apply lift_inr in H4 as [_ ->]. apply lift_inr in H5 as [_ ->].
  unfold print in H6. injection H6 as _ <-.
  apply quiet_validate in H7 as [L7 D7].
  unfold print in H8. injection H8 as _ <-.
  unfold save_if_best in H. simpl in *. destruct (lt vl best) eqn:E.
  - apply bind_inr in H as (wx & w9 & H9 & H).
    unfold get_world in H9. injection H9 as <- <-.
    apply bind_inr in H as (? & w10 & H10 & H).
    unfold torch_save in H10. injection H10 as _ <-.
    apply ret_inr in H as [-> ->].
    exists (Report el ea vl vacc (Some (combined_state_dict w7))).
    unfold epoch_log, keep_best, save_report. simpl. rewrite E.
    split; [| split; [done | split; [split; eauto |]]].
    + rewrite L7. simpl. rewrite L3, L2, L1. by rewrite <- !app_assoc.
    + rewrite D7. simpl. by rewrite D3, D2, D1.
  - apply ret_inr in H as [-> ->].
    exists (Report el ea vl vacc None).
    unfold epoch_log, keep_best, save_report. simpl. rewrite E.
    split; [| split; [done | split; [split; [by intros [? ?] | done] |]]].
    + rewrite L7. simpl. rewrite L3, L2, L1. by rewrite <- !app_assoc.
    + rewrite D7. simpl. by rewrite D3, D2, D1.
Qed.

Lemma train_epochs_effect tr va n es : forall best w b' w',
  for_each (train_epoch tr va n) best es w = inr (b', w') ->
  exists rs,
    length rs = length es /\
    log w' = log w ++ concat (zip_with (epoch_log n) es rs) /\
    disk w' = foldl save_report (disk w) rs /\
    (forall i r, rs !! i = Some r ->
      (is_Some (checkpoint r) <->
       lt (val_loss r)
          (foldl keep_best best (take i (val_loss <$> rs))) = true)).
Proof.
  induction es as [| e es IH]; intros best w b' w' H; simpl in H.
  - apply ret_inr in H as [-> ->]. exists []. simpl.
    split; [done | split; [by rewrite app_nil_r | split; [done |]]].
    intros i r Hr. done.
  - apply bind_inr in H as (b1 & w1 & H1 & H).
    apply train_epoch_effect in H1 as (r & L1 & -> & C1 & D1).
    apply IH in H as (rs & Hlen & L & D & Hrs).
    exists (r :: rs). simpl. split; [| split; [| split]].
    + by rewrite Hlen.
    + rewrite L, L1. by rewrite <- !app_assoc.
    + by rewrite D, D1.
    + intros [| i] r' Hr'; simpl in *.
      * by injection Hr' as <-.
      * by apply Hrs.
Qed.

(** X7.  When [train] returns, [model_best.pth] holds the checkpoint of
    the last epoch that saved, and no epoch of the run had a validation
    loss (NaN apart) below that epoch's.  If no epoch saved, the file is as
    it was before the call, and no validation loss was below +infinity. *)
Theorem best_checkpoint_has_least_loss tr va n w u w' :
  train tr va n w = inr (u, w') ->
  exists rs,
    length rs = n /\
    log w' = log w ++ concat (zip_with (epoch_log n) (seq 0 n) rs) /\
    match last_saved rs with
    | Some r =>
      r ∈ rs /\ is_Some (checkpoint r) /\
      disk w' !! "model_best.pth" = checkpoint r /\
      (forall r', r' ∈ rs -> is_nan (val_loss r') = false ->
                  le (val_loss r) (val_loss r') = true)
    | None =>
      disk w' !! "model_best.pth" = disk w !! "model_best.pth" /\
      (forall r', r' ∈ rs ->
                  checkpoint r' = None /\ lt (val_loss r') inf = false)
    end.
Proof.
  unfold train. intros H.
  apply bind_inr in H as (b & w1 & H & Hret).
  apply ret_inr in Hret as [_ ->].
  apply train_epochs_effect in H as (rs & Hlen & L & D & Hrs).
  rewrite length_seq in Hlen.
  exists rs. split; [done | split; [done |]].
  pose proof (last_saved_best inf rs Hrs) as Hlast.
  pose proof (save_report_best (disk w) rs) as Hfile. rewrite <- D in Hfile.
  assert (forall r', r' ∈ rs -> is_nan (val_loss r') = false ->
            le (foldl keep_best inf (val_loss <$> rs)) (val_loss r') = true)
    as Hleast.
  { intros r' Hr' Hnan. apply foldl_keep_best_least; [done | | done].
    apply list_elem_of_fmap. by exists r'. }
  destruct (last_saved rs) as [r |].
  - destruct Hlast as (Hin & Hsome & Hbest).
    split; [done | split; [done | split; [done |]]].
    intros r' Hr' Hnan. rewrite <- Hbest. by apply Hleast.
  - destruct Hlast as [Hnone Hbest]. split; [done |].
    intros r' Hr'. split; [by apply Hnone |].
    destruct (is_nan (val_loss r')) eqn:Hnan; [by apply lt_is_nan |].
    apply le_not_lt. rewrite <- Hbest at 1. by apply Hleast.
Qed.

(** X8.  From the call of [train] to the end of the script, two files
    are written and no other: whatever else is on the disk, the two
    checkpoints the script reads included, is left as it was. *)
Theorem training_writes_two_files_only tr va w u w' f :
  train_and_save tr va w = inr (u, w') ->
  f <> "model_best.pth" -> f <> "model.pth" ->
  disk w' !! f = disk w !! f.
Proof.
  unfold train_and_save. intros H Hf1 Hf2.
  apply bind_inr in H as ([] & w_t & Ht & H).
  apply bind_inr in H as (wx & w1 & Hg & H).
  unfold get_world in Hg. injection Hg as <- <-.
  unfold torch_save in H. injection H as _ <-.
  unfold train in Ht.
  apply bind_inr in Ht as (b & w2 & Ht & Hret).
  apply ret_inr in Hret as [_ <-].
  apply train_epochs_effect in Ht as (rs & _ & _ & D & _).
  cbn [disk set_disk_log]. rewrite lookup_insert_ne by done.
  rewrite D. by apply save_report_other.
Qed.

(** X9.  The file [model.pth] the script ends with holds, under each
    parameter name of the extractor, the tensor that parameter had when
    [train] was called: the five epochs add nothing to it.  The extractor's
    parameters hold no gradient when [train] is called. *)
Theorem final_file_holds_the_loaded_parameters tr va w u w' :
  no_extractor_grad w ->
  train_and_save tr va w = inr (u, w') ->
  exists sd,
    disk w' !! "model.pth" = Some sd /\
    dom (effnet_model w) ⊆ dom sd /\
    forall k p, effnet_model w !! k = Some p -> sd !! k = Some (data p).
Proof.
  unfold train_and_save. intros Hw H.
  apply bind_inr in H as ([] & w_t & Ht & H).
  apply bind_inr in H as (wx & w1 & Hg & H).
  unfold get_world in Hg. injection Hg as <- <-.
  unfold torch_save in H. injection H as _ <-.
  pose proof (frozen_train _ _ _ _ _ _ Ht Hw) as E.
  eexists. cbn [disk set_disk_log]. rewrite lookup_insert_eq.
  split; [reflexivity |]. rewrite E. unfold state_dict. split.
  - rewrite dom_union, dom_fmap. apply union_subseteq_l.
  - intros k p Hk. apply lookup_union_Some_l. by rewrite lookup_fmap, Hk.
Qed.


(* =================================================================== *)
(** ** The predicted class *)
(* =================================================================== *)

Lemma le_refl x : is_nan x = false -> le x x = true.
Proof. intros Hx. apply le_key. repeat split; try done. by right. Qed.

Lemma lt_le x y : lt x y = true -> le x y = true.
Proof.
  intros (? & ? & ?)%lt_key. apply le_key. repeat split; try done. by left.
Qed.

Lemma le_lt_trans x y z : le x y = true -> lt y z = true -> lt x z = true.
Proof.
  intros (? & ? & Hxy)%le_key (? & ? & Hyz)%lt_key. apply lt_key.
  repeat split; try done. unfold lex_lt in *.
  destruct Hxy as [Hxy | ->]; [lia | done].
Qed.

Lemma not_le_lt x y :
  is_nan x = false -> is_nan y = false -> le x y = false -> lt y x = true.
Proof.
  intros Hx Hy H. destruct (le_or_lt x y Hx Hy) as [H' | H']; [| done].
  congruence.
Qed.

Lemma le_nan_l x y : is_nan x = true -> le x y = false.
Proof. destruct x; try discriminate. reflexivity. Qed.

(** The scan of a row for its maximum, started after the elements [pre]
    with the running maximum [mx] found at index [idx]. *)
Lemma argmax_from_first_max rest : forall pre idx mx,
  Forall (fun x => is_nan x = false) (pre ++ rest) ->
  pre !! idx = Some mx ->
  (forall j x, pre !! j = Some x -> le x mx = true) ->
  (forall j x, j < idx -> pre !! j = Some x -> lt x mx = true) ->
  exists m,
    (pre ++ rest) !! argmax_from (length pre) idx mx rest = Some m /\
    (forall j x, (pre ++ rest) !! j = Some x -> le x m = true) /\
    (forall j x, j < argmax_from (length pre) idx mx rest ->
                 (pre ++ rest) !! j = Some x -> lt x m = true).
Proof.
  induction rest as [| v rest IH]; intros pre idx mx Hnan Hidx Hmax Hfirst.
  - rewrite app_nil_r. simpl. eauto.
  - assert (is_nan v = false) as Hv.
    { rewrite Forall_app in Hnan. destruct Hnan as [_ Hnan].
      by inversion Hnan. }
    assert (is_nan mx = false) as Hmx.
    { rewrite Forall_app in Hnan. destruct Hnan as [Hnan _].
      rewrite Forall_lookup in Hnan. by eapply Hnan. }
    cbn [argmax_from]. rewrite Hv.
    replace (pre ++ v :: rest) with ((pre ++ [v]) ++ rest) in *
      by (by rewrite <- app_assoc).
    replace (S (length pre)) with (length (pre ++ [v]))
      by (rewrite length_app; simpl; lia).
    destruct (le v mx) eqn:E; cbn [negb].
    + apply IH; [done | by apply lookup_app_l_Some | |].
      * intros j x [Hj | [_ Hj]]%lookup_app_Some; [by eapply Hmax |].
        apply list_lookup_singleton_Some in Hj as [_ <-]. done.
      * intros j x Hj Hx. apply lookup_app_Some in Hx as [Hx | [Hge _]].
        -- by eapply Hfirst.
        -- apply lookup_lt_Some in Hidx. lia.
    + apply (not_le_lt _ _ Hv Hmx) in E.
      apply IH; [done | | |].
      * rewrite lookup_app_r, Nat.sub_diag by lia. done.
      * intros j x [Hj | [_ Hj]]%lookup_app_Some.
        -- apply lt_le. eapply le_lt_trans; [by eapply Hmax | done].
        -- apply list_lookup_singleton_Some in Hj as [_ <-]. by apply le_refl.
      * intros j x Hj Hx. apply lookup_app_Some in Hx as [Hx | [Hge _]].
        -- eapply le_lt_trans; [by eapply Hmax | done].
        -- lia.
Qed.

Lemma argmax_from_first_nan rest : forall i idx mx p v,
  rest !! p = Some v -> is_nan v = true ->
  (forall j x, j < p -> rest !! j = Some x -> is_nan x = false) ->
  argmax_from i idx mx rest = i + p.
Proof.
  induction rest as [| u rest IH]; intros i idx mx p v Hp Hv Hbefore;
    [done |].
  destruct p as [| p]; cbn [argmax_from].
  - injection Hp as ->. rewrite (le_nan_l _ _ Hv), Hv. cbn. lia.
  - assert (is_nan u = false) as Hu by (apply (Hbefore 0 u); [lia | done]).
    rewrite Hu.
    assert (forall j x, j < p -> rest !! j = Some x -> is_nan x = false)
      as Hb' by (intros j x Hj Hx; apply (Hbefore (S j) x); [lia | done]).
    destruct (negb (le u mx)); rewrite (IH _ _ _ p v Hp Hv Hb'); lia.
Qed.

(** X10.  The class [torch.max(outputs, 1)] predicts from a row of
    logits: when no logit is NaN, the index of the first logit that no
    other exceeds, so that on a tie the lower class wins; when some logit
    is NaN, the index of the first NaN. *)
Theorem predicted_class_is_first_maximum xs :
  xs <> [] ->
  (Forall (fun x => is_nan x = false) xs ->
   exists m,
     xs !! argmax xs = Some m /\
     (forall j x, xs !! j = Some x -> le x m = true) /\
     (forall j x, j < argmax xs -> xs !! j = Some x -> lt x m = true)) /\
  (forall p v,
     xs !! p = Some v -> is_nan v = true ->
     (forall j x, j < p -> xs !! j = Some x -> is_nan x = false) ->
     argmax xs = p).
Proof.
  intros Hne. destruct xs as [| x xs]; [done |]. split.
  - intros Hnan. assert (is_nan x = false) as Hx by (by inversion Hnan).
    unfold argmax. cbn [argmax_from]. rewrite (le_refl x Hx), Hx. cbn [negb].
    apply (argmax_from_first_max xs [x] 0 x); [done | done | |].
    + intros [| j] y Hy; [| done]. injection Hy as <-. by apply le_refl.
    + intros j y Hj. lia.
  - intros p v Hp Hv Hbefore. unfold argmax.
    by rewrite (argmax_from_first_nan (x :: xs) 0 0 x p v Hp Hv Hbefore).
Qed.


(* =================================================================== *)
(** ** The classifier head *)
(* =================================================================== *)

Lemma linear_shape o name x w lead n out wt :
  shape (value x) = lead ++ [n] ->
  param_data w o !! String.append name ".weight" = Some wt ->
  shape wt = [out; n] ->
  exists y, linear o name x w = inr (y, w) /\
            shape (value y) = lead ++ [out].
Proof.
  intros Hx Hwt Hsh. unfold linear.
  rewrite Hx, reverse_snoc, Hwt. cbn [default from_option id]. rewrite Hsh.
  rewrite bool_decide_true by done. rewrite reverse_involutive.
  eexists. split; reflexivity.
Qed.

Lemma linear_mismatch o name x w lead m n out wt :
  shape (value x) = lead ++ [m] ->
  param_data w o !! String.append name ".weight" = Some wt ->
  shape wt = [out; n] -> m <> n ->
  linear o name x w
  = inl (RuntimeError "mat1 and mat2 shapes cannot be multiplied").
Proof.
  intros Hx Hwt Hsh Hne. unfold linear.
  rewrite Hx, reverse_snoc, Hwt. cbn [default from_option id]. rewrite Hsh.
  by rewrite bool_decide_false.
Qed.

Lemma fresh_inr sh w p w' :
  fresh sh w = inr (p, w') ->
  shape (data p) = sh /\ effnet_model w' = effnet_model w.
Proof.
  unfold fresh. intros H. case_match. by simplify_eq.
Qed.

(** The head as [CustomClassifier(num_ftrs, num_classes)] builds it. *)
Lemma replace_fc_head n c w0 w :
  replace_fc n c w0 = inr (tt, w) ->
  exists t1 t2,
    param_data w Extractor !! "_fc.fc1.weight" = Some t1 /\
    shape t1 = [512; n] /\
    param_data w Extractor !! "_fc.fc2.weight" = Some t2 /\
    shape t2 = [c; 512].
Proof.
  unfold replace_fc. intros H.
  apply bind_inr in H as (w1 & wa & [S1 _]%fresh_inr & H).
  apply bind_inr in H as (b1 & wb & _ & H).
  apply bind_inr in H as (w2 & wc & [S2 _]%fresh_inr & H).
  apply bind_inr in H as (b2 & wd & _ & H).
  injection H as <-.
  exists (data w1), (data w2). unfold param_data.
  cbn [effnet_model set_effnet]. rewrite !lookup_fmap.
  rewrite lookup_insert_eq.
  do 2 (rewrite lookup_insert_ne by done). rewrite lookup_insert_eq.
  done.
Qed.

(** X11.  The head [CustomClassifier(num_ftrs, num_classes)] that line 62
    puts on the extractor maps an input whose last axis has [num_ftrs]
    entries to logits whose last axis has [num_classes] entries, the
    leading axes kept; it changes no parameter, and in evaluation mode it
    changes nothing at all.  An input of another width is refused by the
    first linear layer. *)
Theorem CustomClassifier_forward_shape num_ftrs num_classes w0 w x lead m :
  replace_fc num_ftrs num_classes w0 = inr (tt, w) ->
  shape (value x) = lead ++ [m] ->
  (m = num_ftrs ->
   exists out w',
     CustomClassifier_forward x w = inr (out, w') /\
     shape (value out) = lead ++ [num_classes] /\
     effnet_model w' = effnet_model w /\
     lstm_model w' = lstm_model w /\
     (training w = false -> w' = w)) /\
  (m <> num_ftrs ->
   CustomClassifier_forward x w
   = inl (RuntimeError "mat1 and mat2 shapes cannot be multiplied")).
Proof.
  intros Hfc Hx.
  destruct (replace_fc_head _ _ _ _ Hfc) as (t1 & t2 & H1 & S1 & H2 & S2).
  unfold CustomClassifier_forward. split.
  - intros ->.
    destruct (linear_shape Extractor "_fc.fc1" x w lead num_ftrs 512 t1
                Hx H1 S1) as (y1 & Hy1 & Sy1).
    unfold bind at 1. rewrite Hy1.
    unfold bind at 1. unfold relu_var at 1.
    set (y2 := Var _ _).
    assert (shape (value y2) = lead ++ [512]) as Sy2 by exact Sy1.
    destruct (dropout_layout y2 w) as (y3 & w3 & Hy3 & Sy3 & _ & _ & M3 & _).
    pose proof (steady_dropout _ _ _ _ Hy3) as (E3 & _).
    unfold bind at 1. rewrite Hy3.
    assert (param_data w3 Extractor !! "_fc.fc2.weight" = Some t2) as H2'
        by (unfold param_data in *; by rewrite E3).
    destruct (linear_shape Extractor "_fc.fc2" y3 w3 lead 512 num_classes t2)
      as (y4 & Hy4 & Sy4); [by rewrite Sy3 | done | done |].
    unfold bind at 1. rewrite Hy4.
    destruct (dropout_layout y4 w3) as (y5 & w5 & Hy5 & Sy5 & _ & _ & M5 & _).
    pose proof (steady_dropout _ _ _ _ Hy5) as (E5 & _).
    exists y5, w5. split; [done |].
    split; [by rewrite Sy5 |]. split; [congruence |]. split; [congruence |].
    intros Ht. unfold dropout in Hy3. rewrite Ht in Hy3. injection Hy3 as _ <-.
    unfold dropout in Hy5. rewrite Ht in Hy5. by injection Hy5 as _ <-.
  - intros Hne. unfold bind at 1.
    by rewrite (linear_mismatch Extractor "_fc.fc1" x w lead m num_ftrs 512 t1
                  Hx H1 S1 Hne).
Qed.


(* =================================================================== *)
(** ** The image folders *)
(* =================================================================== *)



(* =================================================================== *)
(** ** Evaluation-mode logits *)
(* =================================================================== *)

Lemma twin_bind {A B} (R : A -> A -> Prop) (Q : B -> B -> Prop)
      (m1 m2 : M A) (k1 k2 : A -> M B) w1 w2 :
  twin R (m1 w1) (m2 w2) ->
  (forall a1 a2 u1 u2, R a1 a2 -> same_weights u1 u2 ->
                       twin Q (k1 a1 u1) (k2 a2 u2)) ->
  twin Q (bind m1 k1 w1) (bind m2 k2 w2).
Proof.
  unfold twin at 1, bind. intros Hm Hk.
  destruct (m1 w1) as [e1 | [a1 u1]], (m2 w2) as [e2 | [a2 u2]];
    try done.
  destruct Hm as [Ha Hu]. by apply Hk.
Qed.

Ltac twin_prim Hv T1 T2 PE B PR I Hh :=
  unfold same_value in Hv; unfold twin, same_value;
  rewrite ?T1, ?T2, ?PE, ?B, ?PR, ?I, ?Hh, ?Hv;
  repeat case_match; simplify_eq; try done;
  repeat split; done.

Lemma twin_extract x1 x2 w1 w2 :
  same_value x1 x2 -> same_weights w1 w2 ->
  twin same_value (no_grad (extract_features x1) w1)
       (no_grad (extract_features x2) w2).
Proof.
  intros Hv (T1 & T2 & PE & B & PR & I & Hh).
  rewrite !no_grad_extract_features.
  unfold feature_map, after_features. twin_prim Hv T1 T2 PE B PR I Hh.
Qed.

Lemma twin_permute d x1 x2 w1 w2 :
  same_value x1 x2 -> same_weights w1 w2 ->
  twin same_value (permute_var x1 d w1) (permute_var x2 d w2).
Proof.
  intros Hv (T1 & T2 & PE & B & PR & I & Hh). unfold permute_var.
  twin_prim Hv T1 T2 PE B PR I Hh.
Qed.

Lemma twin_view s x1 x2 w1 w2 :
  same_value x1 x2 -> same_weights w1 w2 ->
  twin same_value (view_var x1 s w1) (view_var x2 s w2).
Proof.
  intros Hv (T1 & T2 & PE & B & PR & I & Hh). unfold view_var.
  twin_prim Hv T1 T2 PE B PR I Hh.
Qed.

Lemma twin_size d x1 x2 w1 w2 :
  same_value x1 x2 -> same_weights w1 w2 ->
  twin eq (lift (size (value x1) d) w1) (lift (size (value x2) d) w2).
Proof.
  intros Hv (T1 & T2 & PE & B & PR & I & Hh). unfold lift.
  twin_prim Hv T1 T2 PE B PR I Hh.
Qed.

Lemma twin_dropout x1 x2 w1 w2 :
  same_value x1 x2 -> same_weights w1 w2 ->
  twin same_value (dropout x1 w1) (dropout x2 w2).
Proof.
  intros Hv (T1 & T2 & PE & B & PR & I & Hh). unfold dropout.
  twin_prim Hv T1 T2 PE B PR I Hh.
Qed.

Lemma twin_nn_LSTM h0 c0 x1 x2 w1 w2 :
  same_value x1 x2 -> same_weights w1 w2 ->
  twin same_value (nn_LSTM x1 h0 c0 w1) (nn_LSTM x2 h0 c0 w2).
Proof.
  intros Hv (T1 & T2 & PE & B & PR & I & Hh). unfold nn_LSTM.
  twin_prim Hv T1 T2 PE B PR I Hh.
Qed.

Lemma twin_select_last x1 x2 w1 w2 :
  same_value x1 x2 -> same_weights w1 w2 ->
  twin same_value (select_last_var x1 w1) (select_last_var x2 w2).
Proof.
  intros Hv (T1 & T2 & PE & B & PR & I & Hh). unfold select_last_var.
  twin_prim Hv T1 T2 PE B PR I Hh.
Qed.

Lemma twin_fc x1 x2 w1 w2 :
  same_value x1 x2 -> same_weights w1 w2 ->
  twin same_value (fc x1 w1) (fc x2 w2).
Proof.
  intros Hv (T1 & T2 & PE & B & PR & I & Hh). unfold fc.
  twin_prim Hv T1 T2 PE B PR I Hh.
Qed.

Lemma twin_LSTMModel_forward x1 x2 w1 w2 :
  same_value x1 x2 -> same_weights w1 w2 ->
  twin same_value (LSTMModel_forward x1 w1) (LSTMModel_forward x2 w2).
Proof.
  intros Hv Hw. unfold LSTMModel_forward.
  eapply twin_bind; [by apply twin_size |].
  intros b ? u1 u2 <- Hu.
  eapply (twin_bind eq).
  { unfold twin. split; [apply Hu | done]. }
  intros hs ? v1 v2 <- Hv12.
  eapply twin_bind; [by apply twin_nn_LSTM |].
  intros ? ? ? ? ? ?.
  eapply twin_bind; [by apply twin_select_last |].
  intros ? ? ? ? ? ?.
  eapply twin_bind; [by apply twin_dropout |].
  intros ? ? ? ? ? ?. by apply twin_fc.
Qed.

(** X14.  In evaluation mode the forward pass is a function of the
    batch and of the tensors the model holds: two models with the same
    parameters, buffers and sizes give the same logits on the same batch,
    or raise the same exception, whatever their gradient slots, optimizer
    state, random generator and disk; and both are left holding the same
    tensors. *)
Theorem evaluation_logits_depend_on_weights_only x1 x2 w1 w2 :
  value x1 = value x2 -> same_weights w1 w2 ->
  twin same_value (CombinedModel_forward x1 w1) (CombinedModel_forward x2 w2).
Proof.
  intros Hv Hw. unfold CombinedModel_forward.
  eapply twin_bind; [by apply twin_extract |].
  intros ? ? ? ? ? ?.
  eapply twin_bind; [by apply twin_permute |].
  intros y1 y2 ? ? Hy ?.
  eapply twin_bind; [by apply twin_size |].
  intros n0 ? ? ? <- ?.
  eapply twin_bind; [by apply twin_size |].
  intros n1 ? ? ? <- ?.
  eapply twin_bind; [by apply twin_size |].
  intros n2 ? ? ? <- ?.
  eapply twin_bind; [by apply twin_view |].
  intros ? ? ? ? ? ?.
  eapply twin_bind; [by apply twin_dropout |].
  intros ? ? ? ? ? ?. by apply twin_LSTMModel_forward.
Qed.


(* =================================================================== *)
(** ** The modes [train] leaves behind *)
(* =================================================================== *)

#[local] Instance same_grad_mode_refl : Reflexive same_grad_mode.
Proof. intros w. reflexivity. Qed.

#[local] Instance same_grad_mode_trans : Transitive same_grad_mode.
Proof. intros a b c H1 H2. unfold same_grad_mode in *. congruence. Qed.

(** Whatever its body does, [with torch.no_grad()] puts the previous
    setting back. *)
Lemma mode_no_grad {A} (m : M A) : keeps same_grad_mode (no_grad m).
Proof.
  intros w a w' H. unfold no_grad in H.
  destruct (m (set_grad_enabled false w)) as [e | [a1 w1]]; simplify_eq.
  reflexivity.
Qed.

Lemma mode_model_mode b : keeps same_grad_mode (model_mode b).
Proof. unfold keeps, same_grad_mode, model_mode. prim_keeps. Qed.

Lemma mode_DataLoader ds sh : keeps same_grad_mode (DataLoader ds sh).
Proof. unfold keeps, same_grad_mode, DataLoader. prim_keeps. Qed.

Lemma mode_criterion o l : keeps same_grad_mode (criterion o l).
Proof. unfold keeps, same_grad_mode, criterion. prim_keeps. Qed.

Lemma mode_backward lv g : keeps same_grad_mode (backward lv g).
Proof. unfold keeps, same_grad_mode, backward. prim_keeps. Qed.

Lemma mode_zero_grad : keeps same_grad_mode zero_grad.
Proof. unfold keeps, same_grad_mode, zero_grad. prim_keeps. Qed.

Lemma mode_optimizer_step : keeps same_grad_mode optimizer_step.
Proof. unfold keeps, same_grad_mode, optimizer_step. prim_keeps. Qed.

Lemma mode_print l : keeps same_grad_mode (print l).
Proof. unfold keeps, same_grad_mode, print. prim_keeps. Qed.

Lemma mode_torch_save sd f : keeps same_grad_mode (torch_save sd f).
Proof. unfold keeps, same_grad_mode, torch_save. prim_keeps. Qed.

Lemma mode_CombinedModel_forward x :
  keeps same_grad_mode (CombinedModel_forward x).
Proof. intros w v w' H. by apply forward_graph in H as [_ ?]. Qed.

Create HintDb mode_db.
#[local] Hint Resolve mode_no_grad mode_model_mode mode_DataLoader
  mode_criterion mode_backward mode_zero_grad mode_optimizer_step mode_print
  mode_torch_save mode_CombinedModel_forward : mode_db.

Lemma mode_train_step st b : keeps same_grad_mode (train_step st b).
Proof.
  destruct b as [inputs labels]. unfold train_step, update_stats.
  walk mode_db.
Qed.

Lemma mode_validate va : keeps same_grad_mode (validate va).
Proof. unfold validate, validate_loop. walk mode_db. Qed.

Lemma mode_save_if_best v best : keeps same_grad_mode (save_if_best v best).
Proof. unfold save_if_best. destruct (lt v best); walk mode_db. Qed.

#[local] Hint Resolve mode_train_step mode_validate mode_save_if_best
  : mode_db.

Lemma mode_train tr va n : keeps same_grad_mode (train tr va n).
Proof. unfold train, train_epoch. walk mode_db. Qed.

(** An epoch ends in the mode [validate] puts the model in. *)
Lemma train_epoch_ends_evaluating tr va n best e w b' w' :
  train_epoch tr va n best e w = inr (b', w') -> training w' = false.
Proof.
  unfold train_epoch. intros H.
  apply bind_inr in H as (? & w1 & _ & H).
  apply bind_inr in H as (? & w2 & _ & H).
  apply bind_inr in H as (? & w3 & _ & H).
  apply bind_inr in H as (? & w4 & _ & H).
  apply bind_inr in H as (? & w5 & _ & H).
  apply bind_inr in H as (? & w6 & _ & H).
  apply bind_inr in H as (r & w7 & H7 & H).
  assert (training w7 = false) as T7.
  { unfold validate in H7.
    apply bind_inr in H7 as (? & v0 & H0 & H7).
    unfold model_mode in H0. injection H0 as _ <-.
    apply bind_inr in H7 as (? & v1 & H1 & H7).
    apply steady_validate_loop in H1 as (_ & _ & _ & T).
    destruct (T eq_refl) as [T1 _].
    apply bind_inr in H7 as (? & v2 & [_ ->]%lift_inr & H7).
    apply bind_inr in H7 as (? & v3 & [_ ->]%lift_inr & H7).
    by apply ret_inr in H7 as [_ ->]. }
  apply bind_inr in H as (? & w8 & H8 & H).
  unfold print in H8. injection H8 as _ <-.
  unfold save_if_best in H. destruct (lt _ best).
  - apply bind_inr in H as (? & w9 & H9 & H).
    unfold get_world in H9. injection H9 as _ <-.
    apply bind_inr in H as (? & w10 & H10 & H).
    unfold torch_save in H10. injection H10 as _ <-.
    by apply ret_inr in H as [_ ->].
  - by apply ret_inr in H as [_ ->].
Qed.

Lemma for_each_last {A S} (body : S -> A -> M S) (P : world -> Prop) xs :
  (forall s x w s' w', body s x w = inr (s', w') -> P w') ->
  xs <> [] ->
  forall s w s' w', for_each body s xs w = inr (s', w') -> P w'.
Proof.
  intros Hb. induction xs as [| x xs IH]; intros Hne s w s' w' H; [done |].
  simpl in H. apply bind_inr in H as (s1 & w1 & H1 & H).
  destruct xs as [| y xs].
  - simpl in H. apply ret_inr in H as [_ ->]. by eapply Hb.
  - by eapply IH.
Qed.

(** X15.  [train] hands gradient tracking back as it found it; after
    at least one epoch the model is left in evaluation mode, the mode
    [validate] put it in; with no epoch nothing happens at all. *)
Theorem train_leaves_evaluation_mode tr va n w u w' :
  train tr va n w = inr (u, w') ->
  grad_enabled w' = grad_enabled w /\
  (0 < n -> training w' = false) /\
  (n = 0 -> w' = w).
Proof.
  intros H. split; [by apply mode_train in H |]. split.
  - intros Hn. unfold train in H.
    apply bind_inr in H as (b & w1 & H & Hret).
    apply ret_inr in Hret as [_ ->].
    eapply (for_each_last _ (fun w => training w = false)); [| | exact H].
    + intros s x w0 s' w0'. apply train_epoch_ends_evaluating.
    + destruct n; [lia | done].
  - intros ->. by injection H as <-.
Qed.


(* =================================================================== *)
(** ** The model the script builds, and the feature maps it accepts *)
(* =================================================================== *)

Lemma fresh_frame sh w p w' :
  fresh sh w = inr (p, w') ->
  shape (data p) = sh /\ grad p = None /\
  effnet_model w' = effnet_model w /\
  effnet_buffers w' = effnet_buffers w /\ training w' = training w /\
  disk w' = disk w.
Proof. unfold fresh. intros H. case_match. by simplify_eq. Qed.

(** What [LSTMModel(input, hidden, 1, num_classes)] leaves in the world. *)
Lemma new_LSTMModel_built input hidden c w0 w :
  new_LSTMModel input hidden c w0 = inr (tt, w) ->
  input_size w = input /\ hidden_size w = hidden /\
  effnet_model w = effnet_model w0 /\ effnet_buffers w = effnet_buffers w0 /\
  training w = training w0 /\ disk w = disk w0 /\
  exists fw, lstm_model w !! "fc.weight" = Some fw /\
             shape (data fw) = [c; hidden].
Proof.
  unfold new_LSTMModel. intros H.
  apply bind_inr in H as (? & w1 & (_ & _ & E1 & B1 & T1 & D1)%fresh_frame & H).
  apply bind_inr in H as (? & w2 & (_ & _ & E2 & B2 & T2 & D2)%fresh_frame & H).
  apply bind_inr in H as (? & w3 & (_ & _ & E3 & B3 & T3 & D3)%fresh_frame & H).
  apply bind_inr in H as (? & w4 & (_ & _ & E4 & B4 & T4 & D4)%fresh_frame & H).
  apply bind_inr in H as (fw & w5 & (S5 & _ & E5 & B5 & T5 & D5)%fresh_frame & H).
  apply bind_inr in H as (? & w6 & (_ & _ & E6 & B6 & T6 & D6)%fresh_frame & H).
  injection H as <-.
  cbn [input_size hidden_size effnet_model effnet_buffers training disk
       lstm_model set_lstm].
  repeat (split; [done || congruence |]).
  exists fw. split; [| done].
  do 4 (rewrite lookup_insert_ne by done). by rewrite lookup_insert_eq.
Qed.

(** [combined_model.load_state_dict] replaces tensors by tensors of
    the same shape and leaves the rest of the world alone. *)
Lemma combined_load_frame sd w u w' :
  combined_load_state_dict sd w = inr (u, w') ->
  input_size w' = input_size w /\ hidden_size w' = hidden_size w /\
  training w' = training w /\
  forall k p, lstm_model w !! k = Some p ->
    exists t, lstm_model w' !! k = Some (Param t (grad p)) /\
              shape t = shape (data p).
Proof.
  unfold combined_load_state_dict. intros H.
  case_bool_decide as Hsh; [| done]. injection H as _ <-.
  repeat (split; [done |]).
  intros k p Hk. cbn [lstm_model set_lstm].
  rewrite map_lookup_imap, Hk. cbn [bind option_bind mbind].
  apply (f_equal (fun m => m !! String.append "lstm_model." k)) in Hsh.
  rewrite !lookup_fmap, lookup_combined_lstm, Hk in Hsh.
  destruct (sd !! String.append "lstm_model." k) as [t |]; [| done].
  injection Hsh as Hsh. by exists t.
Qed.

(** X16.  The combined model as lines 104 to 117 build and load it, for
    the width [num_ftrs], accepts every batch whose feature map is a
    contiguous [(B, num_ftrs, H, W)] tensor, whatever [B], [H] and [W]: the
    forward pass returns logits of shape [(B, 2)]. *)
Theorem built_model_accepts_its_feature_maps num_ftrs w0 w x B H W :
  build_combined num_ftrs w0 = inr (tt, w) ->
  let f := feature_map (value x) w in
  contiguous f -> shape f = [B; num_ftrs; H; W] ->
  0 < B -> 0 < num_ftrs -> 0 < H -> 0 < W ->
  exists out w',
    CombinedModel_forward x w = inr (out, w') /\ shape (value out) = [B; 2].
Proof.
  intros Hb f Hc Hsh HB HC HH HW. unfold build_combined in Hb.
  apply bind_inr in Hb as ([] & w1 & H1 & Hb).
  apply new_LSTMModel_built in H1
    as (I1 & S1 & _ & _ & _ & _ & fw & Hfw & Sfw).
  apply bind_inr in Hb as (sd & w2 & H2 & Hb).
  assert (w2 = w1) as -> by (unfold torch_load in H2; by case_match; simplify_eq).
  apply combined_load_frame in Hb as (I2 & S2 & _ & Hps).
  destruct (Hps _ _ Hfw) as (t & Ht & St).
  destruct (forward_to_sequence x w B num_ftrs H W Hc Hsh HB HC HH HW)
    as (s & Hs & ->).
  destruct (dropout_layout (Var s ∅) (after_features (value x) w))
    as (d & w3 & Hd & Hdsh & _ & _ & Hm & Hin & Hhs).
  cbn [value] in Hdsh. rewrite Hs in Hdsh.
  destruct (LSTMModel_forward_shape d w3 B (H * W) num_ftrs (Param t (grad fw)))
    as (out & w' & _ & _ & Hrun & Hout & _);
    [done | nia | | | |].
  - rewrite Hin. cbn [input_size after_features set_effnet]. congruence.
  - rewrite Hm. exact Ht.
  - rewrite Hhs. cbn [data hidden_size after_features set_effnet].
    rewrite St, Sfw. congruence.
  - exists out, w'. split; [| done]. unfold bind at 1. by rewrite Hd.
Qed.


(* =================================================================== *)
(** ** A loss that is not a number *)
(* =================================================================== *)

Lemma add_nan_l x y : is_nan x = true -> is_nan (add x y) = true.
Proof. destruct x; try discriminate. reflexivity. Qed.

Lemma add_nan_r x y : is_nan y = true -> is_nan (add x y) = true.
Proof. destruct y; try discriminate. by destruct x. Qed.

Lemma foldl_add_nan l : forall acc,
  is_nan acc = true -> is_nan (foldl add acc l) = true.
Proof.
  induction l as [| x l IH]; intros acc Hacc; [done |].
  simpl. by apply IH, add_nan_l.
Qed.

Lemma foldl_add_nan_elem l : forall acc,
  Exists (fun x => is_nan x = true) l -> is_nan (foldl add acc l) = true.
Proof.
  induction l as [| x l IH]; intros acc H; [by inversion H |].
  simpl. inversion H as [? ? Hx | ? ? Hl]; subst.
  - by apply foldl_add_nan, add_nan_r.
  - by apply IH.
Qed.

Lemma mul_int_nan x n t :
  mul_int x n = inr t -> is_nan x = true -> is_nan t = true.
Proof.
  unfold mul_int. destruct (float_of_int n); [done |].
  intros H Hx. injection H as <-. destruct x; try discriminate. reflexivity.
Qed.

Lemma div_int_nan x n l :
  div_int x n = inr l -> is_nan x = true -> is_nan l = true.
Proof.
  unfold div_int. intros H Hx.
  destruct n; [done | |]; destruct (float_of_int _); simplify_eq;
    destruct x; try discriminate; reflexivity.
Qed.

Lemma accounted_nan bs : forall os,
  Forall2 accounted bs os ->
  Exists (fun bo => is_nan (cross_entropy bo.2.1 bo.1.2) = true)
         (zip bs os) ->
  Exists (fun x => is_nan x = true) (snd <$> os).
Proof.
  induction bs as [| b bs IH]; intros os HF HE;
    inversion HF as [| ? o ? os' Hacc HF']; subst; [by inversion HE |].
  cbn [zip zip_with] in HE. cbn [fmap list_fmap].
  inversion HE as [? ? Hx | ? ? Hl]; subst.
  - left. destruct Hacc as (n & c & _ & _ & Hmul).
    by eapply mul_int_nan.
  - right. by apply IH.
Qed.



(* =================================================================== *)
(** ** The accuracies [train] prints *)
(* =================================================================== *)

(** The ratio of the two counters a loop has kept, when it exists. *)
Lemma accuracy_unit body bs w st w' acc :
  accounts body ->
  for_each body (Stats zero 0 0) bs w = inr (st, w') ->
  int_truediv (correct_predictions st) (total_samples st) = inr acc ->
  le zero acc = true /\ le acc one = true.
Proof.
  intros Hb HF Hacc.
  destruct (for_each_tallied _ _ Hb _ _ _ _ HF) as (os & Ht).
  apply fsum_tallied in Ht as (_ & Hc & Htot).
  pose proof (matches_bounds bs os) as Hm.
  destruct (decide (total_samples st = 0%Z)) as [E | Hne].
  { rewrite E in Hacc. done. }
  destruct (int_truediv_unit (correct_predictions st) (total_samples st))
    as (x & Hx & Hlo & Hhi); [lia | lia |].
  rewrite Hx in Hacc. by injection Hacc as <-.
Qed.

Lemma validate_accuracy_unit va w loss acc w' :
  validate va w = inr ((loss, acc), w') ->
  le zero acc = true /\ le acc one = true.
Proof.
  unfold validate. intros H.
  apply bind_inr in H as (? & w0 & _ & H).
  apply bind_inr in H as (st & w1 & Hloop & H).
  apply bind_inr in H as (l & w2 & [_ ->]%lift_inr & H).
  apply bind_inr in H as (a & w3 & [Ha ->]%lift_inr & H).
  apply ret_inr in H as [H _]. injection H as -> ->.
  unfold validate_loop, no_grad in Hloop.
  destruct (bind _ _ (set_grad_enabled false w0))
    as [? | [st0 w_in]] eqn:Hin; [done |].
  injection Hloop as -> _.
  apply bind_inr in Hin as (batches & wd & _ & HF).
  by eapply accuracy_unit; [apply validate_step_accounts | |].
Qed.

Lemma train_epoch_accuracies tr va n best e w b' w' :
  train_epoch tr va n best e w = inr (b', w') ->
  exists r,
    log w' = log w ++ epoch_log n e r /\
    le zero (train_accuracy r) = true /\ le (train_accuracy r) one = true /\
    le zero (val_accuracy r) = true /\ le (val_accuracy r) one = true.
Proof.
  intros H. destruct (train_epoch_report _ _ _ _ _ _ _ _ H)
    as (r & L & _).
  exists r. split; [done |].
  unfold train_epoch in H.
  apply bind_inr in H as (? & w1 & H1 & H).
  apply bind_inr in H as (batches & w2 & H2 & H).
  apply bind_inr in H as (st & w3 & H3 & H).
  apply bind_inr in H as (el & w4 & H4 & H).
  apply bind_inr in H as (ea & w5 & H5 & H).
  apply bind_inr in H as (? & w6 & H6 & H).
  apply bind_inr in H as ([vl vacc] & w7 & H7 & H).
  apply bind_inr in H as (? & w8 & H8 & H).
  apply lift_inr in H4 as [_ ->]. apply lift_inr in H5 as [H5 ->].
  pose proof (accuracy_unit _ _ _ _ _ _ train_step_accounts H3 H5)
    as [Hlo Hhi].
  pose proof (validate_accuracy_unit _ _ _ _ _ H7) as [Vlo Vhi].
  apply quiet_model_mode in H1 as [L1 _].
  apply quiet_DataLoader in H2 as [L2 _].
  apply (keeps_for_each quiet) in H3 as [L3 _]; [| apply quiet_train_step].
  unfold print in H6. injection H6 as _ <-.
  apply quiet_validate in H7 as [L7 _].
  unfold print in H8. injection H8 as _ <-.
  assert (exists tail,
             log w' = log w ++ Printed (TrainLine (e + 1) n el ea)
                            :: Printed (ValLine vl vacc) :: tail)
    as [tail Hlog].
  { unfold save_if_best in H. simpl in *. destruct (lt vl best).
    - apply bind_inr in H as (wx & w9 & H9 & H).
      unfold get_world in H9. injection H9 as <- <-.
      apply bind_inr in H as (? & w10 & H10 & H).
      unfold torch_save in H10. injection H10 as _ <-.
      apply ret_inr in H as [_ ->]. eexists. simpl.
      rewrite L7. simpl. rewrite L3, L2, L1. by rewrite <- !app_assoc.
    - apply ret_inr in H as [_ ->]. exists []. simpl.
      rewrite L7. simpl. rewrite L3, L2, L1. by rewrite <- !app_assoc. }
  rewrite L in Hlog. apply app_inv_head in Hlog.
  unfold epoch_log in Hlog. cbn [app] in Hlog.
  injection Hlog as _ <- _ <- _. done.
Qed.

Lemma train_epochs_accuracies tr va n es : forall best w b' w',
  for_each (train_epoch tr va n) best es w = inr (b', w') ->
  exists rs,
    length rs = length es /\
    log w' = log w ++ concat (zip_with (epoch_log n) es rs) /\
    Forall (fun r =>
              le zero (train_accuracy r) = true /\
              le (train_accuracy r) one = true /\
              le zero (val_accuracy r) = true /\
              le (val_accuracy r) one = true) rs.
Proof.
  induction es as [| e es IH]; intros best w b' w' H; simpl in H.
  - apply ret_inr in H as [-> ->]. exists []. simpl.
    split; [done | split; [by rewrite app_nil_r | constructor]].
  - apply bind_inr in H as (b1 & w2 & H1 & H).
    apply train_epoch_accuracies in H1 as (r & L1 & Hr).
    apply IH in H as (rs & Hlen & L & HF).
    exists (r :: rs). simpl. split; [by rewrite Hlen |].
    split; [rewrite L, L1; by rewrite <- !app_assoc | by constructor].
Qed.

(** X18.  Every accuracy [train] prints, for the training set and for
    the validation set, of every epoch, lies between 0.0 and 1.0. *)
Theorem printed_accuracies_are_fractions tr va n w u w' :
  train tr va n w = inr (u, w') ->
  exists rs,
    length rs = n /\
    log w' = log w ++ concat (zip_with (epoch_log n) (seq 0 n) rs) /\
    Forall (fun r =>
              le zero (train_accuracy r) = true /\
              le (train_accuracy r) one = true /\
              le zero (val_accuracy r) = true /\
              le (val_accuracy r) one = true) rs.
Proof.
  unfold train. intros H.
  apply bind_inr in H as (b & w1 & H & Hret).
  apply ret_inr in Hret as [_ ->].
  apply train_epochs_accuracies in H as (rs & Hlen & L & HF).
  rewrite length_seq in Hlen. by exists rs.
Qed.

End Script.

(* ===================================================================== *)
(** ** The folder the script never opens *)
(* ===================================================================== *)


(* ===================================================================== *)
(** ** A small machine to run the script on *)
(* ===================================================================== *)

(** One image per folder, a backbone reduced to one convolution whose
    feature map has one channel and two by two positions, and stand-ins
    for the numerics: every dot product is 0.0, the activations are the
    identity, and the "loss" of a batch is the first logit of its first
    row, so that a NaN in the classifier's bias reaches the loss as it
    would through a real cross-entropy.  The random generator is a counter
    that every shuffle advances.  The optimizer stand-in overwrites a
    parameter with its gradient; the gradient is all zeros, except that
    with [diverge] set the bias of class 0 receives a NaN while the
    generator has been advanced once only, that is, in the first epoch. *)
Module Toy.

Definition randperm (g : nat) (n : nat) : list nat * nat := (seq 0 n, S g).
Definition bernoulli (g : nat) (n : nat) : list bool * nat :=
  (replicate n true, g).
Definition init_values (g : nat) (n : nat) : list float * nat := ([], g).
Definition effnet_features (ps bufs : gmap string tensor) (training : bool)
           (x : tensor) : tensor :=
  let b := default 0 (shape x !! 0) in
  new_tensor [b; 1; 2; 2] (replicate (b * 4) zero).
Definition bn_update (ps bufs : gmap string tensor) (x : tensor)
  : gmap string tensor := bufs.
Definition dot (a b : list float) : float := zero.
Definition act (x : float) : float := x.
Definition cross_entropy (outputs : tensor) (labels : list nat) : float :=
  default nan (get outputs [0; 0]).
Definition gradient (diverge : bool) (pn : pname)
           (e r : gmap string tensor) (g : nat) (x : tensor)
           (labels : list nat) : tensor :=
  if String.eqb pn.2 "fc.bias"
  then new_tensor [2] [if diverge && (g <? 2) then nan else zero; zero]
  else default (zeros []) (r !! pn.2).
Definition adam_update (s : option unit) (p g : tensor) : tensor * unit :=
  (g, tt).

Definition image : tensor := new_tensor [3; 1; 1] [zero; zero; zero].
Definition folder : list (tensor * nat) := [(image, 0)].

(** A tensor of which only the shape matters. *)
Definition shaped (sh : list nat) : tensor := new_tensor sh [].

Definition pretrained : gmap string tensor * gmap string tensor :=
  ({[ "_conv_stem.weight" := shaped [32; 3; 3; 3];
      "_fc.weight" := shaped [1000; 1];
      "_fc.bias" := shaped [1000] ]},
   {[ "_bn0.running_mean" := shaped [32] ]}).

(** The extractor as the script has it once its head is replaced. *)
Definition extractor : gmap string parameter :=
  {[ "_conv_stem.weight" := Param (shaped [32; 3; 3; 3]) None;
     "_fc.fc1.weight" := Param (shaped [512; 1]) None;
     "_fc.fc1.bias" := Param (shaped [512]) None;
     "_fc.fc2.weight" := Param (shaped [2; 512]) None;
     "_fc.fc2.bias" := Param (shaped [2]) None ]}.

(** A classifier of hidden width 1. *)
Definition classifier : gmap string parameter :=
  {[ "fc.weight" := Param (new_tensor [2; 1] [zero; zero]) None;
     "fc.bias" := Param (new_tensor [2] [zero; zero]) None ]}.

(** The machine when [train] is called. *)
Definition machine : @world nat unit :=
  World extractor pretrained.2 classifier 1 1 true true ∅ 0 ∅ [].

(** The script's functions on this machine. *)
Abbreviation train diverge :=
  (@train nat unit randperm bernoulli effnet_features bn_update dot act act
          cross_entropy (gradient diverge) adam_update).

Abbreviation validate :=
  (@validate nat unit randperm bernoulli effnet_features bn_update dot act
             act cross_entropy).

Abbreviation validate_loop :=
  (@validate_loop nat unit randperm bernoulli effnet_features bn_update dot
                  act act cross_entropy).

Abbreviation train_step :=
  (@train_step nat unit bernoulli effnet_features bn_update dot act act
               cross_entropy (gradient false) adam_update).

Abbreviation train_and_save :=
  (@train_and_save nat unit randperm bernoulli effnet_features bn_update dot
                   act act cross_entropy (gradient false) adam_update).

Abbreviation forward :=
  (@CombinedModel_forward nat unit bernoulli effnet_features bn_update dot
                          act act).

Abbreviation startup :=
  (@startup nat unit init_values false pretrained folder folder folder).

(** The world a computation ends in, or the one it started from when it
    raised. *)
Definition final {A} (m : @M nat unit A) (w : @world nat unit)
  : @world nat unit :=
  match m w with
  | inr (_, w') => w'
  | inl _ => w
  end.

Definition after_two_epochs : @world nat unit :=
  Eval vm_compute in final (train false folder folder 2) machine.

Definition after_divergence : @world nat unit :=
  Eval vm_compute in final (train true folder folder 2) machine.

Definition after_validate : @world nat unit :=
  Eval vm_compute in final (validate folder) machine.

Definition after_validate_loop : @world nat unit :=
  Eval vm_compute in final (validate_loop folder) (set_training false machine).

Definition validate_stats : stats :=
  Eval vm_compute in
    match validate_loop folder (set_training false machine) with
    | inr (st, _) => st
    | inl _ => Stats zero 0 0
    end.

Definition after_train_and_save : @world nat unit :=
  Eval vm_compute in final (train_and_save folder folder) machine.

Definition first_batch : batch := Eval vm_compute in collate folder.

Definition after_train_step : @world nat unit :=
  Eval vm_compute in final (train_step (Stats zero 0 0) first_batch) machine.

(** The extractor's checkpoint file. *)
Definition extractor_checkpoint : gmap string tensor :=
  state_dict extractor pretrained.2.

Definition files : gmap string (gmap string tensor) :=
  {[ "efficientnet_model.pth" := extractor_checkpoint ]}.

(** The machine when the script reaches line 63. *)
Definition at_line_63 : @world nat unit :=
  Eval vm_compute in final startup (boot 0 files).

Definition after_load : @world nat unit :=
  Eval vm_compute in final load_extractor at_line_63.

(** A checkpoint that holds the head's four tensors and nothing else,
    and the machine at line 63 when that is the file on disk. *)
Definition head_checkpoint : gmap string tensor :=
  {[ "_fc.fc1.weight" := shaped [512; 1];
     "_fc.fc1.bias" := shaped [512];
     "_fc.fc2.weight" := shaped [2; 512];
     "_fc.fc2.bias" := shaped [2] ]}.

Definition head_files : gmap string (gmap string tensor) :=
  {[ "efficientnet_model.pth" := head_checkpoint ]}.

Definition at_line_63_head_only : @world nat unit :=
  Eval vm_compute in final startup (boot 0 head_files).


(** The same machine with a recurrent network built for two input
    features, while the feature map has one channel. *)
Definition wide_machine : @world nat unit := set_lstm classifier 2 1 machine.

(** The machine once line 62 has put a fresh head on the extractor. *)
Definition with_head : @world nat unit :=
  Eval vm_compute in final (@replace_fc nat unit init_values 1 2) machine.

(** A checkpoint of the combined model, taken after two epochs, and the
    machine once it is loaded. *)
Definition trained_checkpoint : gmap string tensor :=
  Eval vm_compute in combined_state_dict after_two_epochs.

Definition after_combined_load : @world nat unit :=
  Eval vm_compute in
    final (@combined_load_state_dict nat unit trained_checkpoint) machine.

(** The machine in evaluation mode, and the same tensors in a machine
    with gradient tracking off and another state of the generator. *)
Definition evaluating : @world nat unit := set_training false machine.

Definition evaluating_elsewhere : @world nat unit :=
  set_rng 7 (set_grad_enabled false (set_training false machine)).

(** Another test folder. *)
Definition other_folder : list (tensor * nat) := [(image, 1); (image, 0)].

(** The machine when the script reaches line 104, with a checkpoint of a
    combined model of hidden width 128 on the disk, and the machine once
    lines 104 to 117 have run. *)
Definition combined_checkpoint : gmap string tensor :=
  Eval vm_compute in
    combined_state_dict
      (final (@new_LSTMModel nat unit init_values 1 128 2) machine).

Definition at_line_104 : @world nat unit :=
  set_disk_log {[ "combined_model_best.pth" := combined_checkpoint ]} []
               machine.

Definition at_line_118 : @world nat unit :=
  Eval vm_compute in
    final (@build_combined nat unit init_values 1) at_line_104.

(** The machine with a classifier whose first bias is NaN, and the same
    machine after one call of [validate]. *)
Definition diverged : @world nat unit :=
  World extractor pretrained.2
        {[ "fc.weight" := Param (new_tensor [2; 1] [zero; zero]) None;
           "fc.bias" := Param (new_tensor [2] [nan; zero]) None ]}
        1 1 true true ∅ 0 ∅ [].

Definition after_nan_validate : @world nat unit :=
  Eval vm_compute in final (validate folder) diverged.

End Toy.

(* ===================================================================== *)
(** ** Runs on the small machine *)
(* ===================================================================== *)

(** Two epochs in which the first update makes the bias NaN and the second
    brings it back: the first validation loss is NaN, the second is 0.0
    and is saved. *)
Lemma train_saves_iff_new_best_witness :
  Toy.train true Toy.folder Toy.folder 2 Toy.machine
  = inr (tt, Toy.after_divergence) /\
  exists rs : list epoch_report,
    length rs = 2 /\
    log Toy.after_divergence
    = log Toy.machine ++ concat (zip_with (epoch_log 2) (seq 0 2) rs) /\
    forall i r, rs !! i = Some r ->
      (is_Some (checkpoint r) <->
       lt (val_loss r) inf = true /\
       forall j r', j < i -> rs !! j = Some r' ->
                    is_nan (val_loss r') = false ->
                    lt (val_loss r) (val_loss r') = true).
Proof.
  assert (Toy.train true Toy.folder Toy.folder 2 Toy.machine
          = inr (tt, Toy.after_divergence)) as H
      by (vm_compute; reflexivity).
  split; [exact H |].
  exact (@train_saves_iff_new_best nat unit Toy.randperm Toy.bernoulli
           Toy.effnet_features Toy.bn_update Toy.dot Toy.act Toy.act
           Toy.cross_entropy (Toy.gradient true) Toy.adam_update
           _ _ _ _ _ _ H).
Defined.

(** C1 as stated fails on that run: the second epoch saves although its
    loss is not below the first epoch's, which is NaN; and the first epoch
    does not save although no epoch precedes it. *)
Lemma saves_although_not_below_a_prior_loss :
  Toy.train true Toy.folder Toy.folder 2 Toy.machine
  = inr (tt, Toy.after_divergence) /\
  ~ saves_iff_below_all_prior 2 Toy.machine Toy.after_divergence.
Proof.
  split; [vm_compute; reflexivity |].
  intros (rs & Hlen & L & Hrs).
  destruct rs as [| r0 [| r1 [| ? ?]]]; try discriminate Hlen.
  assert (val_loss r0 = nan /\ is_Some (checkpoint r1)) as [V0 C1].
  { unfold Toy.after_divergence, Toy.machine, epoch_log in L.
    cbn [log zip_with seq concat app] in L.
    destruct (checkpoint r0), (checkpoint r1);
      cbn [app] in L; simplify_eq; split; eauto. }
  apply (Hrs 1 r1 eq_refl) with (j := 0) (r' := r0) in C1; [| lia | done].
  rewrite V0 in C1. by rewrite lt_nan_r in C1.
Qed.

(** The same run for C3: its first epoch has a NaN validation loss. *)
Lemma nan_validation_loss_never_saves_witness :
  Toy.train true Toy.folder Toy.folder 2 Toy.machine
  = inr (tt, Toy.after_divergence) /\
  ((forall v acc best (w0 : @world nat unit),
       is_nan v = true ->
       bind (print (ValLine v acc)) (fun _ => save_if_best v best) w0 =
       inr (best, set_disk_log (disk w0)
                               (log w0 ++ [Printed (ValLine v acc)]) w0)) /\
   exists rs : list epoch_report,
     length rs = 2 /\
     log Toy.after_divergence
     = log Toy.machine ++ concat (zip_with (epoch_log 2) (seq 0 2) rs) /\
     forall i r, rs !! i = Some r -> is_nan (val_loss r) = true ->
       checkpoint r = None /\
       best_after (take (S i) (val_loss <$> rs)) =
       best_after (take i (val_loss <$> rs)) /\
       forall k r', i < k -> rs !! k = Some r' -> is_Some (checkpoint r') ->
         is_nan (val_loss r') = false /\
         lt (val_loss r') (best_after (take i (val_loss <$> rs))) = true).
Proof.
  assert (Toy.train true Toy.folder Toy.folder 2 Toy.machine
          = inr (tt, Toy.after_divergence)) as H
      by (vm_compute; reflexivity).
  split; [exact H |].
  exact (@nan_validation_loss_never_saves nat unit Toy.randperm Toy.bernoulli
           Toy.effnet_features Toy.bn_update Toy.dot Toy.act Toy.act
           Toy.cross_entropy (Toy.gradient true) Toy.adam_update
           _ _ _ _ _ _ H).
Defined.



(** One forward pass for C2: a batch of one image, a feature map of one
    channel and two by two positions. *)
Lemma forward_steps_witness :
  let x := detached Toy.first_batch.1 in
  let f := feature_map Toy.effnet_features (value x) Toy.machine in
  contiguous f /\ shape f = [1; 1; 2; 2] /\
  exists p s,
    no_grad (extract_features Toy.effnet_features Toy.bn_update x) Toy.machine
    = inr (Var f ∅, after_features Toy.bn_update (value x) Toy.machine) /\
    permute f [0; 2; 3; 1] = inr p /\
    shape p = [1; 2; 2; 1] /\
    (forall b h v c, get p [b; h; v; c] = get f [b; c; h; v]) /\
    view p [Some 1; Some (2 * 2); None] = inr s /\
    shape s = [1; 2 * 2; 1] /\
    (forall b t c, b < 1 -> t < 2 * 2 -> c < 1 ->
                   get s [b; t; c] = get p [b; t / 2; t mod 2; c]) /\
    Toy.forward x Toy.machine
    = (bind (dropout Toy.bernoulli (Var s ∅))
            (fun d => LSTMModel_forward Toy.bernoulli Toy.dot Toy.act
                                        Toy.act d))
        (after_features Toy.bn_update (value x) Toy.machine).
Proof.
  intros x f.
  assert (contiguous f) as Hc by (repeat split; reflexivity).
  assert (shape f = [1; 1; 2; 2]) as Hsh by reflexivity.
  split; [exact Hc |]. split; [exact Hsh |].
  exact (@forward_steps nat unit Toy.bernoulli Toy.effnet_features
           Toy.bn_update Toy.dot Toy.act Toy.act x Toy.machine 1 1 2 2
           Hc Hsh ltac:(lia) ltac:(lia) ltac:(lia) ltac:(lia)).
Defined.

(** The same pass for C5. *)
Lemma forward_output_shape_witness :
  let x := detached Toy.first_batch.1 in
  let f := feature_map Toy.effnet_features (value x) Toy.machine in
  let wt := Param (new_tensor [2; 1] [zero; zero]) None in
  contiguous f /\ shape f = [1; 1; 2; 2] /\
  1 = input_size Toy.machine /\
  lstm_model Toy.machine !! "fc.weight" = Some wt /\
  shape (data wt) = [2; hidden_size Toy.machine] /\
  exists out w' sequence hidden sel w2,
    Toy.forward x Toy.machine = inr (out, w') /\
    shape (value out) = [1; 2] /\
    shape (value sequence) = [1; 2 * 2; 1] /\
    nn_LSTM Toy.dot Toy.act Toy.act sequence
            (zeros [1; 1; hidden_size Toy.machine])
            (zeros [1; 1; hidden_size Toy.machine]) w2 = inr (hidden, w2) /\
    shape (value hidden) = [1; 2 * 2; hidden_size Toy.machine] /\
    select_last_var hidden w2 = inr (sel, w2) /\
    shape (value sel) = [1; hidden_size Toy.machine] /\
    (forall b j,
        get (value sel) [b; j] = get (value hidden) [b; 2 * 2 - 1; j]) /\
    Toy.forward x Toy.machine
    = (bind (dropout Toy.bernoulli sel) (fun d => fc Toy.dot d)) w2.
Proof.
  intros x f wt.
  assert (contiguous f) as Hc by (repeat split; reflexivity).
  assert (shape f = [1; 1; 2; 2]) as Hsh by reflexivity.
  assert (1 = input_size Toy.machine) as Hin by reflexivity.
  assert (lstm_model Toy.machine !! "fc.weight" = Some wt) as Hwt
      by (vm_compute; reflexivity).
  assert (shape (data wt) = [2; hidden_size Toy.machine]) as Hwsh
      by reflexivity.
  split; [exact Hc |]. split; [exact Hsh |]. split; [exact Hin |].
  split; [exact Hwt |]. split; [exact Hwsh |].
  exact (@forward_output_shape nat unit Toy.bernoulli Toy.effnet_features
           Toy.bn_update Toy.dot Toy.act Toy.act x Toy.machine 1 1 2 2 wt
           Hc Hsh ltac:(lia) ltac:(lia) ltac:(lia) ltac:(lia) Hin Hwt Hwsh).
Defined.

(** The five epochs and the final save for C7. *)
Lemma final_save_is_extractor_only_witness :
  Toy.train_and_save Toy.folder Toy.folder Toy.machine
  = inr (tt, Toy.after_train_and_save) /\
  exists (w_t : @world nat unit) (rs : list epoch_report),
    Toy.train false Toy.folder Toy.folder 5 Toy.machine = inr (tt, w_t) /\
    length rs = 5 /\
    log w_t = log Toy.machine
              ++ concat (zip_with (epoch_log 5) (seq 0 5) rs) /\
    (forall f sd, Saved f sd ∈ concat (zip_with (epoch_log 5) (seq 0 5) rs) ->
                  f = "model_best.pth") /\
    log Toy.after_train_and_save
    = log w_t ++
      [Saved "model.pth" (state_dict (effnet_model w_t) (effnet_buffers w_t))]
    /\
    disk Toy.after_train_and_save
    = <["model.pth" := state_dict (effnet_model w_t) (effnet_buffers w_t)]>
      (disk w_t).
Proof.
  assert (Toy.train_and_save Toy.folder Toy.folder Toy.machine
          = inr (tt, Toy.after_train_and_save)) as H
      by (vm_compute; reflexivity).
  split; [exact H |].
  exact (@final_save_is_extractor_only nat unit Toy.randperm Toy.bernoulli
           Toy.effnet_features Toy.bn_update Toy.dot Toy.act Toy.act
           Toy.cross_entropy (Toy.gradient false) Toy.adam_update
           _ _ _ _ _ H).
Defined.



(** One call of [validate] for C9. *)
Lemma validate_changes_no_parameter_witness :
  Toy.validate Toy.folder Toy.machine
  = inr ((zero, one), Toy.after_validate) /\
  effnet_model Toy.after_validate = effnet_model Toy.machine /\
  lstm_model Toy.after_validate = lstm_model Toy.machine /\
  effnet_buffers Toy.after_validate = effnet_buffers Toy.machine /\
  adam_state Toy.after_validate = adam_state Toy.machine /\
  training Toy.after_validate = false /\
  grad_enabled Toy.after_validate = grad_enabled Toy.machine /\
  (exists st w_in,
      bind (@DataLoader nat unit Toy.randperm Toy.folder false)
           (fun batches =>
              for_each (@validate_step nat unit Toy.bernoulli Toy.effnet_features
                                      Toy.bn_update Toy.dot Toy.act Toy.act
                                      Toy.cross_entropy)
                       (Stats zero 0 0) batches)
           (set_grad_enabled false (set_training false Toy.machine))
      = inr (st, w_in) /\
      grad_enabled w_in = false) /\
  (forall st b,
      keeps blind (@validate_step nat unit Toy.bernoulli Toy.effnet_features
                                 Toy.bn_update Toy.dot Toy.act Toy.act
                                 Toy.cross_entropy st b)) /\
  accounts Toy.cross_entropy
           (@validate_step nat unit Toy.bernoulli Toy.effnet_features Toy.bn_update
                          Toy.dot Toy.act Toy.act Toy.cross_entropy) /\
  accounts Toy.cross_entropy Toy.train_step.
Proof.
  assert (Toy.validate Toy.folder Toy.machine
          = inr ((zero, one), Toy.after_validate)) as H
      by (vm_compute; reflexivity).
  split; [exact H |].
  exact (@validate_changes_no_parameter nat unit Toy.randperm Toy.bernoulli
           Toy.effnet_features Toy.bn_update Toy.dot Toy.act Toy.act
           Toy.cross_entropy (Toy.gradient false) Toy.adam_update
           _ _ _ _ H).
Defined.

(** One iteration of the training loop for C10. *)
Lemma optimizer_never_moves_extractor_witness :
  no_extractor_grad Toy.machine /\
  Toy.train_step (Stats zero 0 0) Toy.first_batch Toy.machine
  = inr (Stats zero 1 1, Toy.after_train_step) /\
  effnet_model Toy.after_train_step = effnet_model Toy.machine /\
  no_extractor_grad Toy.after_train_step /\
  (forall x (w0 : @world nat unit) out w1,
      Toy.forward x w0 = inr (out, w1) -> recurrent_only (leaves out)) /\
  (forall (w0 : @world nat unit) k p g,
      effnet_model w0 !! k = Some p -> grad p = Some g ->
      exists w1,
        optimizer_step Toy.adam_update w0 = inr (tt, w1) /\
        data <$> (effnet_model w1 !! k)
        = Some (Toy.adam_update (adam_state w0 !! (Extractor, k))
                                (data p) g).1).
Proof.
  assert (no_extractor_grad Toy.machine) as Hw.
  { intros k p Hk.
    assert (map_Forall (fun (_ : string) q => grad q = None) Toy.extractor)
      as HF by (apply (bool_decide_unpack _); vm_compute; exact I).
    exact (HF k p Hk). }
  assert (Toy.train_step (Stats zero 0 0) Toy.first_batch Toy.machine
          = inr (Stats zero 1 1, Toy.after_train_step)) as H
      by (vm_compute; reflexivity).
  split; [exact Hw |]. split; [exact H |].
  exact (@optimizer_never_moves_extractor nat unit Toy.bernoulli
           Toy.effnet_features Toy.bn_update Toy.dot Toy.act Toy.act
           Toy.cross_entropy (Toy.gradient false) Toy.adam_update
           _ _ _ _ _ Hw H).
Defined.

(** A feature map of one channel offered to a recurrent network built
    for two. *)
Lemma forward_refuses_other_depth_witness :
  let x := detached Toy.first_batch.1 in
  let f := feature_map Toy.effnet_features (value x) Toy.wide_machine in
  contiguous f /\ shape f = [1; 1; 2; 2] /\
  1 <> input_size Toy.wide_machine /\
  Toy.forward x Toy.wide_machine
  = inl (RuntimeError "input.size(-1) must be equal to input_size").
Proof.
  intros x f.
  assert (contiguous f) as Hc by (repeat split; reflexivity).
  assert (shape f = [1; 1; 2; 2]) as Hsh by reflexivity.
  assert (1 <> input_size Toy.wide_machine) as Hne by (simpl; lia).
  split; [exact Hc |]. split; [exact Hsh |]. split; [exact Hne |].
  exact (@forward_refuses_other_depth nat unit Toy.bernoulli
           Toy.effnet_features Toy.bn_update Toy.dot Toy.act Toy.act
           x Toy.wide_machine 1 1 2 2 Hc Hsh
           ltac:(lia) ltac:(lia) ltac:(lia) ltac:(lia) Hne).
Defined.

(** One iteration of the training loop, seen from the classifier's bias. *)
Lemma train_step_applies_batch_gradient_witness :
  let p := Param (new_tensor [2] [zero; zero]) None in
  let g := batch_gradient (Toy.gradient false) Toy.machine Toy.first_batch
                          (Recurrent, "fc.bias") in
  let slot := adam_state Toy.machine !! (Recurrent, "fc.bias") in
  Toy.train_step (Stats zero 0 0) Toy.first_batch Toy.machine
  = inr (Stats zero 1 1, Toy.after_train_step) /\
  lstm_model Toy.machine !! "fc.bias" = Some p /\
  lstm_model Toy.after_train_step !! "fc.bias"
  = Some (Param (Toy.adam_update slot (data p) g).1 (Some g)) /\
  adam_state Toy.after_train_step !! (Recurrent, "fc.bias")
  = Some (Toy.adam_update slot (data p) g).2.
Proof.
  intros p g slot.
  assert (Toy.train_step (Stats zero 0 0) Toy.first_batch Toy.machine
          = inr (Stats zero 1 1, Toy.after_train_step)) as H
      by (vm_compute; reflexivity).
  assert (lstm_model Toy.machine !! "fc.bias" = Some p) as Hp
      by (vm_compute; reflexivity).
  split; [exact H |]. split; [exact Hp |].
  exact (@train_step_applies_batch_gradient nat unit Toy.bernoulli
           Toy.effnet_features Toy.bn_update Toy.dot Toy.act Toy.act
           Toy.cross_entropy (Toy.gradient false) Toy.adam_update
           _ _ _ _ _ "fc.bias" p H Hp).
Defined.


(** The machine's own checkpoint, written and read back. *)
Lemma best_checkpoint_reloads_witness :
  dom (effnet_model Toy.machine) ## dom (effnet_buffers Toy.machine) /\
  bind (torch_save (combined_state_dict Toy.machine) "model_best.pth")
       (fun _ => bind (torch_load "model_best.pth")
                      (fun sd => combined_load_state_dict sd))
       Toy.machine
  = inr (tt, set_disk_log
               (<["model_best.pth" := combined_state_dict Toy.machine]>
                  (disk Toy.machine))
               (log Toy.machine
                ++ [Saved "model_best.pth" (combined_state_dict Toy.machine)])
               Toy.machine).
Proof.
  assert (dom (effnet_model Toy.machine) ## dom (effnet_buffers Toy.machine))
    as Hd by (apply (bool_decide_unpack _); vm_compute; exact I).
  split; [exact Hd |].
  exact (@best_checkpoint_reloads nat unit Toy.machine Hd).
Defined.

(** The run whose first validation loss is NaN and whose second is 0.0. *)
Lemma best_checkpoint_has_least_loss_witness :
  Toy.train true Toy.folder Toy.folder 2 Toy.machine
  = inr (tt, Toy.after_divergence) /\
  exists rs : list epoch_report,
    length rs = 2 /\
    log Toy.after_divergence
    = log Toy.machine ++ concat (zip_with (epoch_log 2) (seq 0 2) rs) /\
    match last_saved rs with
    | Some r =>
      r ∈ rs /\ is_Some (checkpoint r) /\
      disk Toy.after_divergence !! "model_best.pth" = checkpoint r /\
      (forall r', r' ∈ rs -> is_nan (val_loss r') = false ->
                  le (val_loss r) (val_loss r') = true)
    | None =>
      disk Toy.after_divergence !! "model_best.pth"
      = disk Toy.machine !! "model_best.pth" /\
      (forall r', r' ∈ rs ->
                  checkpoint r' = None /\ lt (val_loss r') inf = false)
    end.
Proof.
  assert (Toy.train true Toy.folder Toy.folder 2 Toy.machine
          = inr (tt, Toy.after_divergence)) as H
      by (vm_compute; reflexivity).
  split; [exact H |].
  exact (@best_checkpoint_has_least_loss nat unit Toy.randperm Toy.bernoulli
           Toy.effnet_features Toy.bn_update Toy.dot Toy.act Toy.act
           Toy.cross_entropy (Toy.gradient true) Toy.adam_update
           _ _ _ _ _ _ H).
Defined.

(** The five epochs and the final save, seen from a file the script
    reads. *)
Lemma training_writes_two_files_only_witness :
  Toy.train_and_save Toy.folder Toy.folder Toy.machine
  = inr (tt, Toy.after_train_and_save) /\
  "efficientnet_model.pth" <> "model_best.pth" /\
  "efficientnet_model.pth" <> "model.pth" /\
  disk Toy.after_train_and_save !! "efficientnet_model.pth"
  = disk Toy.machine !! "efficientnet_model.pth".
Proof.
  assert (Toy.train_and_save Toy.folder Toy.folder Toy.machine
          = inr (tt, Toy.after_train_and_save)) as H
      by (vm_compute; reflexivity).
  assert ("efficientnet_model.pth" <> "model_best.pth") as H1 by discriminate.
  assert ("efficientnet_model.pth" <> "model.pth") as H2 by discriminate.
  split; [exact H |]. split; [exact H1 |]. split; [exact H2 |].
  exact (@training_writes_two_files_only nat unit Toy.randperm Toy.bernoulli
           Toy.effnet_features Toy.bn_update Toy.dot Toy.act Toy.act
           Toy.cross_entropy (Toy.gradient false) Toy.adam_update
           _ _ _ _ _ "efficientnet_model.pth" H H1 H2).
Defined.

(** The same run, seen from the file it ends with. *)
Lemma final_file_holds_the_loaded_parameters_witness :
  no_extractor_grad Toy.machine /\
  Toy.train_and_save Toy.folder Toy.folder Toy.machine
  = inr (tt, Toy.after_train_and_save) /\
  exists sd,
    disk Toy.after_train_and_save !! "model.pth" = Some sd /\
    dom (effnet_model Toy.machine) ⊆ dom sd /\
    forall k p, effnet_model Toy.machine !! k = Some p ->
                sd !! k = Some (data p).
Proof.
  assert (no_extractor_grad Toy.machine) as Hw.
  { intros k p Hk.
    assert (map_Forall (fun (_ : string) q => grad q = None) Toy.extractor)
      as HF by (apply (bool_decide_unpack _); vm_compute; exact I).
    exact (HF k p Hk). }
  assert (Toy.train_and_save Toy.folder Toy.folder Toy.machine
          = inr (tt, Toy.after_train_and_save)) as H
      by (vm_compute; reflexivity).
  split; [exact Hw |]. split; [exact H |].
  exact (@final_file_holds_the_loaded_parameters nat unit Toy.randperm
           Toy.bernoulli Toy.effnet_features Toy.bn_update Toy.dot Toy.act
           Toy.act Toy.cross_entropy (Toy.gradient false) Toy.adam_update
           _ _ _ _ _ Hw H).
Defined.

(** A row of three logits with a tie for the maximum. *)
Lemma predicted_class_is_first_maximum_witness :
  [zero; one; one] <> [] /\
  (Forall (fun x => is_nan x = false) [zero; one; one] ->
   exists m,
     [zero; one; one] !! argmax [zero; one; one] = Some m /\
     (forall j x, [zero; one; one] !! j = Some x -> le x m = true) /\
     (forall j x, j < argmax [zero; one; one] ->
                  [zero; one; one] !! j = Some x -> lt x m = true)) /\
  (forall p v,
     [zero; one; one] !! p = Some v -> is_nan v = true ->
     (forall j x, j < p -> [zero; one; one] !! j = Some x ->
                  is_nan x = false) ->
     argmax [zero; one; one] = p).
Proof.
  assert ([zero; one; one] <> []) as Hne by discriminate.
  split; [exact Hne |].
  exact (predicted_class_is_first_maximum [zero; one; one] Hne).
Defined.

(** The head on the small machine, fed one feature per sample, and fed
    three. *)
Lemma CustomClassifier_forward_shape_witness :
  let x := detached (new_tensor [4; 1] [zero; zero; zero; zero]) in
  @replace_fc nat unit Toy.init_values 1 2 Toy.machine
  = inr (tt, Toy.with_head) /\
  shape (value x) = [4] ++ [1] /\
  (1 = 1 ->
   exists out w',
     CustomClassifier_forward Toy.bernoulli Toy.dot Toy.act x Toy.with_head
     = inr (out, w') /\
     shape (value out) = [4] ++ [2] /\
     effnet_model w' = effnet_model Toy.with_head /\
     lstm_model w' = lstm_model Toy.with_head /\
     (training Toy.with_head = false -> w' = Toy.with_head)) /\
  (1 <> 1 ->
   CustomClassifier_forward Toy.bernoulli Toy.dot Toy.act x Toy.with_head
   = inl (RuntimeError "mat1 and mat2 shapes cannot be multiplied")).
Proof.
  intros x.
  assert (@replace_fc nat unit Toy.init_values 1 2 Toy.machine
          = inr (tt, Toy.with_head)) as H by (vm_compute; reflexivity).
  assert (shape (value x) = [4] ++ [1]) as Hx by reflexivity.
  split; [exact H |]. split; [exact Hx |].
  exact (@CustomClassifier_forward_shape nat unit Toy.bernoulli
           Toy.init_values Toy.dot Toy.act 1 2 Toy.machine Toy.with_head
           x [4] 1 H Hx).
Defined.



(** One batch through two machines that hold the same tensors. *)
Lemma evaluation_logits_depend_on_weights_only_witness :
  let x := detached Toy.first_batch.1 in
  value x = value x /\
  same_weights Toy.evaluating Toy.evaluating_elsewhere /\
  twin same_value (Toy.forward x Toy.evaluating)
       (Toy.forward x Toy.evaluating_elsewhere).
Proof.
  intros x.
  assert (same_weights Toy.evaluating Toy.evaluating_elsewhere) as Hw
      by (repeat split; reflexivity).
  split; [reflexivity |]. split; [exact Hw |].
  exact (@evaluation_logits_depend_on_weights_only nat unit Toy.bernoulli
           Toy.effnet_features Toy.bn_update Toy.dot Toy.act Toy.act
           x x Toy.evaluating Toy.evaluating_elsewhere eq_refl Hw).
Defined.

(** Two quiet epochs, seen from the modes they leave. *)
Lemma train_leaves_evaluation_mode_witness :
  Toy.train false Toy.folder Toy.folder 2 Toy.machine
  = inr (tt, Toy.after_two_epochs) /\
  grad_enabled Toy.after_two_epochs = grad_enabled Toy.machine /\
  (0 < 2 -> training Toy.after_two_epochs = false) /\
  (2 = 0 -> Toy.after_two_epochs = Toy.machine).
Proof.
  assert (Toy.train false Toy.folder Toy.folder 2 Toy.machine
          = inr (tt, Toy.after_two_epochs)) as H
      by (vm_compute; reflexivity).
  split; [exact H |].
  exact (@train_leaves_evaluation_mode nat unit Toy.randperm Toy.bernoulli
           Toy.effnet_features Toy.bn_update Toy.dot Toy.act Toy.act
           Toy.cross_entropy (Toy.gradient false) Toy.adam_update
           _ _ _ _ _ _ H).
Defined.

(** The combined model of hidden width 128, built and loaded, and a
    batch of one image. *)
Lemma built_model_accepts_its_feature_maps_witness :
  let x := detached Toy.first_batch.1 in
  let f := feature_map Toy.effnet_features (value x) Toy.at_line_118 in
  @build_combined nat unit Toy.init_values 1 Toy.at_line_104
  = inr (tt, Toy.at_line_118) /\
  contiguous f /\ shape f = [1; 1; 2; 2] /\
  exists out w',
    Toy.forward x Toy.at_line_118 = inr (out, w') /\
    shape (value out) = [1; 2].
Proof.
  intros x f.
  assert (@build_combined nat unit Toy.init_values 1 Toy.at_line_104
          = inr (tt, Toy.at_line_118)) as H by (vm_compute; reflexivity).
  assert (contiguous f) as Hc by (repeat split; reflexivity).
  assert (shape f = [1; 1; 2; 2]) as Hsh by reflexivity.
  split; [exact H |]. split; [exact Hc |]. split; [exact Hsh |].
  exact (@built_model_accepts_its_feature_maps nat unit Toy.bernoulli
           Toy.init_values Toy.effnet_features Toy.bn_update Toy.dot Toy.act
           Toy.act 1 Toy.at_line_104 Toy.at_line_118 x 1 2 2 H Hc Hsh
           ltac:(lia) ltac:(lia) ltac:(lia) ltac:(lia)).
Defined.


(** Two quiet epochs, seen from the accuracies they print. *)
Lemma printed_accuracies_are_fractions_witness :
  Toy.train false Toy.folder Toy.folder 2 Toy.machine
  = inr (tt, Toy.after_two_epochs) /\
  exists rs : list epoch_report,
    length rs = 2 /\
    log Toy.after_two_epochs
    = log Toy.machine ++ concat (zip_with (epoch_log 2) (seq 0 2) rs) /\
    Forall (fun r =>
              le zero (train_accuracy r) = true /\
              le (train_accuracy r) one = true /\
              le zero (val_accuracy r) = true /\
              le (val_accuracy r) one = true) rs.
Proof.
  assert (Toy.train false Toy.folder Toy.folder 2 Toy.machine
          = inr (tt, Toy.after_two_epochs)) as H
      by (vm_compute; reflexivity).
  split; [exact H |].
  exact (@printed_accuracies_are_fractions nat unit Toy.randperm Toy.bernoulli
           Toy.effnet_features Toy.bn_update Toy.dot Toy.act Toy.act
           Toy.cross_entropy (Toy.gradient false) Toy.adam_update
           _ _ _ _ _ _ H).
Defined.
